(** * Text-to-SQL agent: query review, rewriting and guarded execution

    A shallow embedding of the self-healing query pipeline of
    [agents/sql_agent.py] (static defect detection, deterministic
    rewrites, secondary review, guarded execution with retry), of the
    result payload of [utils/helpers.py] and of the conversation memory
    of [agents/langgraph_agent.py]; then of the code around it: the text
    and contact helpers of [utils/helpers.py], the validators of
    [utils/validators.py], the router and the response node of the
    agent, the rule-based generator and the text of a result in
    [agents/sql_agent.py], and the robot mentions of [app.py].

    Text is a list of characters.  The character classes of Python's
    [re] module ([\s], [\w], [\d], [\b]), [str.strip], [str.upper] and
    [str.lower] are given on the ASCII range, where they agree with
    Python; a character code of 128 or more is kept as a caseless
    character that is neither a space nor a word character. *)

From Stdlib Require Import Ascii String List Bool Arith Lia ZArith.
From stdpp Require Import base list gmap strings.

Import ListNotations.
Local Open Scope nat_scope.
Local Open Scope list_scope.

(** ** Python strings *)

Module Str.

Abbreviation text := (list ascii).

(** A string literal as text. *)
Definition L (s : string) : text := list_ascii_of_string s.

Definition code (c : ascii) : nat := nat_of_ascii c.

Definition nl : ascii := ascii_of_nat 10.

(** [str.isspace] and [\s]: tab, line feed, vertical tab, form feed,
    carriage return, the four separators 28..31, and the space. *)
Definition is_space (c : ascii) : bool :=
  let n := code c in
  ((9 <=? n) && (n <=? 13)) || ((28 <=? n) && (n <=? 32)).

Definition is_upper (c : ascii) : bool :=
  let n := code c in (65 <=? n) && (n <=? 90).

Definition is_lower (c : ascii) : bool :=
  let n := code c in (97 <=? n) && (n <=? 122).

Definition is_digit (c : ascii) : bool :=
  let n := code c in (48 <=? n) && (n <=? 57).

Definition is_alpha (c : ascii) : bool := is_upper c || is_lower c.

(** [\w]: letters, digits and the underscore. *)
Definition is_word (c : ascii) : bool :=
  is_alpha c || is_digit c || (code c =? 95).

Definition upper_char (c : ascii) : ascii :=
  if is_lower c then ascii_of_nat (code c - 32) else c.

Definition lower_char (c : ascii) : ascii :=
  if is_upper c then ascii_of_nat (code c + 32) else c.

Definition upper (s : text) : text := map upper_char s.
Definition lower (s : text) : text := map lower_char s.

Definition eqc (a b : ascii) : bool := Ascii.eqb a b.

(** Comparison of two characters under [re.IGNORECASE]. *)
Definition eqc_ci (a b : ascii) : bool := eqc (lower_char a) (lower_char b).

Fixpoint lstrip (s : text) : text :=
  match s with
  | c :: t => if is_space c then lstrip t else s
  | [] => []
  end.

Definition rstrip (s : text) : text := rev (lstrip (rev s)).

Definition strip (s : text) : text := rstrip (lstrip s).

Fixpoint startswith (p s : text) : bool :=
  match p, s with
  | [], _ => true
  | a :: p', b :: s' => eqc a b && startswith p' s'
  | _ :: _, [] => false
  end.

Definition endswith (p s : text) : bool := startswith (rev p) (rev s).

(** [needle in s]. *)
Fixpoint contains (needle s : text) : bool :=
  startswith needle s ||
  match s with
  | [] => false
  | _ :: t => contains needle t
  end.

Fixpoint text_eqb (a b : text) : bool :=
  match a, b with
  | [], [] => true
  | x :: a', y :: b' => eqc x y && text_eqb a' b'
  | _, _ => false
  end.

(** [s.find(needle)] from offset [i]; [None] stands for [-1]. *)
Fixpoint find_from (needle s : text) (i : nat) : option nat :=
  if startswith needle s then Some i
  else match s with
       | [] => None
       | _ :: t => find_from needle t (S i)
       end.

Definition find (needle s : text) : option nat := find_from needle s 0.

(** [s.rfind(needle)]: the last offset where [needle] starts. *)
Fixpoint rfind_from (needle s : text) (i : nat) : option nat :=
  match s with
  | [] => if startswith needle [] then Some i else None
  | _ :: t =>
      match rfind_from needle t (S i) with
      | Some j => Some j
      | None => if startswith needle s then Some i else None
      end
  end.

Definition rfind (needle s : text) : option nat := rfind_from needle s 0.

(** [s[i:j]] for offsets within range. *)
Definition slice (i j : nat) (s : text) : text := take (j - i) (drop i s).

(** [s.split(sep)] for a one-character separator. *)
Fixpoint split_on (sep : ascii) (s : text) : list text :=
  match s with
  | [] => [[]]
  | c :: t =>
      if eqc c sep then [] :: split_on sep t
      else match split_on sep t with
           | [] => [[c]]
           | x :: xs => (c :: x) :: xs
           end
  end.

(** [sep.join(parts)]. *)
Fixpoint join (sep : text) (parts : list text) : text :=
  match parts with
  | [] => []
  | [p] => p
  | p :: ps => p ++ sep ++ join sep ps
  end.

Definition digit_char (n : nat) : ascii := ascii_of_nat (48 + n).

Fixpoint decimal_fuel (fuel n : nat) (acc : text) : text :=
  match fuel with
  | 0 => acc
  | S f =>
      let acc' := digit_char (n mod 10) :: acc in
      if n <? 10 then acc' else decimal_fuel f (n / 10) acc'
  end.

(** [str(n)] for a natural number. *)
Definition decimal (n : nat) : text := decimal_fuel (S n) n [].

(** A check of every character, by its eight bits. *)
Definition forall_bool (f : bool -> bool) : bool := f true && f false.

Definition forall_ascii (P : ascii -> bool) : bool :=
  forall_bool (fun b0 => forall_bool (fun b1 => forall_bool (fun b2 =>
  forall_bool (fun b3 => forall_bool (fun b4 => forall_bool (fun b5 =>
  forall_bool (fun b6 => forall_bool (fun b7 =>
    P (Ascii b0 b1 b2 b3 b4 b5 b6 b7))))))))).

(** [not l] for a string or a list. *)
Definition is_empty {A : Type} (l : list A) : bool :=
  match l with [] => true | _ => false end.

End Str.

Import Str.

(** ** Python regular expressions

    A backtracking matcher with the priorities of Python's [re]: the
    left branch of an alternation first, a greedy repetition longest
    first, a lazy one shortest first.  Repetition is over a single
    character class, which is all the patterns of the agent use. *)

Module Re.

(** A position in the subject: the text already passed (latest
    character first) and the text still ahead. *)
Record cursor := Cur { before : text; after : text }.

Definition at_start (s : text) : cursor := Cur [] s.
Definition pos (c : cursor) : nat := length (before c).
Definition subject (c : cursor) : text := rev (before c) ++ after c.

Inductive greed := Greedy | Lazy.

Inductive regex : Type :=
| Eps
| Chr (p : ascii -> bool)
| Seq (a b : regex)
| Alt (a b : regex)
| Star (g : greed) (p : ascii -> bool)
| WordB
| Bos
| Eos
| Grp (n : nat) (a : regex).

(** Group number, start offset, end offset; the latest entry wins. *)
Definition captures := list (nat * (nat * nat)).

Definition word_before (c : cursor) : bool :=
  match before c with x :: _ => is_word x | [] => false end.

Definition word_after (c : cursor) : bool :=
  match after c with x :: _ => is_word x | [] => false end.

(** [\b]. *)
Definition at_boundary (c : cursor) : bool :=
  xorb (word_before c) (word_after c).

(** [$] without [re.MULTILINE]: the end, or just before a final
    line feed. *)
Definition at_end (c : cursor) : bool :=
  match after c with
  | [] => true
  | [x] => eqc x nl
  | _ => false
  end.

Definition at_bos (c : cursor) : bool := is_empty (before c).

Section Matcher.
Context {A : Type}.

Fixpoint star_greedy (p : ascii -> bool) (l r : text)
         (k : cursor -> option A) : option A :=
  match r with
  | x :: t =>
      if p x then
        match star_greedy p (x :: l) t k with
        | Some v => Some v
        | None => k (Cur l r)
        end
      else k (Cur l r)
  | [] => k (Cur l r)
  end.

Fixpoint star_lazy (p : ascii -> bool) (l r : text)
         (k : cursor -> option A) : option A :=
  match k (Cur l r) with
  | Some v => Some v
  | None =>
      match r with
      | x :: t => if p x then star_lazy p (x :: l) t k else None
      | [] => None
      end
  end.

Fixpoint run (r : regex) (c : cursor) (cs : captures)
         (k : cursor -> captures -> option A) : option A :=
  match r with
  | Eps => k c cs
  | Chr p =>
      match after c with
      | x :: t => if p x then k (Cur (x :: before c) t) cs else None
      | [] => None
      end
  | Seq a b => run a c cs (fun c' cs' => run b c' cs' k)
  | Alt a b =>
      match run a c cs k with
      | Some v => Some v
      | None => run b c cs k
      end
  | Star Greedy p => star_greedy p (before c) (after c) (fun c' => k c' cs)
  | Star Lazy p => star_lazy p (before c) (after c) (fun c' => k c' cs)
  | WordB => if at_boundary c then k c cs else None
  | Bos => if at_bos c then k c cs else None
  | Eos => if at_end c then k c cs else None
  | Grp n a => run a c cs (fun c' cs' => k c' ((n, (pos c, pos c')) :: cs'))
  end.
End Matcher.

(** A match object: where it starts and ends, and its groups. *)
Record rmatch := Match { m_from : cursor; m_to : cursor; m_groups : captures }.

Definition m_start (m : rmatch) : nat := pos (m_from m).
Definition m_end (m : rmatch) : nat := pos (m_to m).

(** [re.match] at a cursor. *)
Definition match_at (r : regex) (c : cursor) : option rmatch :=
  run r c [] (fun c' cs => Some (Match c c' cs)).

(** [re.search] from a cursor on: the leftmost position with a match. *)
Fixpoint search_from (r : regex) (l rest : text) : option rmatch :=
  match match_at r (Cur l rest) with
  | Some m => Some m
  | None =>
      match rest with
      | [] => None
      | x :: t => search_from r (x :: l) t
      end
  end.

Definition search (r : regex) (s : text) : option rmatch :=
  search_from r [] s.

Fixpoint lookup_group (n : nat) (cs : captures) : option (nat * nat) :=
  match cs with
  | [] => None
  | (k, se) :: t => if n =? k then Some se else lookup_group n t
  end.

(** [m.group(0)]. *)
Definition matched (m : rmatch) : text :=
  take (m_end m - m_start m) (after (m_from m)).

(** [m.group(n)] for a group that took part in the match. *)
Definition group (n : nat) (m : rmatch) : text :=
  match lookup_group n (m_groups m) with
  | Some (i, j) => slice i j (subject (m_from m))
  | None => []
  end.

Definition found (o : option rmatch) : bool :=
  match o with Some _ => true | None => false end.

(** Steps one character past an empty match, as the scanning loops of
    [finditer] and [sub] do; [None] at the end of the subject. *)
Definition step (c : cursor) : option cursor :=
  match after c with
  | x :: t => Some (Cur (x :: before c) t)
  | [] => None
  end.

(** [re.finditer]: the successive non-overlapping matches. *)
Fixpoint finditer_from (fuel : nat) (r : regex) (c : cursor) : list rmatch :=
  match fuel with
  | 0 => []
  | S f =>
      match search_from r (before c) (after c) with
      | None => []
      | Some m =>
          m :: (if m_end m =? m_start m
                then match step (m_to m) with
                     | Some c' => finditer_from f r c'
                     | None => []
                     end
                else finditer_from f r (m_to m))
      end
  end.

Definition finditer (r : regex) (s : text) : list rmatch :=
  finditer_from (S (length s)) r (at_start s).

(** [re.findall] for a pattern without groups. *)
Definition findall (r : regex) (s : text) : list text :=
  map matched (finditer r s).

(** [re.sub] with a fixed replacement text. *)
Fixpoint sub_from (fuel : nat) (r : regex) (repl : text) (c : cursor) : text :=
  match fuel with
  | 0 => after c
  | S f =>
      match search_from r (before c) (after c) with
      | None => after c
      | Some m =>
          take (m_start m - pos c) (after c) ++ repl ++
          (if m_end m =? m_start m
           then match after (m_to m) with
                | x :: t => x :: sub_from f r repl (Cur (x :: before (m_to m)) t)
                | [] => []
                end
           else sub_from f r repl (m_to m))
      end
  end.

Definition sub (r : regex) (repl : text) (s : text) : text :=
  sub_from (S (length s)) r repl (at_start s).

(** *** Pattern combinators *)

Definition any : ascii -> bool := fun _ => true.
Definition is_char (ci : bool) (a : ascii) : ascii -> bool :=
  fun x => if ci then eqc_ci a x else eqc a x.

(** A literal, under [re.IGNORECASE] when [ci] is set. *)
Fixpoint lit (ci : bool) (s : text) : regex :=
  match s with
  | [] => Eps
  | [a] => Chr (is_char ci a)
  | a :: t => Seq (Chr (is_char ci a)) (lit ci t)
  end.

Fixpoint seqs (rs : list regex) : regex :=
  match rs with
  | [] => Eps
  | [r] => r
  | r :: t => Seq r (seqs t)
  end.

Fixpoint alts (rs : list regex) : regex :=
  match rs with
  | [] => Eps
  | [r] => r
  | r :: t => Alt r (alts t)
  end.

Definition plus (g : greed) (p : ascii -> bool) : regex := Seq (Chr p) (Star g p).
Definition opt (r : regex) : regex := Alt r Eps.

(** [\s*], [\s+], [\w+]. *)
Definition ws0 : regex := Star Greedy is_space.
Definition ws1 : regex := plus Greedy is_space.
Definition word1 : regex := plus Greedy is_word.

End Re.

Import Re.

(** ** The SQL agent ([agents/sql_agent.py]) *)

Module SQLAgent.

(** The issue tags of [_static_sql_issues]. *)
Inductive issue :=
| not_select
| aggregate_with_non_aggregate_without_group_by
| list_intent_but_aggregate
| wrong_join_parent_contacts
| in_subquery_with_limit
| unwarranted_is_verified_filter
| top_level_limit_before_orderby
| distinct_orderby_not_in_select.

Definition issue_eqb (a b : issue) : bool :=
  match a, b with
  | not_select, not_select
  | aggregate_with_non_aggregate_without_group_by,
    aggregate_with_non_aggregate_without_group_by
  | list_intent_but_aggregate, list_intent_but_aggregate
  | wrong_join_parent_contacts, wrong_join_parent_contacts
  | in_subquery_with_limit, in_subquery_with_limit
  | unwarranted_is_verified_filter, unwarranted_is_verified_filter
  | top_level_limit_before_orderby, top_level_limit_before_orderby
  | distinct_orderby_not_in_select, distinct_orderby_not_in_select => true
  | _, _ => false
  end.

(** [tag in issues]. *)
Definition has_issue (i : issue) (issues : list issue) : bool :=
  existsb (issue_eqb i) issues.

Definition ch (s : string) : ascii :=
  match s with String a _ => a | EmptyString => Ascii.zero end.

(** Case-insensitive and case-sensitive keywords. *)
Definition kw (s : string) : regex := lit true (L s).
Definition kw_cs (s : string) : regex := lit false (L s).
Definition sym (s : string) : regex := Chr (eqc (ch s)).

(** [[A-Za-z_]]. *)
Definition is_ident_start (c : ascii) : bool := is_alpha c || eqc c (ch "_").

(** [[\d\s,]]. *)
Definition is_limit_arg (c : ascii) : bool :=
  is_digit c || is_space c || eqc c (ch ",").

(** [[A-Za-z_][A-Za-z0-9_]*]. *)
Definition ident : regex := Seq (Chr is_ident_start) (Star Greedy is_word).

(** *** Patterns, in the order the agent uses them *)

(** [\b(COUNT|SUM|AVG|MIN|MAX)\s*\(], on upper-cased text. *)
Definition re_aggregate : regex :=
  seqs [WordB;
        Grp 1 (alts [kw_cs "COUNT"; kw_cs "SUM"; kw_cs "AVG"; kw_cs "MIN"; kw_cs "MAX"]);
        ws0; sym "("].

(** [^\s*SELECT\s+(.*?)\s+FROM\s] with IGNORECASE and DOTALL. *)
Definition re_select_list : regex :=
  seqs [Bos; ws0; kw "SELECT"; ws1; Grp 1 (Star Lazy any); ws1; kw "FROM"; Chr is_space].

(** [\bGROUP\s+BY\b], on upper-cased text. *)
Definition re_group_by : regex :=
  seqs [WordB; kw_cs "GROUP"; ws1; kw_cs "BY"; WordB].

(** [\bFROM\s+parents\s+(\w+)]. *)
Definition re_from_parents : regex :=
  seqs [WordB; kw "FROM"; ws1; kw "parents"; ws1; Grp 1 word1].

(** [\bJOIN\s+parent_contacts\s+(\w+)]. *)
Definition re_join_contacts : regex :=
  seqs [WordB; kw "JOIN"; ws1; kw "parent_contacts"; ws1; Grp 1 word1].

(** [\bON\s+<p>\.parent_id\s*=\s*<pc>\.parent_id\b]; the aliases are
    word characters, which [re.escape] leaves as they are. *)
Definition re_wrong_on (p pc : text) : regex :=
  seqs [WordB; kw "ON"; ws1; lit true p; kw ".parent_id"; ws0; sym "="; ws0;
        lit true pc; kw ".parent_id"; WordB].

(** [\bIN\s*\(\s*SELECT\b[\s\S]*?\bLIMIT\b]. *)
Definition re_in_select_limit : regex :=
  seqs [WordB; kw "IN"; ws0; sym "("; ws0; kw "SELECT"; WordB;
        Star Lazy any; WordB; kw "LIMIT"; WordB].

(** [\bis_verified\s*=\s*1\b]. *)
Definition re_is_verified : regex :=
  seqs [WordB; kw "is_verified"; ws0; sym "="; ws0; sym "1"; WordB].

(** [^\s*SELECT\s+DISTINCT\b]. *)
Definition re_select_distinct : regex :=
  seqs [Bos; ws0; kw "SELECT"; ws1; kw "DISTINCT"; WordB].

(** [^\s*SELECT\s+DISTINCT\s+([\s\S]+?)\s+FROM\s+]. *)
Definition re_distinct_list : regex :=
  seqs [Bos; ws0; kw "SELECT"; ws1; kw "DISTINCT"; ws1;
        Grp 1 (plus Lazy any); ws1; kw "FROM"; ws1].

(** [\bORDER\s+BY\s+([\s\S]+?)(?:\bLIMIT\b|;|$)]. *)
Definition re_order_by_list : regex :=
  seqs [WordB; kw "ORDER"; ws1; kw "BY"; ws1; Grp 1 (plus Lazy any);
        alts [seqs [WordB; kw "LIMIT"; WordB]; sym ";"; Eos]].

(** [\s+(ASC|DESC)\b]. *)
Definition re_direction_suffix : regex :=
  seqs [ws1; Grp 1 (alts [kw "ASC"; kw "DESC"]); WordB].

(** [\bFROM\s+(?:lead_management\.)?parents\s+(\w+)\b]. *)
Definition re_from_parents_alias : regex :=
  seqs [WordB; kw "FROM"; ws1; opt (kw "lead_management."); kw "parents"; ws1;
        Grp 1 word1; WordB].

(** [\bFROM\s+(?:lead_management\.)?parents\s+\w+]. *)
Definition re_from_parents_end : regex :=
  seqs [WordB; kw "FROM"; ws1; opt (kw "lead_management."); kw "parents"; ws1; word1].

(** [<alias>\.id\s+IN\s*\(\s*(SELECT[\s\S]+?)\s*\)]. *)
Definition re_in_block (alias : text) : regex :=
  seqs [lit true alias; kw ".id"; ws1; kw "IN"; ws0; sym "("; ws0;
        Grp 1 (Seq (kw "SELECT") (plus Lazy any)); ws0; sym ")"].

(** [\bWHERE\s+<alias>\.id\s+IN\s*\(\s*SELECT[\s\S]+?\)\s*]. *)
Definition re_where_in (alias : text) : regex :=
  seqs [WordB; kw "WHERE"; ws1; lit true alias; kw ".id"; ws1; kw "IN"; ws0;
        sym "("; ws0; kw "SELECT"; plus Lazy any; sym ")"; ws0].

(** [\bFROM\b]. *)
Definition re_from : regex := seqs [WordB; kw "FROM"; WordB].

(** [\bLIMIT\s+[\d\s,]+(?:;|$)]. *)
Definition re_limit_tail : regex :=
  seqs [WordB; kw "LIMIT"; ws1; plus Greedy is_limit_arg; alts [sym ";"; Eos]].

(** [\b(ASC|DESC)\b]. *)
Definition re_direction : regex :=
  seqs [WordB; Grp 1 (alts [kw "ASC"; kw "DESC"]); WordB].

(** [\bASC\b|\bDESC\b]. *)
Definition re_direction_word : regex :=
  alts [seqs [WordB; kw "ASC"; WordB]; seqs [WordB; kw "DESC"; WordB]].

(** [\bAS\s+(IDENT)\b] where IDENT is [[A-Za-z_][A-Za-z0-9_]*]. *)
Definition re_as_label : regex :=
  seqs [WordB; kw "AS"; ws1; Grp 1 ident; WordB].

(** [\b(IDENT)\.(IDENT)\b], case-sensitive (the classes of IDENT
    list both cases). *)
Definition re_qualified : regex :=
  seqs [WordB; Grp 1 ident; sym "."; Grp 2 ident; WordB].

(** [\s+AND\s+\w+\.is_verified\s*=\s*1\b]. *)
Definition re_and_verified : regex :=
  seqs [ws1; kw "AND"; ws1; word1; kw ".is_verified"; ws0; sym "="; ws0; sym "1"; WordB].

(** [\bWHERE\s+\w+\.is_verified\s*=\s*1\s+AND\s+]. *)
Definition re_where_verified_and : regex :=
  seqs [WordB; kw "WHERE"; ws1; word1; kw ".is_verified"; ws0; sym "="; ws0; sym "1";
        ws1; kw "AND"; ws1].

(** [\bWHERE\s+\w+\.is_verified\s*=\s*1\b]. *)
Definition re_where_verified : regex :=
  seqs [WordB; kw "WHERE"; ws1; word1; kw ".is_verified"; ws0; sym "="; ws0; sym "1"; WordB].

(** [\b(DROP|DELETE|UPDATE|INSERT|ALTER|CREATE|TRUNCATE|REPLACE|MERGE|GRANT|REVOKE)\b]. *)
Definition dangerous_keywords : list string :=
  ["DROP"; "DELETE"; "UPDATE"; "INSERT"; "ALTER"; "CREATE"; "TRUNCATE";
   "REPLACE"; "MERGE"; "GRANT"; "REVOKE"]%string.

Definition dangerous_pattern : regex :=
  seqs [WordB; Grp 1 (alts (map kw dangerous_keywords)); WordB].

(** The pattern [_find_top_level_clause_index] compiles:
    [r"\b" + re.escape(clause).replace(" ", "\\s+") + r"\b"].
    [re.escape] writes a space as a backslash and a space; the
    replacement turns that space into [\s+], so the compiled pattern
    reads, for each space of the clause, an escaped backslash followed
    by [s+].  Letters, digits and the underscore stand for themselves,
    any other character is escaped and stands for itself. *)
Definition clause_char (c : ascii) : list regex :=
  if eqc c (ch " ")
  then [Chr (is_char true (ch "\")); plus Greedy (is_char true (ch "s"))]
  else [Chr (is_char true c)].

Definition clause_pattern (clause : text) : regex :=
  seqs (WordB :: flat_map clause_char clause ++ [WordB]).


(** *** Static defects ([_static_sql_issues]) *)

Definition list_keywords : list text :=
  map L ["名称"; "名单"; "列表"; "明细"; "详情"; "名字"; "name"; "names"; "名称列表"]%string.

Definition _wants_list (natural_query : text) : bool :=
  let q := lower natural_query in
  existsb (fun k => contains k natural_query || contains k q) list_keywords.

Definition verified_keywords : list text :=
  map L ["已验证"; "验证"; "真实微信号"; "实名"; "已添加微信"]%string.

Definition verified_keywords_lower : list text :=
  map L ["verified"; "real wechat"; "real name"]%string.

Definition wants_verified (natural_query : text) : bool :=
  existsb (fun k => contains k natural_query) verified_keywords ||
  existsb (fun k => contains k (lower natural_query)) verified_keywords_lower.

(** The parenthesis depth after [s], never below zero. *)
Definition depth_step (depth : nat) (c : ascii) : nat :=
  if eqc c (ch "(") then S depth
  else if eqc c (ch ")") then Nat.pred depth
  else depth.

Definition paren_depth (s : text) : nat := fold_left depth_step s 0.

(** The start of the first match of a pattern that lies at parenthesis
    depth zero: the loop over [finditer]. *)
Definition first_top_level (r : regex) (s : text) : option nat :=
  match List.find (fun m => paren_depth (take (m_start m) s) =? 0) (finditer r s) with
  | Some m => Some (m_start m)
  | None => None
  end.

Definition _find_top_level_clause_index (s clause : text) : option nat :=
  first_top_level (clause_pattern clause) s.

(** The items of a comma-separated list, trimmed, the empty ones dropped. *)
Definition comma_items (s : text) : list text :=
  List.filter (fun e => negb (is_empty e)) (map strip (split_on (ch ",") s)).

Definition _strip_dir (e : text) : text := strip (sub re_direction_suffix [] e).

(** The ORDER BY expressions that do not occur in the DISTINCT list. *)
Definition distinct_missing (select_part order_part : text) : list text :=
  List.filter (fun base => negb (found (search (lit true base) select_part)))
         (map _strip_dir (comma_items order_part)).

Definition flag (b : bool) (i : issue) : list issue := if b then [i] else [].

Definition select_list_of (s : text) : text :=
  match search re_select_list s with
  | Some m => group 1 m
  | None => []
  end.

Definition wrong_join_found (s : text) : bool :=
  match search re_from_parents s, search re_join_contacts s with
  | Some mp, Some mc => found (search (re_wrong_on (group 1 mp) (group 1 mc)) s)
  | _, _ => false
  end.

Definition limit_before_orderby (s : text) : bool :=
  match _find_top_level_clause_index s (L "ORDER BY"),
        _find_top_level_clause_index s (L "LIMIT") with
  | Some order_idx, Some limit_idx => limit_idx <? order_idx
  | _, _ => false
  end.

Definition distinct_orderby_mismatch (s : text) : bool :=
  found (search re_select_distinct s) &&
  match search re_distinct_list s, search re_order_by_list s with
  | Some m_sel, Some m_ob =>
      negb (is_empty (distinct_missing (group 1 m_sel) (group 1 m_ob)))
  | _, _ => false
  end.

Definition _static_sql_issues (sql natural_query : text) : list issue :=
  let s := strip sql in
  let sup := upper s in
  let agg := found (search re_aggregate sup) in
  let select_list := select_list_of s in
  let group_by := found (search re_group_by sup) in
  flag (negb (startswith (L "SELECT") sup)) not_select ++
  flag (agg && contains (L ",") select_list && negb group_by)
       aggregate_with_non_aggregate_without_group_by ++
  flag (_wants_list natural_query && agg) list_intent_but_aggregate ++
  flag (wrong_join_found s) wrong_join_parent_contacts ++
  flag (found (search re_in_select_limit s)) in_subquery_with_limit ++
  flag (negb (wants_verified natural_query) && found (search re_is_verified s))
       unwarranted_is_verified_filter ++
  flag (limit_before_orderby s) top_level_limit_before_orderby ++
  flag (distinct_orderby_mismatch s) distinct_orderby_not_in_select.


(** *** Deterministic rewrites *)

(** The join-key fix of [_review_and_fix_sql]: every wrong ON clause
    becomes [ON <p>.id = <pc>.parent_id]. *)
Definition fix_wrong_join (issues : list issue) (sql : text) : text :=
  match search re_from_parents sql, search re_join_contacts sql with
  | Some mp, Some mc =>
      if has_issue wrong_join_parent_contacts issues then
        let p_alias := group 1 mp in
        let pc_alias := group 1 mc in
        sub (re_wrong_on p_alias pc_alias)
            (L "ON " ++ p_alias ++ L ".id = " ++ pc_alias ++ L ".parent_id") sql
      else sql
  | _, _ => sql
  end.

Definition _rewrite_in_with_limit_to_join (sql : text) : text :=
  match search re_from_parents_alias sql with
  | None => sql
  | Some m_alias =>
      let alias := group 1 m_alias in
      if is_empty alias then sql else
      match search (re_in_block alias) sql with
      | None => sql
      | Some m_in =>
          let inner_select := strip (group 1 m_in) in
          let join_clause :=
            L "INNER JOIN (" ++ inner_select ++ L ") AS recent_parent_ids ON " ++
            alias ++ L ".id = recent_parent_ids.parent_id" in
          match search re_from_parents_end sql with
          | None => sql
          | Some m_from_parents =>
              let insert_pos := m_end m_from_parents in
              let s_with_join :=
                take insert_pos sql ++ nl :: L " " ++ join_clause ++ drop insert_pos sql in
              sub (re_where_in alias) (L " ") s_with_join
          end
      end
  end.

Definition _remove_unwarranted_is_verified (sql : text) : text :=
  let s := sub re_and_verified [] sql in
  let s := sub re_where_verified_and (L " WHERE ") s in
  sub re_where_verified (L " ") s.

(** A clause index of [_reorder_top_level_order_limit]: the top-level
    one, else the last place the keyword occurs in the upper-cased
    text. *)
Definition clause_index (s clause : text) : option nat :=
  match _find_top_level_clause_index s clause with
  | Some i => Some i
  | None => rfind clause (upper s)
  end.

Definition _reorder_top_level_order_limit (s : text) : text :=
  match clause_index s (L "ORDER BY"), clause_index s (L "LIMIT") with
  | Some order_idx, Some limit_idx =>
      if limit_idx <? order_idx then
        let '(order_end, suffix) :=
          match rfind (L ";") s with
          | None => (length s, [])
          | Some semi_idx => (semi_idx, drop semi_idx s)
          end in
        let prefix := take limit_idx s in
        let limit_clause := strip (slice limit_idx order_idx s) in
        let order_clause := strip (slice order_idx order_end s) in
        rstrip prefix ++ nl :: order_clause ++ L " " ++ limit_clause ++ suffix
      else s
  | _, _ => s
  end.

(** One ORDER BY item: its expression, direction and generated alias. *)
Definition order_item (idx : nat) (item : text) : text * text * text :=
  let direction :=
    match search re_direction item with
    | Some m_dir => upper (group 1 m_dir)
    | None => L "ASC"
    end in
  let expr := strip (sub re_direction_word [] item) in
  (expr, direction, L "__order_col" ++ decimal idx).

Fixpoint order_items_from (idx : nat) (raw : list text) : list (text * text * text) :=
  match raw with
  | [] => []
  | item :: t => order_item idx item :: order_items_from (S idx) t
  end.

Definition agg_part (it : text * text * text) : text :=
  let '(expr, direction, alias) := it in
  (if text_eqb direction (L "DESC") then L "MAX" else L "MIN") ++
  L "(" ++ expr ++ L ") AS " ++ alias.

Definition order_outer_part (it : text * text * text) : text :=
  let '(_, direction, alias) := it in alias ++ L " " ++ direction.

(** The output label of one item of the DISTINCT list. *)
Definition outer_label (n_labels : nat) (item : text) : text :=
  match search re_as_label item with
  | Some m_as => group 1 m_as
  | None =>
      match search re_qualified item with
      | Some m_col => group 2 m_col
      | None =>
          match rev (findall ident item) with
          | last_ident :: _ => last_ident
          | [] => L "col_" ++ decimal (S n_labels)
          end
      end
  end.

Fixpoint outer_labels_from (acc : list text) (items : list text) : list text :=
  match items with
  | [] => acc
  | item :: t => outer_labels_from (acc ++ [outer_label (length acc) item]) t
  end.

(** [limit_clause.rstrip(';')]. *)
Fixpoint lstrip_semis (s : text) : text :=
  match s with
  | c :: t => if eqc c (ch ";") then lstrip_semis t else s
  | [] => []
  end.

Definition rstrip_semis (s : text) : text := rev (lstrip_semis (rev s)).

Definition _fix_distinct_orderby_not_in_select (sql : text) : text :=
  let s := strip sql in
  if negb (found (search re_select_distinct s)) then sql else
  match search re_distinct_list s with
  | None => sql
  | Some m_sel =>
      let select_part := strip (group 1 m_sel) in
      match search re_order_by_list s with
      | None => sql
      | Some m_order =>
          match search re_from s with
          | None => sql
          | Some m_from =>
              let body_until_order := rstrip (slice (m_start m_from) (m_start m_order) s) in
              let order_part := strip (group 1 m_order) in
              let limit_clause :=
                match search re_limit_tail s with
                | Some m_limit => strip (matched m_limit)
                | None => []
                end in
              let order_items := order_items_from 1 (comma_items order_part) in
              let inner_select :=
                L "SELECT " ++ select_part ++ L ", " ++
                join (L ", ") (map agg_part order_items) ++
                nl :: body_until_order ++ nl :: L " GROUP BY " ++ select_part in
              let outer_labels := outer_labels_from [] (comma_items select_part) in
              let outer_select :=
                L "SELECT " ++ join (L ", ") outer_labels ++ L " FROM (" ++
                nl :: inner_select ++ nl :: L ") AS __t" ++ nl :: L " ORDER BY " ++
                join (L ", ") (map order_outer_part order_items) in
              let outer_select :=
                if is_empty limit_clause then outer_select
                else outer_select ++ L " " ++ rstrip_semis limit_clause in
              if endswith (L ";") s then outer_select ++ L ";" else outer_select
          end
      end
  end.


(** *** Exceptions *)

Inductive result (A : Type) : Type :=
| Ok (a : A)
| Raise (err_text : text).
Arguments Ok {A} a.
Arguments Raise {A} err_text.

#[global] Instance result_bind : MBind result :=
  fun A B f r =>
    match r with
    | Ok a => f a
    | Raise e => Raise e
    end.

(** [try: body  except Exception as e: handler(e)]. *)
Definition try_except {A : Type} (body : result A) (handler : text -> A) : A :=
  match body with
  | Ok a => a
  | Raise e => handler e
  end.

(** *** Secondary review ([_llm_review_sql_openai]) *)

(** What the POST to the completion service comes to: a failure before
    the reply is read (transport, time-out, malformed body), or a
    status code with the text at [choices[0].message.content]. *)
Inductive http_outcome :=
| http_failure (err_text : text)
| http_reply (status_code : nat) (content : text).

Definition completion_service := text -> text -> list issue -> http_outcome.

Definition fence_sql : text := L "```sql".
Definition fence : text := L "```".

Definition strip_fences (content : text) : text :=
  let fixed_sql := strip content in
  let fixed_sql := if startswith fence_sql fixed_sql then drop 6 fixed_sql else fixed_sql in
  let fixed_sql := if startswith fence fixed_sql then drop 3 fixed_sql else fixed_sql in
  let fixed_sql :=
    if endswith fence fixed_sql then take (length fixed_sql - 3) fixed_sql else fixed_sql in
  strip fixed_sql.

Definition _llm_review_sql_openai (llm : completion_service)
           (natural_query sql : text) (issues : list issue) : result text :=
  match llm natural_query sql issues with
  | http_failure e => Raise e
  | http_reply status_code content =>
      if negb (status_code =? 200) then Raise (L "LLM接口错误")
      else if is_empty content then Raise (L "LLM无返回内容")
      else Ok (strip_fences content)
  end.

(** The rule-based part of [_review_and_fix_sql]: the five fixes in
    the order the code applies them, each under its own [try]. *)
Definition deterministic_fix (issues : list issue) (sql : text) : text :=
  let fixed_sql := sql in
  let fixed_sql :=
    try_except (Ok (fix_wrong_join issues fixed_sql)) (fun _ => fixed_sql) in
  let fixed_sql :=
    try_except
      (Ok (if has_issue in_subquery_with_limit issues
           then _rewrite_in_with_limit_to_join fixed_sql else fixed_sql))
      (fun _ => fixed_sql) in
  let fixed_sql :=
    try_except
      (Ok (if has_issue unwarranted_is_verified_filter issues
           then _remove_unwarranted_is_verified fixed_sql else fixed_sql))
      (fun _ => fixed_sql) in
  let fixed_sql :=
    try_except (Ok (_reorder_top_level_order_limit fixed_sql)) (fun _ => fixed_sql) in
  try_except
    (Ok (if has_issue distinct_orderby_not_in_select issues
         then _fix_distinct_orderby_not_in_select fixed_sql else fixed_sql))
    (fun _ => fixed_sql).

Definition _review_and_fix_sql (llm : completion_service)
           (natural_query sql : text) : result text :=
  let issues := _static_sql_issues sql natural_query in
  if is_empty issues then Ok sql
  else
    let fixed_sql := deterministic_fix issues sql in
    Ok (try_except
          (fixed ← _llm_review_sql_openai llm natural_query fixed_sql issues;
           Ok (if is_empty fixed then fixed_sql else fixed))
          (fun _ => fixed_sql)).

Definition evaluate_and_fix_sql (llm : completion_service)
           (natural_query sql : text) : result text :=
  _review_and_fix_sql llm natural_query sql.

(** The rewriter on its own: what [_review_and_fix_sql] hands to the
    reviewer. *)
Definition rewrite (natural_query sql : text) : text :=
  let issues := _static_sql_issues sql natural_query in
  if is_empty issues then sql else deterministic_fix issues sql.

(** *** Guarded execution ([execute_sql]) *)

Section Execute.
(** Date and time values, and their [isoformat]. *)
Context {temporal : Type} (isoformat : temporal -> text).

Inductive value :=
| v_none
| v_int (z : Z)
| v_text (s : text)
| v_temporal (t : temporal).

(** [hasattr(value, 'isoformat')]. *)
Definition has_isoformat (v : value) : bool :=
  match v with v_temporal _ => true | _ => false end.

Definition convert (v : value) : value :=
  match v with
  | v_temporal t => v_text (isoformat t)
  | _ => v
  end.

(** What [db.execute] returns on success: [keys()] and [fetchall()]. *)
Record result_set := { rs_keys : list text; rs_rows : list (list value) }.

Inductive db_outcome :=
| db_error (err_text : text)
| db_rows (r : result_set).

(** The database: its answer to the [n]-th statement it is sent. *)
Definition database := nat -> text -> db_outcome.

(** A Python [dict] with text keys, in insertion order. *)
Definition dict := list (text * value).

Fixpoint dict_set (k : text) (v : value) (d : dict) : dict :=
  match d with
  | [] => [(k, v)]
  | (k', v') :: t =>
      if text_eqb k k' then (k', v) :: t else (k', v') :: dict_set k v t
  end.

Definition dict_keys (d : dict) : list text := map fst d.

(** [d.get(k)]. *)
Fixpoint dict_get (k : text) (d : dict) : option value :=
  match d with
  | [] => None
  | (k', v') :: t => if text_eqb k k' then Some v' else dict_get k t
  end.

Definition index_error : text := L "tuple index out of range".

(** The inner loop over [enumerate(columns)]. *)
Fixpoint row_to_dict (i : nat) (columns : list text) (row : list value)
         (row_dict : dict) : result dict :=
  match columns with
  | [] => Ok row_dict
  | column :: rest =>
      match nth_error row i with
      | None => Raise index_error
      | Some value => row_to_dict (S i) rest row (dict_set column (convert value) row_dict)
      end
  end.

Fixpoint rows_to_dicts (columns : list text) (rows : list (list value))
  : result (list dict) :=
  match rows with
  | [] => Ok []
  | row :: rest =>
      row_dict ← row_to_dict 0 columns row [];
      data ← rows_to_dicts columns rest;
      Ok (row_dict :: data)
  end.

(** The payloads of [MessageFormatter]. *)
Inductive payload :=
| query_result (success : bool) (query : text) (total : nat)
               (data : list dict) (timestamp : text)
| error_response (success : bool) (error : text) (timestamp : text).

Definition payload_success (p : payload) : bool :=
  match p with
  | query_result b _ _ _ _ => b
  | error_response b _ _ => b
  end.

Context (now : text).

Definition format_query_result (data : list dict) (total : nat) (query : text)
  : payload :=
  query_result true query total data now.

Definition format_error_response (error : text) : payload :=
  error_response false error now.

(** The statements sent to the database so far, oldest first. *)
Definition trace := list text.

(** [db.execute(text(stmt))], the materialisation of the rows and
    the success payload. *)
Definition run_query (db : database) (tr : trace) (stmt : text)
  : trace * result payload :=
  (tr ++ [stmt],
   match db (length tr) stmt with
   | db_error e => Raise e
   | db_rows r =>
       data ← rows_to_dicts (rs_keys r) (rs_rows r);
       Ok (format_query_result data (length data) stmt)
   end).

Definition only_select : text := L "只允许执行SELECT查询".
Definition dangerous_prefix : text := L "SQL查询包含危险关键词: ".

(** The safety check at the head of [execute_sql]. *)
Definition preflight (sql : text) : result unit :=
  let sql_upper := strip (upper sql) in
  if negb (startswith (L "SELECT") sql_upper) then Raise only_select
  else
    match search dangerous_pattern sql with
    | Some m => Raise (dangerous_prefix ++ upper (group 1 m))
    | None => Ok tt
    end.

Definition sig_limit_in : text := L "LIMIT & IN/ALL/ANY/SOME subquery".
Definition sig_distinct : text := L "incompatible with DISTINCT".
Definition sig_not_in_list : text := L "not in SELECT list".
Definition generic_failure : text := L "查询执行遇到问题，请稍后重试或简化查询。".

Definition matches_limit_in (err_text : text) : bool :=
  contains sig_limit_in err_text.

Definition matches_distinct (sql err_text : text) : bool :=
  contains sig_distinct err_text ||
  (contains sig_not_in_list err_text && contains (L "DISTINCT") (upper sql)).

(** [rewritten and rewritten != sql]. *)
Definition changed (sql rewritten : text) : bool :=
  negb (is_empty rewritten) && negb (text_eqb rewritten sql).

(** One guarded retry: when the rewrite changed the query, execute it;
    a failure is logged and swallowed. *)
Definition retry (db : database) (tr : trace) (sql rewritten : text)
  : trace * option payload :=
  if changed sql rewritten then
    let '(tr', r) := run_query db tr rewritten in
    (tr', try_except (p ← r; Ok (Some p)) (fun _ => None))
  else (tr, None).

(** The [except] branch of [execute_sql]. *)
Definition recover (db : database) (sql err_text : text) (tr : trace)
  : trace * payload :=
  let '(tr1, r1) :=
    if matches_limit_in err_text
    then retry db tr sql (_rewrite_in_with_limit_to_join sql)
    else (tr, None) in
  match r1 with
  | Some p => (tr1, p)
  | None =>
      let '(tr2, r2) :=
        if matches_distinct sql err_text
        then retry db tr1 sql (_fix_distinct_orderby_not_in_select sql)
        else (tr1, None) in
      match r2 with
      | Some p => (tr2, p)
      | None => (tr2, format_error_response generic_failure)
      end
  end.

(** [execute_sql]: the statements sent to the database, and the
    payload returned. *)
Definition execute_sql (db : database) (sql : text) : trace * payload :=
  match preflight sql with
  | Raise e => recover db sql e []
  | Ok _ =>
      match run_query db [] sql with
      | (tr, Ok p) => (tr, p)
      | (tr, Raise e) => recover db sql e tr
      end
  end.

End Execute.

End SQLAgent.

Import SQLAgent.

(** ** Conversation memory ([agents/langgraph_agent.py]) *)

Module LangGraphAgent.

(** One round of the conversation: [{"user": ..., "assistant": ...}]. *)
Record turn := Turn { user : text; assistant : text }.

(** [l[k:]] for a Python integer [k]: a negative [k] counts from the
    end, and both ends are clamped to the list. *)
Definition slice_from {A : Type} (k : Z) (l : list A) : list A :=
  if (k <? 0)%Z then drop (Z.to_nat (Z.of_nat (length l) + k)) l
  else drop (Z.to_nat k) l.

(** [config.AGENT_MEMORY_MAX_TURNS]: the integer read from the
    environment, 6 when the variable is not set. *)
Definition AGENT_MEMORY_MAX_TURNS (env : option Z) : Z := default 6%Z env.

(** The agent's [_memory] and [_memory_max_turns]. *)
Record agent := Agent {
  _memory : gmap string (list turn);
  _memory_max_turns : Z
}.

Definition new_agent (env : option Z) : agent :=
  Agent ∅ (AGENT_MEMORY_MAX_TURNS env).

(** [self._memory.get(sender, [])]. *)
Definition turns_of (a : agent) (sender : string) : list turn :=
  default [] (_memory a !! sender).

(** [_append_memory].  The list fetched from the dictionary is
    extended in place and then stored back under the same key, whole
    or as a fresh slice, so the dictionary ends as written here. *)
Definition _append_memory (a : agent) (sender : string) (u v : text) : agent :=
  if decide (sender = EmptyString) then a
  else
    let turns := turns_of a sender ++ [Turn u v] in
    let turns :=
      if (_memory_max_turns a <? Z.of_nat (length turns))%Z
      then slice_from (- _memory_max_turns a) turns
      else turns in
    Agent (<[sender := turns]> (_memory a)) (_memory_max_turns a).

(** A run of the agent: the rounds it is asked to remember, in order. *)
Definition append_all (a : agent) (rounds : list (string * turn)) : agent :=
  fold_left (fun a r => _append_memory a (fst r) (user (snd r)) (assistant (snd r)))
            rounds a.

(** The rounds of one sender among those of a run. *)
Definition rounds_of (sender : string) (rounds : list (string * turn)) : list turn :=
  map snd (List.filter (fun r => bool_decide (fst r = sender)) rounds).

(** The last [n] elements of a list. *)
Definition last_n {A : Type} (n : nat) (l : list A) : list A :=
  drop (length l - n) l.

End LangGraphAgent.

Import LangGraphAgent.

(** ** The language of a pattern

    [matches r c c'] holds when the pattern [r] can take the subject
    from the cursor [c] to the cursor [c'], whatever the order in which
    the matcher tries the alternatives. *)

Module Lang.

Inductive matches : regex -> cursor -> cursor -> Prop :=
| m_eps c : matches Eps c c
| m_chr p l x t :
    p x = true -> matches (Chr p) (Cur l (x :: t)) (Cur (x :: l) t)
| m_seq a b c1 c2 c3 :
    matches a c1 c2 -> matches b c2 c3 -> matches (Seq a b) c1 c3
| m_alt_l a b c c' : matches a c c' -> matches (Alt a b) c c'
| m_alt_r a b c c' : matches b c c' -> matches (Alt a b) c c'
| m_star_stop g p c : matches (Star g p) c c
| m_star_more g p l x t c' :
    p x = true -> matches (Star g p) (Cur (x :: l) t) c' ->
    matches (Star g p) (Cur l (x :: t)) c'
| m_wordb c : at_boundary c = true -> matches WordB c c
| m_bos c : at_bos c = true -> matches Bos c c
| m_eos c : at_end c = true -> matches Eos c c
| m_grp n a c c' : matches a c c' -> matches (Grp n a) c c'.

(** The same with the groups: [captured r c cs c' cs'] holds when [r]
    can take the subject from [c] to [c'] and the groups from [cs] to
    [cs'], each group that takes part recording where it starts and
    ends. *)
Inductive captured : regex -> cursor -> captures -> cursor -> captures -> Prop :=
| c_eps c cs : captured Eps c cs c cs
| c_chr p l x t cs :
    p x = true -> captured (Chr p) (Cur l (x :: t)) cs (Cur (x :: l) t) cs
| c_seq a b c1 cs1 c2 cs2 c3 cs3 :
    captured a c1 cs1 c2 cs2 -> captured b c2 cs2 c3 cs3 ->
    captured (Seq a b) c1 cs1 c3 cs3
| c_alt_l a b c cs c' cs' : captured a c cs c' cs' -> captured (Alt a b) c cs c' cs'
| c_alt_r a b c cs c' cs' : captured b c cs c' cs' -> captured (Alt a b) c cs c' cs'
| c_star g p c cs c' : matches (Star g p) c c' -> captured (Star g p) c cs c' cs
| c_wordb c cs : at_boundary c = true -> captured WordB c cs c cs
| c_bos c cs : at_bos c = true -> captured Bos c cs c cs
| c_eos c cs : at_end c = true -> captured Eos c cs c cs
| c_grp n a c cs c' cs' :
    captured a c cs c' cs' ->
    captured (Grp n a) c cs c' ((n, (pos c, pos c')) :: cs').

(** The cursor reached by reading [w] from [c]. *)
Definition advance (w : text) (c : cursor) : cursor :=
  Cur (rev w ++ before c) (drop (length w) (after c)).

(** The cursor [c] seen in a subject with [lx] (latest character first)
    before it and [rx] after it. *)
Definition widen (lx rx : text) (c : cursor) : cursor :=
  Cur (before c ++ lx) (after c ++ rx).

(** The pattern occurs in [s] at offset [length pre], over the text [w]. *)
Definition occurs_at (r : regex) (pre w post : text) : Prop :=
  matches r (Cur (rev pre) (w ++ post)) (Cur (rev w ++ rev pre) post).

(** The pattern occurs somewhere in [s]. *)
Definition occurs (r : regex) (s : text) : Prop :=
  exists pre w post, s = pre ++ w ++ post /\ occurs_at r pre w post.

End Lang.

Import Lang.

(** ** Vocabulary of the specification *)

Module Spec.

(** Two texts that differ in letter case only. *)
Definition same_ci (a b : text) : Prop := upper a = upper b.

(** No word character stands right before, or right after. *)
Definition ends_clear (pre : text) : Prop :=
  match rev pre with c :: _ => is_word c = false | [] => True end.

Definition starts_clear (post : text) : Prop :=
  match post with c :: _ => is_word c = false | [] => True end.

(** [k] starts and ends with a word character. *)
Definition word_edges (k : text) : Prop :=
  match k with a :: _ => is_word a | [] => false end = true /\
  match rev k with z :: _ => is_word z | [] => false end = true.

(** [k] stands in [s] as a whole word, in any letter case. *)
Definition whole_word_in (k s : text) : Prop :=
  exists pre w post,
    s = pre ++ w ++ post /\ same_ci w k /\ ends_clear pre /\ starts_clear post.

(** [s] begins, after its leading white space and in any letter case,
    with [k]. *)
Definition begins_with_ci (k s : text) : Prop :=
  exists w rest, lstrip s = w ++ rest /\ same_ci w k.

(** [s] is white space only. *)
Definition blank (s : text) : Prop := forallb is_space s = true.

(** [s] begins, after its leading white space and in any letter case,
    with SELECT, white space and the whole word DISTINCT. *)
Definition begins_select_distinct (s : text) : Prop :=
  exists w1 ws w2 rest,
    lstrip s = w1 ++ ws ++ w2 ++ rest /\
    same_ci w1 (L "SELECT") /\ ws <> [] /\ blank ws /\
    same_ci w2 (L "DISTINCT") /\ starts_clear rest.

(** The keyword pair ORDER BY: the two whole words, in any letter case,
    with white space between them. *)
Definition order_by_keyword : regex :=
  seqs [WordB; kw "ORDER"; ws1; kw "BY"; WordB].

Definition has_order_by (s : text) : Prop := occurs order_by_keyword s.

(** The characters of a keyword, one pattern each. *)
Definition chars (w : string) : list regex := map (fun a => Chr (is_char true a)) (L w).

(** The whole word LIMIT, in any letter case. *)
Definition limit_keyword : regex := seqs [WordB; kw "LIMIT"; WordB].

(** Modelled on the words of the specification (4.2, limit-before-orderby):
    the top-level position of the row-limiting clause precedes the
    top-level position of the ordering clause, a top-level position
    being that of a clause keyword at parenthesis depth zero. *)
Definition limit_precedes_order (s : text) : bool :=
  match first_top_level order_by_keyword s, first_top_level limit_keyword s with
  | Some order_idx, Some limit_idx => limit_idx <? order_idx
  | _, _ => false
  end.

(** A pattern without [^] and [$]. *)
Fixpoint anchor_free (r : regex) : bool :=
  match r with
  | Bos | Eos => false
  | Seq a b | Alt a b => anchor_free a && anchor_free b
  | Grp _ a => anchor_free a
  | _ => true
  end.

(** Modelled on the words of the claim about aggregate-without-groupby:
    an expression of the projection list is an aggregate expression
    when an aggregate call occurs in it; the defect is an aggregate
    expression in the projection list, beside at least one other
    comma-separated expression that is not an aggregate expression, and
    no GROUP BY clause. *)
Definition is_aggregate_expr (e : text) : bool :=
  found (search re_aggregate (upper e)).

Definition projection_items (sql : text) : list text :=
  split_on (ch ",") (select_list_of (strip sql)).

Definition aggregate_beside_plain (sql : text) : bool :=
  existsb is_aggregate_expr (projection_items sql) &&
  existsb (fun e => negb (is_aggregate_expr e)) (projection_items sql) &&
  negb (found (search re_group_by (upper (strip sql)))).

(** [lst] stands in [s] between a leading SELECT and a FROM, each
    set off by white space. *)
Definition between_select_and_from (lst s : text) : Prop :=
  exists w0 x1 ws ws' x2 sp rest,
    s = w0 ++ x1 ++ ws ++ lst ++ ws' ++ x2 ++ sp :: rest /\
    blank w0 /\ same_ci x1 (L "SELECT") /\ ws <> [] /\ blank ws /\
    ws' <> [] /\ blank ws' /\ same_ci x2 (L "FROM") /\ is_space sp = true.

(** Modelled on the words of the specification (idempotence of
    rewriting): the defects the rewriter targets, and whether a list of
    detected defects holds one of them. *)
Definition targeted : list issue :=
  [wrong_join_parent_contacts; in_subquery_with_limit; unwarranted_is_verified_filter;
   top_level_limit_before_orderby; distinct_orderby_not_in_select].

Definition flags_targeted (issues : list issue) : bool :=
  existsb (fun t => has_issue t issues) targeted.

(** The names of a list in the order of their first occurrence. *)
Definition add_name (seen : list text) (k : text) : list text :=
  if existsb (text_eqb k) seen then seen else seen ++ [k].

Definition first_occurrences (names : list text) : list text :=
  fold_left add_name names [].

(** [p] is the success payload built from the answer of the database to
    the statement [query p]: the flag is set, the count is the length of
    the data, and every row of the data carries the column names of the
    answer in the order of their first occurrence, no date or time
    value, and under each name the converted value of the last column
    of that name. *)
Definition row_agrees {T : Type} (isoformat : T -> text)
           (columns : list text) (row : list (@value T))
           (d : @dict T) : Prop :=
  dict_keys d = first_occurrences columns /\
  (forall k v, In (k, v) d -> has_isoformat v = false) /\
  forall i k, nth_error columns i = Some k -> ~ In k (drop (S i) columns) ->
              dict_get k d = option_map (convert isoformat) (nth_error row i).

Definition success_of {T : Type} (isoformat : T -> text)
           (db : @database T) (tr : list text)
           (p : @payload T) : Prop :=
  exists query data timestamp n rs,
    p = query_result true query (length data) data timestamp /\
    nth_error tr n = Some query /\ db n query = db_rows rs /\
    Forall2 (row_agrees isoformat (rs_keys rs)) (rs_rows rs) data.

End Spec.

Import Spec.

(** ** Example queries and databases *)

Module Examples.

Definition iso0 : unit -> text := fun _ => L "2025-11-01T09:30:00".
Definition now0 : text := L "2025-11-04T12:00:00+08:00".

(** The query of the IN+LIMIT example of the specification. *)
Definition q_in_limit : text :=
  L "SELECT * FROM parents p WHERE p.id IN (SELECT parent_id FROM x ORDER BY y LIMIT 5)".

(** What the IN+LIMIT rewrite makes of it. *)
Definition q_in_limit_rewritten : text :=
  L "SELECT * FROM parents p" ++ nl ::
  L " INNER JOIN (SELECT parent_id FROM x ORDER BY y LIMIT 5) AS recent_parent_ids ON p.id = recent_parent_ids.parent_id  ".

(** A DISTINCT query with an IN+LIMIT subquery, ordered by a column
    outside its list, that mentions the text of MySQL's error 3065. *)
Definition q_both : text :=
  L "SELECT DISTINCT p.parent_code FROM parents p WHERE p.id IN (SELECT parent_id FROM x LIMIT 5) AND p.note <> 'not in SELECT list' ORDER BY p.created_at DESC".

(** MySQL's error 1235 as the driver words it, followed by the
    statement, which SQLAlchemy quotes in the text of its errors. *)
Definition err_1235 (stmt : text) : text :=
  L "(1235, This version of MySQL doesn't yet support 'LIMIT & IN/ALL/ANY/SOME subquery') [SQL: "
    ++ stmt ++ L "]".

(** A LIMIT inside a subquery, before the ORDER BY of the outer query. *)
Definition q_nested_limit : text :=
  L "SELECT * FROM t WHERE id IN (SELECT id FROM u LIMIT 5) ORDER BY a".

(** The example of the specification: LIMIT before ORDER BY. *)
Definition q_limit_order : text :=
  L "SELECT * FROM t LIMIT 10 ORDER BY created_at DESC".

(** Two spaces between ORDER and BY. *)
Definition q_limit_order_wide : text :=
  L "SELECT * FROM t LIMIT 10 ORDER  BY created_at DESC".

(** A projection of two aggregates, and an aggregate in a subquery of
    the filter only. *)
Definition q_two_aggregates : text := L "SELECT COUNT(*), SUM(x) FROM t".

Definition q_aggregate_in_filter : text :=
  L "SELECT a, b FROM t WHERE x > (SELECT MAX(y) FROM u)".

(** An IN subquery with LIMIT on a table other than [parents], and the
    same on [parents] behind another predicate of the filter. *)
Definition q_in_limit_orders : text :=
  L "SELECT * FROM orders o WHERE o.id IN (SELECT order_id FROM x LIMIT 5)".

Definition q_in_limit_second : text :=
  L "SELECT * FROM parents p WHERE p.status = 1 AND p.id IN (SELECT parent_id FROM x LIMIT 5)".

(** The verification filter on a column without alias. *)
Definition q_verified_bare : text :=
  L "SELECT * FROM parent_contacts WHERE is_verified = 1".

(** One query for each of the join-key, verification-filter and
    DISTINCT/ORDER BY defects, and what the rewriter makes of it. *)
Definition q_wrong_join : text :=
  L "SELECT p.id FROM parents p JOIN parent_contacts pc ON p.parent_id = pc.parent_id".

Definition q_wrong_join_rewritten : text :=
  L "SELECT p.id FROM parents p JOIN parent_contacts pc ON p.id = pc.parent_id".

Definition q_verified : text :=
  L "SELECT pc.contact_value FROM parent_contacts pc WHERE pc.is_primary = 1 AND pc.is_verified = 1".

Definition q_verified_rewritten : text :=
  L "SELECT pc.contact_value FROM parent_contacts pc WHERE pc.is_primary = 1".

Definition q_distinct_order : text :=
  L "SELECT DISTINCT p.parent_code FROM parents p ORDER BY p.created_at DESC LIMIT 10".

Definition q_distinct_order_rewritten : text :=
  L "SELECT parent_code FROM (" ++ nl ::
  L "SELECT p.parent_code, MAX(p.created_at) AS __order_col1" ++ nl ::
  L "FROM parents p" ++ nl ::
  L " GROUP BY p.parent_code" ++ nl ::
  L ") AS __t" ++ nl ::
  L " ORDER BY __order_col1 DESC LIMIT 10".

(** A database that refuses every statement with error 1235. *)
Definition refusing_db : @database unit := fun _ stmt => db_error (err_1235 stmt).

(** A database that answers every statement with one row of two columns. *)
Definition one_row : @result_set unit :=
  {| rs_keys := [L "id"; L "created_at"];
     rs_rows := [[v_int 7%Z; v_temporal tt]] |}.

Definition answering_db : @database unit := fun _ _ => db_rows one_row.

(** A database that refuses the first statement and answers the next. *)
Definition db_second_try : @database unit :=
  fun n stmt => if n =? 0 then db_error (err_1235 stmt) else db_rows one_row.

End Examples.

Import Examples.

(** ** Text helpers ([utils/helpers.py]) *)

Module Helpers.

(** *** TextProcessor *)

(** [clean_text]: the text trimmed, every run of white space turned
    into one space. *)
Definition clean_text (t : text) : text :=
  if is_empty t then []
  else sub ws1 (L " ") (strip t).

(** [[^\s@]]. *)
Definition is_mention_char (c : ascii) : bool :=
  negb (is_space c || eqc c (ch "@")).

(** [@([^\s@]+)] and [@[^\s@]+]. *)
Definition re_mention_name : regex :=
  Seq (sym "@") (Grp 1 (plus Greedy is_mention_char)).

Definition re_mention : regex := Seq (sym "@") (plus Greedy is_mention_char).

(** [re.findall] for a pattern with one group: the texts of the group. *)
Definition findall_group (r : regex) (s : text) : list text :=
  map (group 1) (finditer r s).

Definition extract_mentions (t : text) : list text :=
  findall_group re_mention_name t.

Definition remove_mentions (t : text) : text := strip (sub re_mention [] t).

(** *** ContactDeduplicator *)

(** [[^\d+]]. *)
Definition is_not_phone_char (c : ascii) : bool :=
  negb (is_digit c || eqc c (ch "+")).

Definition phone_types : list text := [L "手机号"; L "香港WS手机号"].

Definition normalize_contact (contact_type contact_value : text) : text :=
  if text_eqb contact_type (L "微信号") then strip (lower contact_value)
  else if existsb (text_eqb contact_type) phone_types
       then sub (Chr is_not_phone_char) [] contact_value
       else strip contact_value.

(** A contact: a dictionary from field names to texts. *)
Definition contact := gmap string text.

(** [d[k]], a [KeyError] when the key is missing. *)
Definition getitem (d : contact) (k : string) : result text :=
  match d !! k with
  | Some v => Ok v
  | None => Raise (L "'" ++ L k ++ L "'")
  end.

Definition is_duplicate_contact (contact1 contact2 : contact) : result bool :=
  t1 ← getitem contact1 "type";
  t2 ← getitem contact2 "type";
  if negb (text_eqb t1 t2) then Ok false
  else
    t1 ← getitem contact1 "type";
    v1 ← getitem contact1 "value";
    t2 ← getitem contact2 "type";
    v2 ← getitem contact2 "value";
    Ok (text_eqb (normalize_contact t1 v1) (normalize_contact t2 v2)).

End Helpers.

Import Helpers.

(** ** Closed forms of substitutions over a character class *)

Module Shape.

(** What [re.sub] makes of a text for a pattern of one or more
    characters of a class: each maximal run of the class becomes
    [repl]; [inrun] tells that the character before was of the class. *)
Fixpoint squeeze (p : ascii -> bool) (repl : text) (inrun : bool) (s : text) : text :=
  match s with
  | [] => []
  | x :: t =>
      if p x then (if inrun then [] else repl) ++ squeeze p repl true t
      else x :: squeeze p repl false t
  end.

(** The characters of the class at the head of a text, and the rest. *)
Fixpoint run_of (p : ascii -> bool) (s : text) : text :=
  match s with
  | x :: t => if p x then x :: run_of p t else []
  | [] => []
  end.

Fixpoint skip (p : ascii -> bool) (s : text) : text :=
  match s with
  | x :: t => if p x then skip p t else s
  | [] => []
  end.

(** No two white-space characters side by side. *)
Fixpoint single_spaced (s : text) : bool :=
  match s with
  | x :: t =>
      negb (is_space x && match t with y :: _ => is_space y | [] => false end) &&
      single_spaced t
  | [] => true
  end.

Definition starts_solid (s : text) : bool :=
  match s with x :: _ => negb (is_space x) | [] => true end.

End Shape.

Import Shape.

(** ** Validation ([utils/validators.py]) *)

Module Validators.

(** [r{n}], and the greedy [r{0,n}]. *)
Fixpoint times (n : nat) (r : regex) : regex :=
  match n with
  | 0 => Eps
  | S k => Seq r (times k r)
  end.

Fixpoint upto (n : nat) (r : regex) : regex :=
  match n with
  | 0 => Eps
  | S k => Alt (Seq r (upto k r)) Eps
  end.

(** [re.match]: a match that starts the text. *)
Definition re_match (r : regex) (s : text) : option rmatch := match_at r (at_start s).

(** [str.isdigit]. *)
Definition isdigit (s : text) : bool := negb (is_empty s) && forallb is_digit s.

(** [d.get(k)] for a dictionary literal, as a list of its items. *)
Fixpoint assoc {V : Type} (k : text) (d : list (text * V)) : option V :=
  match d with
  | [] => None
  | (k', v) :: rest => if text_eqb k k' then Some v else assoc k rest
  end.

(** *** MessageValidator *)

Definition VALID_FEEDBACK_TYPES : list text :=
  [L "当日"; L "3天内"; L "7天内"; L "7天后"; L "其他"].

(** [[a-zA-Z0-9_-]]. *)
Definition is_wechat_char (c : ascii) : bool :=
  is_alpha c || is_digit c || eqc c (ch "_") || eqc c (ch "-").

(** [^[a-zA-Z0-9_-]{5,20}$]. *)
Definition re_wechat_id : regex :=
  seqs [Bos; Seq (times 5 (Chr is_wechat_char)) (upto 15 (Chr is_wechat_char)); Eos].

Definition validate_wechat_id (wechat_id : text) : bool :=
  if is_empty wechat_id then false
  else if isdigit wechat_id then false
  else found (re_match re_wechat_id wechat_id).

(** [[3-9]]. *)
Definition is_3_to_9 (c : ascii) : bool :=
  let n := code c in (51 <=? n) && (n <=? 57).

(** [^1[3-9]\d{9}$]. *)
Definition re_phone_number : regex :=
  seqs [Bos; seqs [sym "1"; Chr is_3_to_9; times 9 (Chr is_digit)]; Eos].

Definition validate_phone_number (phone : text) : bool :=
  if is_empty phone then false
  else found (re_match re_phone_number phone).

(** [^\+852\d{8}$] and [^\d{8}$]. *)
Definition re_hk_prefixed : regex :=
  seqs [Bos; Seq (kw_cs "+852") (times 8 (Chr is_digit)); Eos].

Definition re_hk_plain : regex := seqs [Bos; times 8 (Chr is_digit); Eos].

Definition validate_hk_phone (phone : text) : bool :=
  if is_empty phone then false
  else if startswith (L "+852") phone then found (re_match re_hk_prefixed phone)
  else found (re_match re_hk_plain phone).

Definition validate_contact_value (contact_type contact_value : text) : bool * text :=
  if is_empty contact_value then (false, L "联系方式不能为空")
  else if text_eqb contact_type (L "微信号") then
    if negb (validate_wechat_id contact_value)
    then (false, L "微信号格式不正确，应为5-20位字母数字下划线短横线组合，不能是纯数字")
    else (true, [])
  else if text_eqb contact_type (L "手机号") then
    if negb (validate_phone_number contact_value)
    then (false, L "手机号格式不正确，应为11位数字，以1开头")
    else (true, [])
  else if text_eqb contact_type (L "香港WS手机号") then
    if negb (validate_hk_phone contact_value)
    then (false, L "香港手机号格式不正确，应为+852开头或8位纯数字")
    else (true, [])
  else if existsb (text_eqb contact_type) [L "微信二维码"; L "微信二维码昵称"] then (true, [])
  else (false, L "不支持的联系方式类型: " ++ contact_type).

Definition normalize_contact_type (contact_type : text) : text :=
  let ct := strip contact_type in
  if existsb (text_eqb ct) [L "微信二维码"; L "微信二维码昵称"] then L "微信二维码昵称"
  else ct.

Definition feedback_mapping : list (text * text) :=
  [(L "当天", L "当日"); (L "当日内", L "当日"); (L "今日", L "当日"); (L "今天", L "当日");
   (L "三天内", L "3天内"); (L "三日内", L "3天内");
   (L "7日内", L "7天内"); (L "七天内", L "7天内"); (L "七日内", L "7天内");
   (L "一周内", L "7天内");
   (L "七天后", L "7天后"); (L "七日后", L "7天后"); (L "一周后", L "7天后")].

Definition normalize_feedback_type (feedback_type : text) : text :=
  let ft := strip feedback_type in
  match assoc ft feedback_mapping with
  | Some v => v
  | None => ft
  end.

Definition parse_yes_no_to_int (value : option text) : option nat :=
  match value with
  | None => None
  | Some value =>
      let v := lower (strip value) in
      if existsb (text_eqb v) [L "是"; L "yes"; L "y"; L "true"; L "1"] then Some 1
      else if existsb (text_eqb v) [L "否"; L "no"; L "n"; L "false"; L "0"] then Some 0
      else None
  end.

(** *** BusinessValidator *)

Definition STATE_TRANSITIONS : list (text * list text) :=
  [(L "待接手", [L "合伙人跟进中"; L "销售跟进中"]);
   (L "待分配", []);
   (L "合伙人跟进中", [L "已流失"; L "销售跟进中"]);
   (L "销售跟进中", [L "已成交"; L "已流失"]);
   (L "已成交", []);
   (L "已流失", [])].

Definition validate_state_transition (current_state target_state : text) : bool * text :=
  match assoc current_state STATE_TRANSITIONS with
  | None => (false, L "未知的当前状态: " ++ current_state)
  | Some valid_targets =>
      if negb (existsb (text_eqb target_state) valid_targets) then
        if is_empty valid_targets
        then (false, L "状态 " ++ current_state ++ L " 不能再进行流转")
        else (false, L "状态 " ++ current_state ++ L " 只能流转到: " ++
                     join (L ", ") valid_targets)
      else (true, [])
  end.

Definition get_next_valid_states (current_state : text) : list text :=
  match assoc current_state STATE_TRANSITIONS with
  | Some valid_targets => valid_targets
  | None => []
  end.

Definition role_permissions : list (text * list text) :=
  [(L "社媒", [L "新家长"]);
   (L "合伙人", [L "补全微信号"; L "合伙人接手"; L "放弃"; L "转销售"]);
   (L "销售", [L "销售接手"; L "反馈"; L "成交"; L "流失"])].

Definition validate_role_permission (role action : text) : bool * text :=
  match assoc role role_permissions with
  | None => (false, L "未知角色: " ++ role)
  | Some actions =>
      if negb (existsb (text_eqb action) actions)
      then (false, L "角色 " ++ role ++ L " 无权执行操作: " ++ action)
      else (true, [])
  end.

End Validators.

Import Validators.

(** ** Runs of the state machine *)

Module Flow.

(** A run of states, each reached from the one before it by a
    transition that [validate_state_transition] accepts. *)
Fixpoint valid_path (path : list text) : bool :=
  match path with
  | a :: rest =>
      match rest with
      | b :: _ => fst (validate_state_transition a b) && valid_path rest
      | [] => true
      end
  | [] => true
  end.

(** How far a state is along the life of a lead. *)
Definition stage (s : text) : nat :=
  if text_eqb s (L "待接手") then 0
  else if text_eqb s (L "合伙人跟进中") then 1
  else if text_eqb s (L "销售跟进中") then 2
  else 3.

End Flow.

Import Flow.

(** ** Template types and help ([parsers/message_parser.py]) *)

Module Parser.

(** [supported_types]. *)
Definition supported_types : list text :=
  [L "新家长"; L "补全微信号"; L "合伙人接手"; L "放弃"; L "转销售"; L "销售接手";
   L "反馈"; L "成交"; L "流失"].

Definition lines (ls : list text) : text := join [nl] ls.

Definition dquote : ascii := ascii_of_nat 34.

Definition _get_all_templates_help : text :=
  lines
    [L "支持的消息模板：";
     [];
     L "1. 【新家长】- 社媒人员录入新家长信息";
     L "2. 【补全微信号】- 合伙人补全家长微信号";
     L "3. 【合伙人接手】- 合伙人接手家长";
     L "4. 【放弃】- 合伙人放弃家长";
     L "5. 【转销售】- 合伙人转给销售";
     L "6. 【销售接手】- 销售接手家长";
     L "7. 【反馈】- 销售反馈跟进情况";
     L "8. 【成交】- 销售录入成交信息";
     L "9. 【流失】- 销售录入流失信息";
     [];
     L "发送 " ++ dquote :: L "模板帮助 [类型]" ++ dquote :: L " 获取具体模板格式";
     L "例如：模板帮助 新家长"].

End Parser.

Import Parser.

(** ** The nodes of the graph ([agents/langgraph_agent.py]) *)

Module Graph.

(** [ParsedMessage]. *)
Record ParsedMessage := {
  message_type : text;
  pm_sender : string;
  content : list (text * text);
  raw_message : text;
  is_valid : bool;
  error_message : option text
}.

Section Nodes.
(** The dictionary a query leaves in [query_result] (the field is
    written with a prime here, the name being taken by the payload). *)
Context {result_dict : Type}.

(** [AgentState]. *)
Record AgentState := {
  messages : list text;
  sender : string;
  parsed_message : option ParsedMessage;
  query_result' : option result_dict;
  response : option text;
  error : option text
}.

(** The truth value of an optional text: [None] and the empty text are
    false. *)
Definition truthy (o : option text) : bool :=
  match o with
  | Some (_ :: _) => true
  | _ => false
  end.

Definition business_types : list text :=
  [L "新家长"; L "补全微信号"; L "合伙人接手"; L "放弃"; L "转销售"; L "销售接手";
   L "反馈"; L "成交"; L "流失"].

Definition _route_message (state : AgentState) : text :=
  if truthy (error state) then L "error"
  else
    match parsed_message state with
    | None => L "error"
    | Some pm =>
        if text_eqb (message_type pm) (L "查询") then L "query"
        else if text_eqb (message_type pm) (L "模板帮助") then L "help"
        else if existsb (text_eqb (message_type pm)) business_types then L "business"
        else L "error"
    end.

(** [【(新家长|补全微信号|合伙人接手|放弃|转销售|销售接手|反馈|成交|流失)】]. *)
Definition re_template_tag : regex :=
  seqs [kw_cs "【";
        Grp 1 (alts (map (lit false)
                 [L "新家长"; L "补全微信号"; L "合伙人接手"; L "放弃"; L "转销售";
                  L "销售接手"; L "反馈"; L "成交"; L "流失"]));
        kw_cs "】"].

Definition with_response (state : AgentState) (r : text) : AgentState :=
  {| messages := messages state; sender := sender state;
     parsed_message := parsed_message state; query_result' := query_result' state;
     response := Some r; error := error state |}.

Definition with_messages (state : AgentState) (ms : list text) : AgentState :=
  {| messages := ms; sender := sender state;
     parsed_message := parsed_message state; query_result' := query_result' state;
     response := response state; error := error state |}.

(** [state["messages"][0] if state.get("messages") else ""]. *)
Definition first_message (state : AgentState) : text :=
  match messages state with
  | m :: _ => m
  | [] => []
  end.

Definition is_query (pm : option ParsedMessage) : bool :=
  match pm with
  | Some pm => text_eqb (message_type pm) (L "查询")
  | None => false
  end.

(** The answer [_generate_response_node] settles on. *)
Definition settle_response (state : AgentState) : AgentState :=
  if truthy (error state) then
    let error_msg := default [] (error state) in
    let raw_input := first_message state in
    if found (search re_template_tag raw_input) then
      let help_info := _get_all_templates_help in
      with_response state
        (L "❗ 模板消息已入库，但存在问题" ++ nl :: error_msg ++ nl :: nl :: help_info)
    else if contains (L "格式不正确") error_msg || contains (L "模板格式") error_msg then
      let help_info := _get_all_templates_help in
      with_response state (L "❌ " ++ error_msg ++ nl :: nl :: help_info)
    else if is_query (parsed_message state) then
      with_response state (L "❌ 查询执行遇到问题，已自动处理或记录。请稍后重试。")
    else with_response state (L "❌ " ++ error_msg)
  else if negb (truthy (response state)) then with_response state (L "✅ 消息已处理")
  else state.

(** [_generate_response_node]: the answer is settled, appended to the
    messages, and the round is written to the memory of the sender. *)
Definition _generate_response_node (a : agent) (state : AgentState) : agent * AgentState :=
  let state := settle_response state in
  let answer := default [] (response state) in
  let state := with_messages state (messages state ++ [answer]) in
  let user_msg := first_message state in
  let assistant_msg := default [] (response state) in
  (_append_memory a (sender state) user_msg assistant_msg, state).

End Nodes.

Arguments AgentState : clear implicits.

End Graph.

Import Graph.

(** ** Rule-based generation ([SQLAgent._rule_based_sql]) *)

Module SQLAgentRules.

(** [p\s*\d{9,}] with IGNORECASE. *)
Definition re_parent_code : regex :=
  seqs [Chr (is_char true (ch "p")); ws0; times 9 (Chr is_digit); Star Greedy is_digit].

(** [s.replace(" ", "")]. *)
Definition remove_spaces (s : text) : text :=
  List.filter (fun c => negb (eqc c (ch " "))) s.

Definition _rule_based_sql (query : text) : result text :=
  let q := lower query in
  let wants_list := _wants_list query in
  let has (k : string) := contains (L k) q in
  if (has "今天" || has "今日") && has "新增" && has "家长" && negb wants_list then
    Ok (L "SELECT COUNT(*) AS total FROM parents WHERE DATE(created_at) = CURDATE()")
  else if (has "今天" || has "今日") && wants_list then
    Ok (L "SELECT parent_code FROM parents WHERE DATE(created_at) = CURDATE() ORDER BY created_at DESC LIMIT 50")
  else if (has "总" || has "多少") && has "家长" && negb (has "跟进") then
    Ok (L "SELECT COUNT(*) AS total FROM parents")
  else if has "跟进" && (has "多少" || has "有多少" || has "数量") then
    Ok (L "SELECT COUNT(*) AS total FROM parents WHERE current_status IN ('合伙人跟进中','销售跟进中')")
  else if has "本月" && has "成交" && has "金额" then
    Ok (L "SELECT COALESCE(SUM(deal_amount), 0) AS total_amount FROM parents " ++
        L "WHERE current_status = '已成交' AND MONTH(updated_at) = MONTH(CURDATE()) " ++
        L "AND YEAR(updated_at) = YEAR(CURDATE())")
  else if (has "本周" || has "这周" || has "目前这一周") && wants_list then
    Ok (L "SELECT parent_code FROM parents " ++
        L "WHERE YEARWEEK(created_at, 1) = YEARWEEK(CURDATE(), 1) " ++
        L "ORDER BY created_at DESC LIMIT 50")
  else if (has "过去一周" || has "近一周" || has "最近一周" || has "一周") && wants_list then
    Ok (L "SELECT parent_code FROM parents " ++
        L "WHERE DATE(created_at) >= DATE_SUB(CURDATE(), INTERVAL 7 DAY) " ++
        L "ORDER BY created_at DESC LIMIT 50")
  else
    let m := search re_parent_code query in
    match (if has "查询" then m else None) with
    | Some m =>
        let parent_code := remove_spaces (upper (matched m)) in
        Ok (L "SELECT p.parent_code, p.source_platform, p.current_status, p.partner_id, p.salesperson_id, " ++
            L "p.intent_level, p.deal_amount, p.created_at, p.updated_at " ++
            L "FROM parents p WHERE p.parent_code = '" ++ parent_code ++ L "'")
    | None =>
        if has "已成交" && (has "查询" || has "所有" || has "列表") then
          Ok (L "SELECT parent_code, deal_amount, updated_at FROM parents " ++
              L "WHERE current_status = '已成交' ORDER BY updated_at DESC LIMIT 50")
        else if has "状态" && (has "统计" || has "分布") then
          Ok (L "SELECT current_status AS status, COUNT(*) AS count FROM parents GROUP BY current_status")
        else
          Raise (L "LLM未配置，且无法根据规则生成SQL。请配置有效的OPENAI_API_KEY或使用支持的查询句式。")
    end.

(** The statement for one parent code. *)
Definition parent_code_sql (parent_code : text) : text :=
  L "SELECT p.parent_code, p.source_platform, p.current_status, p.partner_id, p.salesperson_id, " ++
  L "p.intent_level, p.deal_amount, p.created_at, p.updated_at " ++
  L "FROM parents p WHERE p.parent_code = '" ++ parent_code ++ L "'".

End SQLAgentRules.

Import SQLAgentRules.

(** ** The text of a query answer ([SQLAgent.format_query_response]) *)

Module Formatting.

Section Format.
Context {temporal : Type}.
(** [str(v)] for a value of a row, as the f-strings apply it, and
    [str(row)] for a whole row. *)
Context (str_value : @value temporal -> text) (str_row : @dict temporal -> text).

Definition list_index_error : text := L "list index out of range".

Definition display_limit : nat := 10.

(** [value is not None]. *)
Definition not_none (v : @value temporal) : bool :=
  match v with v_none => false | _ => true end.

(** One row: its items that hold a value, as [key: value], joined by
    a bar. *)
Definition row_line (row : @dict temporal) : text :=
  join (L " | ")
       (map (fun kv => fst kv ++ L ": " ++ str_value (snd kv))
            (List.filter (fun kv => not_none (snd kv)) row)).

(** The loop over the items of a counting row: the value of the first
    item whose key speaks of a count. *)
Fixpoint count_value (items : @dict temporal) : option (@value temporal) :=
  match items with
  | [] => None
  | (key, value) :: rest =>
      if contains (L "count") (lower key) ||
         existsb (text_eqb (lower key)) [L "total"; L "num"; L "cnt"]
      then Some value
      else count_value rest
  end.

(** The loop over [enumerate(display_data, 1)]. *)
Fixpoint numbered (i : nat) (rows : list (@dict temporal)) : text :=
  match rows with
  | [] => []
  | row :: rest => nl :: decimal i ++ L ". " ++ row_line row ++ numbered (S i) rest
  end.

Definition many_rows (total : nat) (data : list (@dict temporal)) : text :=
  L "📊 查询结果（共 " ++ decimal total ++ L " 条）：" ++ [nl] ++
  numbered 1 (take display_limit data) ++
  (if display_limit <? total
   then nl :: nl :: L "... 还有 " ++ decimal (total - display_limit) ++ L " 条记录未显示"
   else []).

Definition format_query_response (res : @payload temporal) : result text :=
  if negb (payload_success res) then
    Ok (L "❌ 查询失败：" ++
        match res with
        | error_response _ error _ => error
        | query_result _ _ _ _ _ => L "未知错误"
        end)
  else
    let data := match res with query_result _ _ _ data _ => data | error_response _ _ _ => [] end in
    let total := match res with query_result _ _ total _ _ => total | error_response _ _ _ => 0 end in
    if total =? 0 then Ok (L "📊 查询结果：暂无数据")
    else if total =? 1 then
      match data with
      | [] => Raise list_index_error
      | row :: _ =>
          match row with
          | [(key, value)] => Ok (L "📊 查询结果：" ++ str_value value)
          | _ =>
              if contains (L "count") (lower (str_row row)) then
                match count_value row with
                | Some value => Ok (L "📊 查询结果：" ++ str_value value ++ L " 条记录")
                | None => Ok (many_rows total data)
                end
              else Ok (many_rows total data)
          end
      end
    else Ok (many_rows total data).

End Format.

End Formatting.

Import Formatting.

(** ** Mentions of the robot ([agents/langgraph_agent.py], [app.py]) *)

Module Mentions.

(** The five names the robot answers to, as [robot_patterns] lists
    them; they are matched under [re.IGNORECASE]. *)
Definition robot_names : list text :=
  [L "@机器人"; L "@robot"; L "@智能助手"; L "@助手"; L "@小助手"].

(** [_is_robot_mentioned] of the agent, and [is_robot_mentioned] of the
    application, which holds the same loop: the first pattern found in
    the message ends it. *)
Definition _is_robot_mentioned (message : text) : bool :=
  existsb (fun pattern => found (search (lit true pattern) message)) robot_names.

Definition is_robot_mentioned (message : text) : bool :=
  existsb (fun pattern => found (search (lit true pattern) message)) robot_names.

(** The patterns of [clean_robot_mention]: a name and the white space
    after it. *)
Definition robot_patterns : list regex :=
  map (fun name => Seq (lit true name) (Star Greedy is_space)) robot_names.

(** [clean_robot_mention]: one substitution for each pattern, in the
    order of the list, then [clean_text]. *)
Definition clean_robot_mention (message : text) : text :=
  clean_text (fold_left (fun cleaned_message pattern => sub pattern [] cleaned_message)
                        robot_patterns message).

End Mentions.

Import Mentions.

(** * Properties *)

(** ** The matcher and the language of a pattern *)

Section MatcherFacts.

Lemma matches_reads r c c' :
  matches r c c' ->
  exists w, after c = w ++ after c' /\ before c' = rev w ++ before c.
Proof.
  induction 1.
  - exists []; auto.
  - exists [x]; auto.
  - destruct IHmatches1 as (w1 & Ha1 & Hb1), IHmatches2 as (w2 & Ha2 & Hb2).
    exists (w1 ++ w2). rewrite Ha1, Ha2, Hb2, Hb1, rev_app_distr, <- !app_assoc; auto.
  - assumption.
  - assumption.
  - exists []; auto.
  - destruct IHmatches as (w & Ha & Hb). simpl in *.
    exists (x :: w). simpl. rewrite Ha, Hb, <- app_assoc. auto.
  - exists []; auto.
  - exists []; auto.
  - exists []; auto.
  - assumption.
Qed.

Lemma matches_subject r c c' : matches r c c' -> subject c' = subject c.
Proof.
  intros H. destruct (matches_reads _ _ _ H) as (w & Ha & Hb).
  unfold subject. rewrite Ha, Hb, rev_app_distr, rev_involutive, <- app_assoc. reflexivity.
Qed.

Lemma matches_pos r c c' : matches r c c' -> pos c <= pos c'.
Proof.
  intros H. destruct (matches_reads _ _ _ H) as (w & _ & Hb).
  unfold pos. rewrite Hb, length_app. lia.
Qed.

Context {A : Type}.

Lemma star_greedy_sound g p r : forall l (k : cursor -> option A) v,
  star_greedy p l r k = Some v ->
  exists c', matches (Star g p) (Cur l r) c' /\ k c' = Some v.
Proof.
  induction r as [|x t IH]; intros l k v H; simpl in H.
  - eexists; split; [apply m_star_stop | exact H].
  - destruct (p x) eqn:Hp.
    + destruct (star_greedy p (x :: l) t k) eqn:Hs.
      * inversion H; subst. destruct (IH _ _ _ Hs) as (c' & Hm & Hk).
        exists c'; split; [apply m_star_more; assumption | assumption].
      * eexists; split; [apply m_star_stop | exact H].
    + eexists; split; [apply m_star_stop | exact H].
Qed.

Lemma star_lazy_sound g p r : forall l (k : cursor -> option A) v,
  star_lazy p l r k = Some v ->
  exists c', matches (Star g p) (Cur l r) c' /\ k c' = Some v.
Proof.
  induction r as [|x t IH]; intros l k v H; simpl in H.
  - destruct (k (Cur l [])) eqn:Hk; [|discriminate].
    inversion H; subst. eexists; split; [apply m_star_stop | exact Hk].
  - destruct (k (Cur l (x :: t))) eqn:Hk.
    + inversion H; subst. eexists; split; [apply m_star_stop | exact Hk].
    + destruct (p x) eqn:Hp; [|discriminate].
      destruct (IH _ _ _ H) as (c' & Hm & Hk').
      exists c'; split; [apply m_star_more; assumption | assumption].
Qed.

Lemma star_greedy_complete g p c c' :
  matches (Star g p) c c' ->
  forall (k : cursor -> option A), is_Some (k c') ->
  is_Some (star_greedy p (before c) (after c) k).
Proof.
  intros H. remember (Star g p) as r eqn:Hr.
  induction H; inversion Hr; subst; intros k Hk; simpl.
  - destruct c as [l [|x t]]; simpl; [assumption|].
    destruct (p x); [|assumption].
    destruct (star_greedy p (x :: l) t k); [eauto | assumption].
  - rewrite H. specialize (IHmatches eq_refl k Hk). simpl in IHmatches.
    destruct (star_greedy p (x :: l) t k); [eauto | destruct IHmatches; discriminate].
Qed.

Lemma star_lazy_complete g p c c' :
  matches (Star g p) c c' ->
  forall (k : cursor -> option A), is_Some (k c') ->
  is_Some (star_lazy p (before c) (after c) k).
Proof.
  intros H. remember (Star g p) as r eqn:Hr.
  induction H; inversion Hr; subst; intros k Hk; simpl.
  - destruct c as [l [|x t]]; simpl; destruct Hk as [v Hv]; rewrite Hv; eauto.
  - destruct (k (Cur l (x :: t))); [eauto|]. rewrite H.
    apply (IHmatches eq_refl k Hk).
Qed.

End MatcherFacts.

Section RunFacts.
Context {A : Type}.

(** Whatever the matcher returns comes from a member of the language. *)
Lemma run_sound r : forall c cs (k : cursor -> captures -> option A) v,
  run r c cs k = Some v ->
  exists c' cs', matches r c c' /\ k c' cs' = Some v.
Proof.
  induction r as [|p|a IHa b IHb|a IHa b IHb|g p| | | |n a IHa];
    intros c cs k v H; simpl in H.
  - exists c, cs; split; [constructor | assumption].
  - destruct c as [l [|x t]]; simpl in H; [discriminate|].
    destruct (p x) eqn:Hp; [|discriminate].
    eexists _, cs; split; [apply m_chr; assumption | exact H].
  - destruct (IHa _ _ _ _ H) as (c1 & cs1 & Hm1 & H1).
    destruct (IHb _ _ _ _ H1) as (c2 & cs2 & Hm2 & H2).
    exists c2, cs2; split; [eapply m_seq; eassumption | assumption].
  - destruct (run a c cs k) eqn:Ha.
    + inversion H; subst. destruct (IHa _ _ _ _ Ha) as (c1 & cs1 & Hm & Hk).
      exists c1, cs1; split; [apply m_alt_l; assumption | assumption].
    + destruct (IHb _ _ _ _ H) as (c1 & cs1 & Hm & Hk).
      exists c1, cs1; split; [apply m_alt_r; assumption | assumption].
  - destruct c as [l r]. destruct g; simpl in H.
    + destruct (star_greedy_sound Greedy _ _ _ _ _ H) as (c' & Hm & Hk). eauto.
    + destruct (star_lazy_sound Lazy _ _ _ _ _ H) as (c' & Hm & Hk). eauto.
  - destruct (at_boundary c) eqn:Hb; [|discriminate].
    exists c, cs; split; [constructor; assumption | assumption].
  - destruct (at_bos c) eqn:Hb; [|discriminate].
    exists c, cs; split; [constructor; assumption | assumption].
  - destruct (at_end c) eqn:Hb; [|discriminate].
    exists c, cs; split; [constructor; assumption | assumption].
  - destruct (IHa _ _ _ _ H) as (c1 & cs1 & Hm & Hk).
    eexists c1, _; split; [apply m_grp; assumption | exact Hk].
Qed.

(** Every member of the language lets the matcher succeed, provided
    the continuation accepts the cursor reached. *)
Lemma run_complete r c c' :
  matches r c c' ->
  forall (k : cursor -> captures -> option A),
    (forall cs, is_Some (k c' cs)) -> forall cs, is_Some (run r c cs k).
Proof.
  induction 1; intros k Hk cs; cbn [run].
  - apply Hk.
  - cbn. rewrite H. apply Hk.
  - apply IHmatches1. intros cs'. apply IHmatches2. assumption.
  - specialize (IHmatches k Hk cs). destruct (run a c cs k); [eauto|].
    destruct IHmatches; discriminate.
  - destruct (run a c cs k); [eauto|]. apply IHmatches; assumption.
  - destruct g.
    + exact (star_greedy_complete Greedy p c c (m_star_stop _ _ _)
               (fun c' => k c' cs) (Hk cs)).
    + exact (star_lazy_complete Lazy p c c (m_star_stop _ _ _)
               (fun c' => k c' cs) (Hk cs)).
  - pose proof (m_star_more g p l x t c' H H0) as Hm.
    destruct g.
    + exact (star_greedy_complete Greedy p _ _ Hm (fun c' => k c' cs) (Hk cs)).
    + exact (star_lazy_complete Lazy p _ _ Hm (fun c' => k c' cs) (Hk cs)).
  - rewrite H. apply Hk.
  - rewrite H. apply Hk.
  - rewrite H. apply Hk.
  - apply IHmatches. intros cs'. apply Hk.
Qed.

End RunFacts.

Section SearchFacts.

Lemma match_at_sound r c m :
  match_at r c = Some m -> m_from m = c /\ matches r c (m_to m).
Proof.
  unfold match_at. intros H.
  destruct (run_sound r _ _ _ _ H) as (c' & cs' & Hm & Hk).
  inversion Hk; subst; simpl. auto.
Qed.

Lemma match_at_complete r c c' : matches r c c' -> is_Some (match_at r c).
Proof.
  intros H. unfold match_at.
  apply (run_complete r c c' H). intros cs. eauto.
Qed.

Lemma match_at_none r c : match_at r c = None -> forall c', ~ matches r c c'.
Proof.
  intros H c' Hm. destruct (match_at_complete _ _ _ Hm) as [m Hs]. congruence.
Qed.

(** [re.search] returns a match of the pattern, and the leftmost one. *)
Lemma search_from_sound r rest : forall l m,
  search_from r l rest = Some m ->
  exists pre post,
    rest = pre ++ post /\ m_from m = Cur (rev pre ++ l) post /\
    matches r (m_from m) (m_to m) /\
    forall pre' post' c',
      rest = pre' ++ post' -> length pre' < length pre ->
      ~ matches r (Cur (rev pre' ++ l) post') c'.
Proof.
  induction rest as [|x t IH]; intros l m H; simpl in H.
  - destruct (match_at r (Cur l [])) eqn:Hm; [|discriminate].
    inversion H; subst. destruct (match_at_sound _ _ _ Hm) as [Hf Hmm].
    exists [], []; repeat split; auto; [congruence|]. intros; simpl in *; lia.
  - destruct (match_at r (Cur l (x :: t))) eqn:Hm.
    + inversion H; subst. destruct (match_at_sound _ _ _ Hm) as [Hf Hmm].
      exists [], (x :: t); repeat split; auto; [congruence|]. intros; simpl in *; lia.
    + destruct (IH _ _ H) as (pre & post & Hr & Hf & Hmm & Hleft).
      exists (x :: pre), post. simpl. rewrite <- app_assoc. simpl.
      repeat split; auto; [congruence|].
      intros pre' post' c' Hsplit Hlen.
      destruct pre' as [|y pre'']; simpl in *.
      * subst post'. apply (match_at_none _ _ Hm).
      * inversion Hsplit; subst. rewrite <- app_assoc. simpl.
        apply Hleft; [assumption | lia].
Qed.

Lemma search_from_complete r pre : forall l post c',
  matches r (Cur (rev pre ++ l) post) c' ->
  is_Some (search_from r l (pre ++ post)).
Proof.
  induction pre as [|x pre IH]; intros l post c' H; simpl in *.
  - destruct (match_at_complete _ _ _ H) as [m Hm].
    destruct post; simpl; rewrite Hm; eauto.
  - destruct (match_at r (Cur l (x :: pre ++ post))); [eauto|].
    apply (IH (x :: l) post c'). rewrite <- app_assoc in H. exact H.
Qed.

Lemma matches_occurs_at r pre rest c' :
  matches r (Cur (rev pre) rest) c' ->
  exists w post, rest = w ++ post /\ c' = Cur (rev w ++ rev pre) post /\
                 occurs_at r pre w post.
Proof.
  intros H. destruct (matches_reads _ _ _ H) as (w & Ha & Hb). simpl in *.
  destruct c' as [l' r']; simpl in *; subst.
  exists w, r'; repeat split; auto.
Qed.

(** [re.search] finds a match exactly when the pattern occurs. *)
Theorem search_found r s : found (search r s) = true <-> occurs r s.
Proof.
  unfold search; split.
  - destruct (search_from r [] s) as [m|] eqn:Hs; [intros _ | discriminate].
    destruct (search_from_sound _ _ _ _ Hs) as (pre & post & Hr & Hf & Hm & _).
    rewrite Hf, app_nil_r in Hm.
    destruct (matches_occurs_at _ _ _ _ Hm) as (w & post' & Hp & _ & Ho).
    exists pre, w, post'. subst. auto.
  - intros (pre & w & post & Hs & Ho). subst s.
    destruct (search_from_complete r pre [] (w ++ post)
                (Cur (rev w ++ rev pre) post)) as [m Hm].
    + rewrite app_nil_r. exact Ho.
    + rewrite Hm. reflexivity.
Qed.

Corollary search_none r s : search r s = None <-> ~ occurs r s.
Proof.
  rewrite <- search_found.
  destruct (search r s); simpl; intuition (try congruence; try discriminate).
Qed.

Corollary search_some r s : is_Some (search r s) <-> occurs r s.
Proof.
  rewrite <- search_found. destruct (search r s); simpl; split; intros H; eauto.
  - destruct H; discriminate.
  - discriminate.
Qed.

End SearchFacts.

(** ** Characters and strings *)

Ltac each_ascii c := destruct c as [[] [] [] [] [] [] [] []].

Lemma eqc_eq a b : eqc a b = true <-> a = b.
Proof. apply Ascii.eqb_eq. Qed.

Lemma eqc_refl a : eqc a a = true.
Proof. apply Ascii.eqb_refl. Qed.

Lemma is_space_upper c : is_space (upper_char c) = is_space c.
Proof. each_ascii c; reflexivity. Qed.

Lemma is_word_upper c : is_word (upper_char c) = is_word c.
Proof. each_ascii c; reflexivity. Qed.

Lemma is_lower_upper c : is_lower (upper_char c) = false.
Proof. each_ascii c; reflexivity. Qed.

Lemma upper_char_idem c : upper_char (upper_char c) = upper_char c.
Proof. each_ascii c; reflexivity. Qed.

Lemma space_not_word c : is_space c = true -> is_word c = false.
Proof. each_ascii c; simpl; intros H; try reflexivity; discriminate H. Qed.

Lemma forall_bool_spec f : forall_bool f = true -> forall b, f b = true.
Proof.
  unfold forall_bool. intros H b. apply andb_true_iff in H as [H1 H2].
  destruct b; assumption.
Qed.

Lemma forall_ascii_spec P : forall_ascii P = true -> forall a, P a = true.
Proof.
  intros H [b0 b1 b2 b3 b4 b5 b6 b7]. unfold forall_ascii in H.
  apply (fun H => forall_bool_spec _ H b0) in H.
  apply (fun H => forall_bool_spec _ H b1) in H.
  apply (fun H => forall_bool_spec _ H b2) in H.
  apply (fun H => forall_bool_spec _ H b3) in H.
  apply (fun H => forall_bool_spec _ H b4) in H.
  apply (fun H => forall_bool_spec _ H b5) in H.
  apply (fun H => forall_bool_spec _ H b6) in H.
  apply (fun H => forall_bool_spec _ H b7) in H.
  exact H.
Qed.

(** Under [re.IGNORECASE] a character of the pattern matches a
    character of the subject exactly when the two have the same upper
    case. *)
Lemma eqc_ci_spec a x : eqc_ci a x = eqc (upper_char a) (upper_char x).
Proof.
  apply Bool.eqb_prop. revert x. apply forall_ascii_spec. revert a.
  apply (forall_ascii_spec (fun a => forall_ascii (fun x =>
           Bool.eqb (eqc_ci a x) (eqc (upper_char a) (upper_char x))))).
  vm_compute. reflexivity.
Qed.

Lemma upper_app a b : upper (a ++ b) = upper a ++ upper b.
Proof. apply map_app. Qed.

Lemma upper_length s : length (upper s) = length s.
Proof. apply length_map. Qed.

Lemma lstrip_upper s : lstrip (upper s) = upper (lstrip s).
Proof.
  induction s as [|c t IH]; simpl; [reflexivity|].
  rewrite is_space_upper. destruct (is_space c); [assumption | reflexivity].
Qed.

Lemma upper_rev s : upper (rev s) = rev (upper s).
Proof. unfold upper. apply map_rev. Qed.

Lemma strip_upper s : strip (upper s) = upper (strip s).
Proof.
  unfold strip, rstrip.
  rewrite lstrip_upper, <- upper_rev, lstrip_upper, upper_rev. reflexivity.
Qed.

Lemma startswith_app p s : startswith p s = true <-> exists rest, s = p ++ rest.
Proof.
  revert s; induction p as [|a p IH]; intros s; simpl.
  - split; eauto.
  - destruct s as [|b s]; simpl.
    + split; [discriminate | intros [r Hr]; discriminate Hr].
    + rewrite andb_true_iff, eqc_eq, IH. split.
      * intros [-> [r ->]]. eauto.
      * intros [r Hr]. inversion Hr; subst. eauto.
Qed.

(** What [lstrip] removes is white space, and what it leaves does not
    start with white space. *)
Lemma lstrip_spec s :
  exists ws, s = ws ++ lstrip s /\ forallb is_space ws = true /\
             match lstrip s with c :: _ => is_space c = false | [] => True end.
Proof.
  induction s as [|c t (ws & Hs & Hw & Hh)]; simpl.
  - exists []; auto.
  - destruct (is_space c) eqn:Hc.
    + exists (c :: ws); simpl. rewrite Hc, Hw. repeat split; [congruence | assumption].
    + exists []; simpl; auto.
Qed.

Lemma lstrip_keeps c t : is_space c = false -> lstrip (c :: t) = c :: t.
Proof. simpl. intros ->. reflexivity. Qed.

(** [rstrip] leaves a text alone up to its last character that is not
    white space. *)
Lemma rstrip_app_keep a c t :
  is_space c = false -> rstrip (a ++ c :: t) = a ++ c :: rstrip t.
Proof.
  intros Hc. unfold rstrip.
  assert (G : forall u v, lstrip (u ++ c :: v) = lstrip u ++ c :: v).
  { induction u as [|x u IH]; intros v; simpl.
    - rewrite Hc. reflexivity.
    - destruct (is_space x); [apply IH | reflexivity]. }
  rewrite rev_app_distr. simpl. rewrite <- app_assoc. simpl.
  rewrite G, rev_app_distr. simpl. rewrite rev_involutive, <- app_assoc. reflexivity.
Qed.

Lemma rstrip_prefix s : exists ws, s = rstrip s ++ ws.
Proof.
  unfold rstrip. destruct (lstrip_spec (rev s)) as (ws & Hs & _).
  exists (rev ws). rewrite <- rev_app_distr, <- Hs, rev_involutive. reflexivity.
Qed.

(** Trailing white space does not decide how a text starts, when the
    prefix asked for has none. *)
Lemma startswith_rstrip p s :
  p <> [] -> forallb (fun c => negb (is_space c)) p = true ->
  startswith p (rstrip s) = startswith p s.
Proof.
  intros Hne Hp.
  destruct (startswith p s) eqn:Hs.
  - apply startswith_app in Hs as [rest ->]. apply startswith_app.
    destruct (exists_last Hne) as (a & c & ->).
    rewrite forallb_app in Hp. apply andb_true_iff in Hp as [_ Hc]. simpl in Hc.
    rewrite andb_true_r in Hc. apply negb_true_iff in Hc.
    rewrite <- app_assoc. simpl. rewrite rstrip_app_keep by assumption.
    exists (rstrip rest). rewrite <- app_assoc. reflexivity.
  - destruct (startswith p (rstrip s)) eqn:Hr; [|reflexivity].
    apply startswith_app in Hr as [rest Hr].
    destruct (rstrip_prefix s) as [ws Hws].
    assert (startswith p s = true) as Hc; [|congruence].
    apply startswith_app. exists (rest ++ ws). rewrite Hws at 1. rewrite Hr, <- app_assoc.
    reflexivity.
Qed.

Lemma contains_app needle s :
  contains needle s = true <-> exists pre post, s = pre ++ needle ++ post.
Proof.
  induction s as [|c t IH]; simpl.
  - rewrite orb_false_r, startswith_app. split.
    + intros [r Hr]. exists [], r. exact Hr.
    + intros (pre & post & H). destruct pre; simpl in H; [eauto|discriminate].
  - rewrite orb_true_iff, startswith_app, IH. split.
    + intros [[r Hr] | (pre & post & H)].
      * exists [], r. exact Hr.
      * exists (c :: pre), post. simpl. congruence.
    + intros (pre & post & H). destruct pre as [|x pre]; simpl in H.
      * left. eauto.
      * right. inversion H. eauto.
Qed.

Lemma contains_chars needle s c :
  contains needle s = true -> In c needle -> In c s.
Proof.
  intros H Hc. apply contains_app in H as (pre & post & ->).
  apply in_or_app. right. apply in_or_app. left. assumption.
Qed.

Lemma upper_has_no_lower c x : In c (upper x) -> is_lower c = false.
Proof.
  unfold upper. rewrite in_map_iff. intros (y & <- & _). apply is_lower_upper.
Qed.

(** ** Reading the language of a pattern *)

Lemma matches_eps c c' : matches Eps c c' <-> c' = c.
Proof. split; [inversion 1; reflexivity | intros ->; constructor]. Qed.

Lemma matches_seq a b c c' :
  matches (Seq a b) c c' <-> exists c1, matches a c c1 /\ matches b c1 c'.
Proof.
  split; [inversion 1; subst; eauto | intros (c1 & H1 & H2); econstructor; eauto].
Qed.

Lemma matches_alt a b c c' :
  matches (Alt a b) c c' <-> matches a c c' \/ matches b c c'.
Proof.
  split; [inversion 1; subst; auto | intros [H | H]; [apply m_alt_l | apply m_alt_r]; auto].
Qed.

Lemma matches_grp n a c c' : matches (Grp n a) c c' <-> matches a c c'.
Proof. split; [inversion 1; subst; auto | apply m_grp]. Qed.

Lemma matches_wordb c c' : matches WordB c c' <-> c' = c /\ at_boundary c = true.
Proof. split; [inversion 1; subst; auto | intros [-> H]; constructor; auto]. Qed.

Lemma matches_bos c c' : matches Bos c c' <-> c' = c /\ at_bos c = true.
Proof. split; [inversion 1; subst; auto | intros [-> H]; constructor; auto]. Qed.

Lemma matches_eos c c' : matches Eos c c' <-> c' = c /\ at_end c = true.
Proof. split; [inversion 1; subst; auto | intros [-> H]; constructor; auto]. Qed.

Lemma matches_chr p c c' :
  matches (Chr p) c c' <->
  exists x, p x = true /\ after c = x :: after c' /\ before c' = x :: before c.
Proof.
  split.
  - inversion 1; subst; simpl; eauto.
  - intros (x & Hp & Ha & Hb). destruct c as [l r], c' as [l' r']; simpl in *; subst.
    constructor; assumption.
Qed.

Lemma matches_star g p c c' :
  matches (Star g p) c c' <->
  exists w, forallb p w = true /\ after c = w ++ after c' /\ before c' = rev w ++ before c.
Proof.
  split.
  - intros H. remember (Star g p) as r eqn:Hr.
    induction H; inversion Hr; subst.
    + exists []; auto.
    + destruct (IHmatches eq_refl) as (w & Hw & Ha & Hb). simpl in *.
      exists (x :: w); simpl. rewrite H, Hw, Ha, Hb, <- app_assoc. auto.
  - intros (w & Hw & Ha & Hb). destruct c as [l r], c' as [l' r']; simpl in *; subst.
    revert l Hw. induction w as [|x w IH]; intros l Hw; simpl in *.
    + constructor.
    + apply andb_true_iff in Hw as [Hx Hw]. apply m_star_more; [assumption|].
      rewrite <- app_assoc. simpl. apply IH; assumption.
Qed.

Lemma matches_seqs r rs c c' :
  matches (seqs (r :: rs)) c c' <-> exists c1, matches r c c1 /\ matches (seqs rs) c1 c'.
Proof.
  destruct rs as [|r' rs]; simpl.
  - split; [intros H; exists c'; split; [assumption | constructor]|].
    intros (c1 & H1 & H2). apply matches_eps in H2. subst; assumption.
  - apply matches_seq.
Qed.

Lemma matches_alts rs c c' :
  rs <> [] -> (matches (alts rs) c c' <-> exists r, In r rs /\ matches r c c').
Proof.
  induction rs as [|r rs IH]; [congruence|]. intros _.
  destruct rs as [|r' rs].
  - simpl. split; [eauto | intros (r0 & [<- | []] & H); assumption].
  - change (alts (r :: r' :: rs)) with (Alt r (alts (r' :: rs))).
    rewrite matches_alt, IH by congruence. split.
    + intros [H | (r0 & Hin & H)]; [exists r; simpl; auto | exists r0; simpl; auto].
    + intros (r0 & [<- | Hin] & H); [left; assumption | right; eauto].
Qed.

(** A literal reads a text of its own length, character by character. *)
Lemma matches_lit ci w c c' :
  matches (lit ci w) c c' <->
  exists x, Forall2 (fun a y => is_char ci a y = true) w x /\
            after c = x ++ after c' /\ before c' = rev x ++ before c.
Proof.
  revert c c'. induction w as [|a w IH]; intros c c'.
  - simpl. rewrite matches_eps. split.
    + intros ->. exists []; auto.
    + intros (x & Hx & Ha & Hb). inversion Hx; subst. simpl in *.
      destruct c, c'; simpl in *; congruence.
  - assert (E : matches (lit ci (a :: w)) c c' <->
                exists c1, matches (Chr (is_char ci a)) c c1 /\ matches (lit ci w) c1 c').
    { destruct w; [|apply matches_seq]. simpl. split.
      - intros H; exists c'; split; [assumption | constructor].
      - intros (c1 & H1 & H2). apply matches_eps in H2. subst; assumption. }
    rewrite E. split.
    + intros (c1 & H1 & H2). apply matches_chr in H1 as (y & Hy & Ha & Hb).
      apply IH in H2 as (x & Hx & Ha' & Hb').
      exists (y :: x). split; [constructor; assumption|].
      simpl. rewrite Ha, Ha', Hb', Hb, <- app_assoc. auto.
    + intros (x & Hx & Ha & Hb). inversion Hx as [|a' y w' x' Hy Hx']; subst.
      exists (Cur (y :: before c) (x' ++ after c')). split.
      * apply matches_chr. exists y; simpl; auto.
      * apply IH. exists x'; simpl. simpl in Hb. rewrite Hb, <- app_assoc. auto.
Qed.

(** Under [re.IGNORECASE] a literal reads exactly the texts that differ
    from it in letter case only. *)
Lemma ci_literal_reads w x :
  Forall2 (fun a y => is_char true a y = true) w x <-> same_ci x w.
Proof.
  unfold same_ci. revert x. induction w as [|a w IH]; intros x; simpl.
  - split; [inversion 1; reflexivity|]. destruct x; [constructor | discriminate].
  - split.
    + inversion 1 as [|a' y w' x' Hy Hx']; subst. simpl.
      unfold is_char in Hy. rewrite eqc_ci_spec in Hy. apply eqc_eq in Hy.
      apply IH in Hx'. congruence.
    + destruct x as [|y x]; [discriminate|]. simpl. intros H. inversion H; subst.
      constructor; [|apply IH; assumption].
      unfold is_char. rewrite eqc_ci_spec. apply eqc_eq. congruence.
Qed.

Lemma matches_keyword w c c' :
  matches (lit true w) c c' <->
  exists x, same_ci x w /\ after c = x ++ after c' /\ before c' = rev x ++ before c.
Proof.
  rewrite matches_lit. split; intros (x & Hx & H); exists x; split; auto;
    apply ci_literal_reads; assumption.
Qed.

(** ** Whole-word keywords *)

(** A text that reads as a keyword starts and ends as the keyword does:
    with a word character when the keyword does. *)
Lemma keyword_first k w :
  word_edges k -> same_ci w k -> exists a w', w = a :: w' /\ is_word a = true.
Proof.
  unfold word_edges, same_ci. intros [Hk _] Hw.
  destruct k as [|a0 k]; [discriminate Hk|].
  destruct w as [|a w']; [discriminate Hw|].
  exists a, w'. split; [reflexivity|]. simpl in Hw. inversion Hw as [[Ha Hw']].
  rewrite <- is_word_upper, Ha, is_word_upper. exact Hk.
Qed.

Lemma keyword_last k w :
  word_edges k -> same_ci w k -> exists w' z, w = w' ++ [z] /\ is_word z = true.
Proof.
  unfold word_edges, same_ci. intros [_ Hk] Hw.
  assert (Hr : upper (rev w) = upper (rev k)) by (rewrite !upper_rev; congruence).
  destruct (rev k) as [|z0 k']; [discriminate Hk|].
  destruct (rev w) as [|z w'] eqn:Ew; [discriminate Hr|].
  exists (rev w'), z. split.
  - rewrite <- (rev_involutive w), Ew. reflexivity.
  - simpl in Hr. inversion Hr as [[Hz Hw']].
    rewrite <- is_word_upper, Hz, is_word_upper. exact Hk.
Qed.

Lemma boundary_before_word pre a rest :
  is_word a = true ->
  (at_boundary (Cur (rev pre) (a :: rest)) = true <-> ends_clear pre).
Proof.
  intros Ha. unfold at_boundary, word_before, word_after, ends_clear. simpl.
  rewrite Ha. destruct (rev pre) as [|c t]; simpl; [tauto|].
  destruct (is_word c); simpl; split; congruence.
Qed.

Lemma boundary_after_word l z post :
  is_word z = true ->
  (at_boundary (Cur (z :: l) post) = true <-> starts_clear post).
Proof.
  intros Hz. unfold at_boundary, word_before, word_after, starts_clear. simpl.
  rewrite Hz. destruct post as [|c t]; simpl; [tauto|].
  destruct (is_word c); simpl; split; congruence.
Qed.

(** [\bKEYWORD\b] under [re.IGNORECASE] occurs exactly where the
    keyword stands as a whole word. *)
Lemma whole_word_occurs_at n k pre w post :
  word_edges k ->
  (matches (seqs [WordB; Grp n (lit true k); WordB])
           (Cur (rev pre) (w ++ post)) (Cur (rev w ++ rev pre) post) <->
   same_ci w k /\ ends_clear pre /\ starts_clear post).
Proof.
  intros Hk. cbn [seqs]. split.
  - intros H. apply matches_seq in H as (c1 & H1 & H).
    apply matches_seq in H as (c2 & H2 & H3).
    apply matches_wordb in H1 as [E1 B1]. subst c1.
    apply matches_wordb in H3 as [E3 B2]. subst c2. apply matches_grp in H2.
    apply matches_keyword in H2 as (x & Hx & Ha & _). simpl in Ha.
    apply app_inv_tail in Ha. subst x.
    destruct (keyword_first _ _ Hk Hx) as (a & w' & Hw & Hwa).
    destruct (keyword_last _ _ Hk Hx) as (w'' & z & Hz & Hwz).
    split; [assumption|]. split.
    + rewrite Hw in B1. simpl in B1.
      apply (boundary_before_word pre a (w' ++ post) Hwa). exact B1.
    + rewrite Hz, rev_app_distr in B2. simpl in B2.
      apply (boundary_after_word (rev w'' ++ rev pre) z post Hwz). exact B2.
  - intros (Hx & Hpre & Hpost).
    destruct (keyword_first _ _ Hk Hx) as (a & w' & Hw & Hwa).
    destruct (keyword_last _ _ Hk Hx) as (w'' & z & Hz & Hwz).
    apply matches_seq. exists (Cur (rev pre) (w ++ post)). split.
    { apply matches_wordb. split; [reflexivity|]. rewrite Hw. simpl.
      apply (boundary_before_word pre a (w' ++ post) Hwa). exact Hpre. }
    apply matches_seq. exists (Cur (rev w ++ rev pre) post). split.
    { apply matches_grp, matches_keyword. exists w. simpl. auto. }
    apply matches_wordb. split; [reflexivity|]. rewrite Hz, rev_app_distr. simpl.
    apply (boundary_after_word (rev w'' ++ rev pre) z post Hwz). exact Hpost.
Qed.

Lemma matches_wrapped_alts n rs c c' :
  rs <> [] ->
  (matches (seqs [WordB; Grp n (alts rs); WordB]) c c' <->
   exists r, In r rs /\ matches (seqs [WordB; Grp n r; WordB]) c c').
Proof.
  intros Hne. cbn [seqs]. split.
  - intros H. apply matches_seq in H as (c1 & H1 & H).
    apply matches_seq in H as (c2 & H2 & H3). apply matches_grp in H2.
    apply (matches_alts _ _ _ Hne) in H2 as (r & Hin & H2).
    exists r. split; [assumption|].
    apply matches_seq. exists c1. split; [assumption|].
    apply matches_seq. exists c2. split; [apply matches_grp|]; assumption.
  - intros (r & Hin & H). apply matches_seq in H as (c1 & H1 & H).
    apply matches_seq in H as (c2 & H2 & H3). apply matches_grp in H2.
    apply matches_seq. exists c1. split; [assumption|].
    apply matches_seq. exists c2. split; [|assumption].
    apply matches_grp, (matches_alts _ _ _ Hne). eauto.
Qed.

Lemma dangerous_keywords_edges :
  Forall (fun k => word_edges (L k)) dangerous_keywords.
Proof. repeat constructor. Qed.

(** The dangerous pattern occurs exactly where one of the eleven
    keywords stands as a whole word. *)
Lemma dangerous_occurs s :
  occurs dangerous_pattern s <->
  exists k, In k dangerous_keywords /\ whole_word_in (L k) s.
Proof.
  unfold occurs, occurs_at, dangerous_pattern, whole_word_in.
  assert (Hne : map kw dangerous_keywords <> []) by discriminate.
  pose proof (proj1 (List.Forall_forall _ _) dangerous_keywords_edges) as Hup.
  cbv beta in Hup.
  split.
  - intros (pre & w & post & Hs & Hm).
    apply (matches_wrapped_alts _ _ _ _ Hne) in Hm as (r & Hin & Hm).
    apply in_map_iff in Hin as (k & <- & Hk).
    apply (whole_word_occurs_at 1 (L k) pre w post (Hup _ Hk)) in Hm.
    exists k. split; [assumption|]. exists pre, w, post. tauto.
  - intros (k & Hk & pre & w & post & Hs & Hw).
    exists pre, w, post. split; [assumption|].
    apply (matches_wrapped_alts _ _ _ _ Hne). exists (kw k).
    split; [apply in_map; assumption|].
    apply (whole_word_occurs_at 1 (L k) pre w post (Hup _ Hk)). tauto.
Qed.

(** ** The safety check of [execute_sql] *)

Lemma select_check sql :
  startswith (L "SELECT") (strip (upper sql)) = true <-> begins_with_ci (L "SELECT") sql.
Proof.
  unfold strip. rewrite startswith_rstrip by (try discriminate; reflexivity).
  rewrite lstrip_upper, startswith_app. unfold begins_with_ci, same_ci. split.
  - intros [rest H]. exists (take 6 (lstrip sql)), (drop 6 (lstrip sql)).
    split; [symmetry; apply firstn_skipn|].
    unfold upper in *. rewrite <- List.firstn_map, H. reflexivity.
  - intros (w & rest & Hs & Hw). exists (upper rest).
    rewrite Hs, upper_app, Hw. reflexivity.
Qed.

Lemma preflight_ok sql :
  preflight sql = Ok tt <->
  startswith (L "SELECT") (strip (upper sql)) = true /\ search dangerous_pattern sql = None.
Proof.
  unfold preflight.
  destruct (startswith (L "SELECT") (strip (upper sql))); simpl.
  - destruct (search dangerous_pattern sql); split; intros H;
      try discriminate H; try (destruct H; discriminate); auto.
  - split; [discriminate | intros [H _]; discriminate H].
Qed.

Lemma no_signature_in_upper sig c pre x :
  In c sig -> is_lower c = true -> ~ In c pre ->
  contains sig (pre ++ upper x) = false.
Proof.
  intros Hc Hl Hpre. destruct (contains sig (pre ++ upper x)) eqn:E; [|reflexivity].
  exfalso. apply (contains_chars _ _ c E) in Hc. apply in_app_or in Hc as [H | H].
  - exact (Hpre H).
  - apply upper_has_no_lower in H. congruence.
Qed.

Lemma not_in_text c s : existsb (eqc c) s = false -> ~ In c s.
Proof.
  intros H Hin. assert (existsb (eqc c) s = true); [|congruence].
  apply existsb_exists. exists c. split; [assumption | apply eqc_refl].
Qed.

(** The two messages of the safety check carry no database error
    signature. *)
Lemma preflight_error_unmatched sql e :
  preflight sql = Raise e ->
  matches_limit_in e = false /\ contains sig_distinct e = false /\
  contains sig_not_in_list e = false.
Proof.
  unfold preflight.
  destruct (startswith (L "SELECT") (strip (upper sql))); cbn [negb].
  - destruct (search dangerous_pattern sql) as [m|]; [|discriminate].
    intros H.
    assert (E : e = dangerous_prefix ++ upper (group 1 m)) by congruence.
    clear H. subst e. unfold matches_limit_in. repeat split.
    + apply (no_signature_in_upper _ (ch "y")); [vm_compute; tauto | reflexivity|].
      apply not_in_text. reflexivity.
    + apply (no_signature_in_upper _ (ch "i")); [vm_compute; tauto | reflexivity|].
      apply not_in_text. reflexivity.
    + apply (no_signature_in_upper _ (ch "n")); [vm_compute; tauto | reflexivity|].
      apply not_in_text. reflexivity.
  - intros H. assert (E : e = only_select) by congruence.
    clear H. subst e. repeat split; reflexivity.
Qed.

Section ExecuteFacts.
Context {temporal : Type} (isoformat : temporal -> text) (now : text).
Implicit Types (db : @database temporal) (sql : text).

Lemma recover_unmatched db sql e tr :
  matches_limit_in e = false -> contains sig_distinct e = false ->
  contains sig_not_in_list e = false ->
  recover isoformat now db sql e tr = (tr, format_error_response now generic_failure).
Proof.
  intros H1 H2 H3. unfold recover, matches_distinct. rewrite H1, H2, H3. reflexivity.
Qed.

Lemma retry_extends db tr sql rewritten :
  exists ext, fst (retry isoformat now db tr sql rewritten) = tr ++ ext /\ length ext <= 1.
Proof.
  unfold retry.
  destruct (changed sql rewritten).
  - unfold run_query. simpl. exists [rewritten]. auto.
  - exists []. rewrite app_nil_r. simpl. auto.
Qed.

Lemma recover_extends db sql e tr :
  exists ext, fst (recover isoformat now db sql e tr) = tr ++ ext /\ length ext <= 2.
Proof.
  unfold recover.
  set (r1 := if matches_limit_in e
             then retry isoformat now db tr sql (_rewrite_in_with_limit_to_join sql)
             else (tr, None)).
  assert (H1 : exists ext, fst r1 = tr ++ ext /\ length ext <= 1).
  { subst r1. destruct (matches_limit_in e); [apply retry_extends|].
    exists []. rewrite app_nil_r. simpl. auto. }
  destruct r1 as [tr1 [p|]]; destruct H1 as (e1 & E1 & L1); simpl in E1.
  - exists e1. simpl. split; [assumption | lia].
  - set (r2 := if matches_distinct sql e
               then retry isoformat now db tr1 sql (_fix_distinct_orderby_not_in_select sql)
               else (tr1, None)).
    assert (H2 : exists ext, fst r2 = tr1 ++ ext /\ length ext <= 1).
    { subst r2. destruct (matches_distinct sql e); [apply retry_extends|].
      exists []. rewrite app_nil_r. simpl. auto. }
    destruct r2 as [tr2 [p|]]; destruct H2 as (e2 & E2 & L2); simpl in E2;
      exists (e1 ++ e2); simpl; rewrite E2, E1, <- app_assoc, length_app; split; auto; lia.
Qed.

End ExecuteFacts.


(** ** Conversation memory *)

Lemma last_n_length {A : Type} n (l : list A) : length (last_n n l) <= n.
Proof. unfold last_n. rewrite length_drop. lia. Qed.

Lemma last_n_all {A : Type} n (l : list A) : length l <= n -> last_n n l = l.
Proof. unfold last_n. intros H. replace (length l - n) with 0 by lia. reflexivity. Qed.

Lemma last_n_snoc {A : Type} n (l : list A) x :
  0 < n -> last_n n (last_n n l ++ [x]) = last_n n (l ++ [x]).
Proof.
  intros Hn. unfold last_n. rewrite !length_app, length_drop. simpl.
  destruct (Nat.le_gt_cases (length l) n) as [Hle | Hgt].
  - replace (length l - n) with 0 by lia. rewrite Nat.sub_0_r. reflexivity.
  - replace (length l - (length l - n) + 1 - n) with 1 by lia.
    replace (length l + 1 - n) with (S (length l - n)) by lia.
    rewrite (drop_app_le l [x] (S (length l - n))) by lia.
    rewrite (drop_app_le (drop (length l - n) l) [x] 1) by (rewrite length_drop; lia).
    rewrite drop_drop. f_equal. f_equal. lia.
Qed.

(** With a positive bound the slice keeps the last [n] rounds. *)
Lemma slice_from_neg {A : Type} (n : Z) (l : list A) :
  (0 < n)%Z -> slice_from (- n) l = last_n (Z.to_nat n) l.
Proof.
  intros Hn. unfold slice_from, last_n.
  destruct (Z.ltb_spec (- n) 0); [|lia]. f_equal. lia.
Qed.

(** With the bound at zero the slice [turns[-0:]] is the whole list. *)
Lemma slice_from_zero {A : Type} (l : list A) : slice_from (- 0) l = l.
Proof. reflexivity. Qed.

Lemma append_memory_turns a sender u v :
  sender <> EmptyString ->
  turns_of (_append_memory a sender u v) sender =
  let turns := turns_of a sender ++ [Turn u v] in
  if (_memory_max_turns a <? Z.of_nat (length turns))%Z
  then slice_from (- _memory_max_turns a) turns else turns.
Proof.
  intros Hs. unfold _append_memory. destruct (decide (sender = EmptyString)); [contradiction|].
  unfold turns_of at 1. simpl. rewrite lookup_insert_eq. reflexivity.
Qed.

Lemma append_memory_other a sender u v other :
  other <> sender -> turns_of (_append_memory a sender u v) other = turns_of a other.
Proof.
  intros Hne. unfold _append_memory. destruct (decide (sender = EmptyString)); [reflexivity|].
  unfold turns_of. simpl. rewrite lookup_insert_ne by congruence. reflexivity.
Qed.

Lemma append_memory_max a sender u v :
  _memory_max_turns (_append_memory a sender u v) = _memory_max_turns a.
Proof. unfold _append_memory. destruct (decide _); reflexivity. Qed.

(** One append under a positive bound: the sender keeps the last [N]
    of its rounds, at most [N] of them, and no other sender changes. *)
Lemma append_memory_positive a sender u v :
  (0 < _memory_max_turns a)%Z -> sender <> EmptyString ->
  let N := Z.to_nat (_memory_max_turns a) in
  turns_of (_append_memory a sender u v) sender =
    last_n N (turns_of a sender ++ [Turn u v]) /\
  length (turns_of (_append_memory a sender u v) sender) <= N /\
  forall other, other <> sender ->
    turns_of (_append_memory a sender u v) other = turns_of a other.
Proof.
  intros Hpos Hs N.
  assert (E : turns_of (_append_memory a sender u v) sender =
              last_n N (turns_of a sender ++ [Turn u v])).
  { rewrite append_memory_turns by assumption. cbv zeta.
    destruct (Z.ltb_spec (_memory_max_turns a)
                (Z.of_nat (length (turns_of a sender ++ [Turn u v])))).
    - apply slice_from_neg. assumption.
    - symmetry. apply last_n_all. subst N. lia. }
  split; [exact E|]. split.
  - rewrite E. apply last_n_length.
  - intros other Hne. apply append_memory_other. assumption.
Qed.

Lemma rounds_of_snoc sender rounds r :
  rounds_of sender (rounds ++ [r]) =
  rounds_of sender rounds ++ (if bool_decide (fst r = sender) then [snd r] else []).
Proof.
  unfold rounds_of. rewrite List.filter_app, map_app. simpl.
  destruct (bool_decide (fst r = sender)); reflexivity.
Qed.

Lemma append_all_max a rounds :
  _memory_max_turns (append_all a rounds) = _memory_max_turns a.
Proof.
  unfold append_all. revert a. induction rounds as [|r t IH]; intros a; simpl; [reflexivity|].
  rewrite IH. apply append_memory_max.
Qed.

Lemma append_all_snoc a rounds r :
  append_all a (rounds ++ [r]) =
  _append_memory (append_all a rounds) (fst r) (user (snd r)) (assistant (snd r)).
Proof. unfold append_all. rewrite fold_left_app. reflexivity. Qed.

(** Over any run of the agent under a positive bound, the memory of a
    sender is the last [N] of the rounds appended for it. *)
Theorem memory_keeps_last_rounds (N : Z) (rounds : list (string * turn)) (sender : string) :
  (0 < N)%Z -> sender <> EmptyString ->
  turns_of (append_all (Agent ∅ N) rounds) sender =
  last_n (Z.to_nat N) (rounds_of sender rounds).
Proof.
  intros Hpos Hs. induction rounds as [|[s [u v]] rounds IH] using rev_ind.
  - reflexivity.
  - rewrite append_all_snoc, rounds_of_snoc. simpl.
    destruct (bool_decide_reflect (s = sender)) as [-> | Hne].
    + pose proof (append_memory_positive (append_all (Agent ∅ N) rounds) sender u v) as H.
      rewrite append_all_max in H. simpl in H.
      destruct (H Hpos Hs) as [E _]. rewrite E, IH.
      apply last_n_snoc. lia.
    + rewrite append_memory_other by congruence. rewrite app_nil_r. exact IH.
Qed.

Lemma memory_keeps_last_rounds_witness :
  turns_of (append_all (Agent ∅ 2%Z)
              [("ann", Turn (L "q1") (L "a1")); ("bob", Turn (L "q2") (L "a2"));
               ("ann", Turn (L "q3") (L "a3")); ("ann", Turn (L "q4") (L "a4"))]%string)
           "ann"%string =
  [Turn (L "q3") (L "a3"); Turn (L "q4") (L "a4")].
Proof.
  exact (memory_keeps_last_rounds 2%Z _ "ann"%string eq_refl ltac:(discriminate)).
Defined.

(** With the bound configured as zero [turns[-0:]] is the whole list:
    nothing is ever evicted. *)
Lemma append_memory_zero_bound a sender u v :
  _memory_max_turns a = 0%Z -> sender <> EmptyString ->
  turns_of (_append_memory a sender u v) sender = turns_of a sender ++ [Turn u v].
Proof.
  intros H0 Hs. rewrite append_memory_turns by assumption. cbv zeta. rewrite H0.
  destruct (Z.ltb_spec 0 (Z.of_nat (length (turns_of a sender ++ [Turn u v])))); reflexivity.
Qed.

(** C9 (failing input).  With [AGENT_MEMORY_MAX_TURNS=0] the agent that
    has appended one round for a sender holds that round: one turn,
    above the configured maximum of zero. *)
Theorem memory_zero_bound_keeps_round :
  turns_of (_append_memory (new_agent (Some 0%Z)) "ann"%string (L "q") (L "a")) "ann"%string
  = [Turn (L "q") (L "a")].
Proof.
  apply (append_memory_zero_bound (new_agent (Some 0%Z)) "ann"%string (L "q") (L "a"));
    [reflexivity | discriminate].
Qed.

(** ** The payload of a successful execution *)

Lemma text_eqb_eq a b : text_eqb a b = true <-> a = b.
Proof.
  revert b. induction a as [|x a IH]; intros [|y b]; simpl;
    try (split; [discriminate | congruence]); [tauto|].
  rewrite andb_true_iff, eqc_eq, IH. split; [intros [-> ->]; reflexivity|].
  intros H; inversion H; auto.
Qed.

Lemma text_eqb_refl a : text_eqb a a = true.
Proof. apply text_eqb_eq. reflexivity. Qed.

Lemma text_eqb_neq a b : a <> b -> text_eqb a b = false.
Proof.
  intros H. destruct (text_eqb a b) eqn:E; [|reflexivity].
  apply text_eqb_eq in E. contradiction.
Qed.

Section DictFacts.
Context {temporal : Type} (isoformat : temporal -> text).
Implicit Types (d : @dict temporal) (v : @value temporal).

Lemma dict_keys_set k v d : dict_keys (dict_set k v d) = add_name (dict_keys d) k.
Proof.
  induction d as [|[k' v'] t IH]; simpl; [reflexivity|].
  unfold add_name in *. simpl. destruct (text_eqb k k'); simpl; [reflexivity|].
  rewrite IH. destruct (existsb (text_eqb k) (dict_keys t)); reflexivity.
Qed.

Lemma dict_get_set k v d : dict_get k (dict_set k v d) = Some v.
Proof.
  induction d as [|[k' v'] t IH]; simpl.
  - rewrite text_eqb_refl. reflexivity.
  - destruct (text_eqb k k') eqn:E; simpl; rewrite E; [reflexivity | exact IH].
Qed.

Lemma dict_get_set_other k k' v d :
  k <> k' -> dict_get k (dict_set k' v d) = dict_get k d.
Proof.
  intros Hne. induction d as [|[k0 v0] t IH]; simpl.
  - rewrite (text_eqb_neq _ _ Hne). reflexivity.
  - destruct (text_eqb k' k0) eqn:E; simpl.
    + apply text_eqb_eq in E. subst k0. rewrite (text_eqb_neq _ _ Hne). reflexivity.
    + rewrite IH. reflexivity.
Qed.

Lemma dict_set_values (P : @value temporal -> Prop) k v d :
  P v -> (forall k0 v0, In (k0, v0) d -> P v0) ->
  forall k0 v0, In (k0, v0) (dict_set k v d) -> P v0.
Proof.
  intros Hv. induction d as [|[k' v'] t IH]; simpl; intros Hd k0 v0 Hin.
  - destruct Hin as [E | []]. inversion E; subst; assumption.
  - destruct (text_eqb k k'); simpl in Hin.
    + destruct Hin as [E | Hin]; [inversion E; subst; assumption | eauto].
    + destruct Hin as [E | Hin]; [eauto|]. apply (IH ltac:(eauto) _ _ Hin).
Qed.

Lemma convert_plain v : has_isoformat (convert isoformat v) = false.
Proof. destruct v; reflexivity. Qed.

Lemma row_to_dict_keys columns row : forall i d d',
  row_to_dict isoformat i columns row d = Ok d' ->
  dict_keys d' = fold_left add_name columns (dict_keys d).
Proof.
  induction columns as [|c rest IH]; intros i d d' H; simpl in *.
  - congruence.
  - destruct (nth_error row i); [|discriminate].
    rewrite (IH _ _ _ H), dict_keys_set. reflexivity.
Qed.

Lemma row_to_dict_plain columns row : forall i d d',
  row_to_dict isoformat i columns row d = Ok d' ->
  (forall k v, In (k, v) d -> has_isoformat v = false) ->
  forall k v, In (k, v) d' -> has_isoformat v = false.
Proof.
  induction columns as [|c rest IH]; intros i d d' H Hd; simpl in *.
  - inversion H; subst. assumption.
  - destruct (nth_error row i) as [x|]; [|discriminate].
    apply (IH _ _ _ H). apply dict_set_values; [apply convert_plain | assumption].
Qed.

Lemma row_to_dict_other columns row k : forall i d d',
  row_to_dict isoformat i columns row d = Ok d' -> ~ In k columns ->
  dict_get k d' = dict_get k d.
Proof.
  induction columns as [|c rest IH]; intros i d d' H Hk; simpl in *.
  - congruence.
  - destruct (nth_error row i) as [x|]; [|discriminate].
    rewrite (IH _ _ _ H) by tauto. apply dict_get_set_other. intros ->. tauto.
Qed.

Lemma row_to_dict_value columns row : forall i d d' j k,
  row_to_dict isoformat i columns row d = Ok d' ->
  nth_error columns j = Some k -> ~ In k (drop (S j) columns) ->
  dict_get k d' = option_map (convert isoformat) (nth_error row (i + j)).
Proof.
  induction columns as [|c rest IH]; intros i d d' j k H Hj Hk.
  - destruct j; discriminate Hj.
  - simpl in H. destruct (nth_error row i) as [x|] eqn:Hx; [|discriminate].
    destruct j as [|j]; simpl in Hj, Hk.
    + inversion Hj; subst c. rewrite (row_to_dict_other _ _ _ _ _ _ H Hk).
      rewrite dict_get_set, Nat.add_0_r, Hx. reflexivity.
    + rewrite (IH _ _ _ _ _ H Hj Hk). f_equal. f_equal. lia.
Qed.

Lemma row_to_dict_agrees columns row d :
  row_to_dict isoformat 0 columns row [] = Ok d -> row_agrees isoformat columns row d.
Proof.
  intros H. split; [|split].
  - exact (row_to_dict_keys _ _ _ _ _ H).
  - apply (row_to_dict_plain _ _ _ _ _ H). intros k v [].
  - intros i k Hi Hk. exact (row_to_dict_value _ _ _ _ _ _ _ H Hi Hk).
Qed.

Lemma rows_to_dicts_agree columns rows : forall data,
  rows_to_dicts isoformat columns rows = Ok data ->
  Forall2 (row_agrees isoformat columns) rows data.
Proof.
  induction rows as [|row rest IH]; intros data H; simpl in H.
  - inversion H. constructor.
  - destruct (row_to_dict isoformat 0 columns row []) as [d|] eqn:Hd; [|discriminate].
    simpl in H. destruct (rows_to_dicts isoformat columns rest) as [ds|] eqn:Hds;
      [|discriminate].
    simpl in H. inversion H; subst.
    constructor; [apply row_to_dict_agrees; assumption | apply IH; reflexivity].
Qed.

Context (now : text).
Implicit Types (db : @database temporal) (tr : trace).

Lemma run_query_trace db tr stmt :
  fst (run_query isoformat now db tr stmt) = tr ++ [stmt].
Proof. reflexivity. Qed.

Lemma run_query_success db tr stmt tr' p :
  run_query isoformat now db tr stmt = (tr', Ok p) ->
  tr' = tr ++ [stmt] /\
  exists data rs,
    p = query_result true stmt (length data) data now /\
    db (length tr) stmt = db_rows rs /\
    Forall2 (row_agrees isoformat (rs_keys rs)) (rs_rows rs) data.
Proof.
  unfold run_query. intros H. inversion H as [[Ht Hp]]. split; [reflexivity|].
  destruct (db (length tr) stmt) as [e|rs]; [discriminate|].
  destruct (rows_to_dicts isoformat (rs_keys rs) (rs_rows rs)) as [data|] eqn:Hd;
    [|discriminate].
  simpl in Hp. inversion Hp; subst. exists data, rs.
  repeat split. apply rows_to_dicts_agree. assumption.
Qed.

Lemma success_of_run db tr stmt tr' p ext :
  run_query isoformat now db tr stmt = (tr', Ok p) ->
  success_of isoformat db (tr' ++ ext) p.
Proof.
  intros H. apply run_query_success in H as (-> & data & rs & -> & Hdb & Hrows).
  exists stmt, data, now, (length tr), rs. repeat split; try assumption.
  rewrite <- app_assoc. rewrite nth_error_app2 by lia.
  rewrite Nat.sub_diag. reflexivity.
Qed.

End DictFacts.

(** The keys of a row: each column name once, where it first occurs. *)
Lemma add_name_In seen x k : In k (add_name seen x) <-> In k seen \/ k = x.
Proof.
  unfold add_name. destruct (existsb (text_eqb x) seen) eqn:E.
  - apply existsb_exists in E as (y & Hy & Hxy). apply text_eqb_eq in Hxy. subst y.
    split; [auto | intros [H | ->]; assumption].
  - rewrite in_app_iff. simpl. intuition congruence.
Qed.

Lemma fold_add_name_In names : forall seen k,
  In k (fold_left add_name names seen) <-> In k seen \/ In k names.
Proof.
  induction names as [|x t IH]; intros seen k; simpl; [tauto|].
  rewrite IH, add_name_In. intuition congruence.
Qed.

Lemma first_occurrences_In names k : In k (first_occurrences names) <-> In k names.
Proof. unfold first_occurrences. rewrite fold_add_name_In. simpl. tauto. Qed.

Lemma fold_add_name_nodup names : forall seen,
  List.NoDup names -> (forall k, In k names -> ~ In k seen) ->
  fold_left add_name names seen = seen ++ names.
Proof.
  induction names as [|x t IH]; intros seen Hnd Hdis; simpl.
  - rewrite app_nil_r. reflexivity.
  - inversion Hnd as [|? ? Hx Ht]; subst.
    assert (E : add_name seen x = seen ++ [x]).
    { unfold add_name. destruct (existsb (text_eqb x) seen) eqn:E; [|reflexivity].
      apply existsb_exists in E as (y & Hy & Hxy). apply text_eqb_eq in Hxy. subst y.
      exfalso. apply (Hdis x); simpl; auto. }
    rewrite E, IH, <- app_assoc; [reflexivity | assumption|].
    intros k Hk Hin. apply in_app_iff in Hin as [Hin | [-> | []]].
    + apply (Hdis k); simpl; auto.
    + contradiction.
Qed.

Lemma first_occurrences_nodup names :
  List.NoDup names -> first_occurrences names = names.
Proof.
  intros H. unfold first_occurrences. rewrite fold_add_name_nodup; auto.
Qed.

Section RecoverFacts.
Context {temporal : Type} (isoformat : temporal -> text) (now : text).
Implicit Types (db : @database temporal) (tr : trace) (p : @payload temporal).

(** What one guarded retry comes to. *)
Lemma retry_cases db tr sql rewritten :
  (changed sql rewritten = false /\
   retry isoformat now db tr sql rewritten = (tr, None)) \/
  (changed sql rewritten = true /\
   exists r, run_query isoformat now db tr rewritten = (tr ++ [rewritten], r) /\
     ((exists p, r = Ok p /\
         retry isoformat now db tr sql rewritten = (tr ++ [rewritten], Some p)) \/
      (exists e, r = Raise e /\
         retry isoformat now db tr sql rewritten = (tr ++ [rewritten], None)))).
Proof.
  unfold retry. destruct (changed sql rewritten); [right | left; auto].
  split; [reflexivity|].
  destruct (run_query isoformat now db tr rewritten) as [tr' r] eqn:E.
  assert (tr' = tr ++ [rewritten]) as ->
    by (pose proof (run_query_trace isoformat now db tr rewritten) as H;
        rewrite E in H; exact H).
  exists r. split; [reflexivity|].
  destruct r as [p|e]; [left; exists p | right; exists e]; auto.
Qed.

Lemma retry_success db tr sql rewritten tr' p :
  retry isoformat now db tr sql rewritten = (tr', Some p) ->
  success_of isoformat db tr' p.
Proof.
  intros H.
  destruct (retry_cases db tr sql rewritten)
    as [[_ E] | (_ & r & Hr & [(q & -> & E) | (e & -> & E)])];
    rewrite E in H; inversion H; subst.
  rewrite <- (app_nil_r (tr ++ [rewritten])).
  exact (success_of_run isoformat now db tr rewritten _ _ [] Hr).
Qed.

(** The [except] branch ends in a success payload of one of its
    retries, or in the generic failure. *)
Lemma recover_payload db sql e tr tr' p :
  recover isoformat now db sql e tr = (tr', p) ->
  success_of isoformat db tr' p \/ p = format_error_response now generic_failure.
Proof.
  unfold recover.
  destruct (if matches_limit_in e
            then retry isoformat now db tr sql (_rewrite_in_with_limit_to_join sql)
            else (tr, None)) as [tr1 [p1|]] eqn:E1.
  - intros H. inversion H; subst. left.
    destruct (matches_limit_in e); [|discriminate].
    exact (retry_success _ _ _ _ _ _ E1).
  - destruct (if matches_distinct sql e
              then retry isoformat now db tr1 sql (_fix_distinct_orderby_not_in_select sql)
              else (tr1, None)) as [tr2 [p2|]] eqn:E2; intros H; inversion H; subst.
    + left. destruct (matches_distinct sql e); [|discriminate].
      exact (retry_success _ _ _ _ _ _ E2).
    + right. reflexivity.
Qed.

End RecoverFacts.




(** ** Retries of [execute_sql] *)

(** C2 (as amended).  When the first execution of an accepted query
    fails, [execute_sql] makes at most one retry for each signature the
    error text matches: none when no signature applies (the payload is
    then the generic failure), exactly one, with the rewritten query,
    when exactly one signature applies and its rewrite changes the
    query, and a second one, with the DISTINCT rewrite of the original
    query, only when both signatures apply and the first retry has not
    succeeded.  A payload that is not a success is the generic failure. *)
Theorem retry_once_per_signature :
  forall (temporal : Type) (isoformat : temporal -> text) (now : text)
         (db : @database temporal) (sql e : text),
    preflight sql = Ok tt ->
    run_query isoformat now db [] sql = ([sql], Raise e) ->
    let in_rw := _rewrite_in_with_limit_to_join sql in
    let di_rw := _fix_distinct_orderby_not_in_select sql in
    let do_in := matches_limit_in e && changed sql in_rw in
    let do_di := matches_distinct sql e && changed sql di_rw in
    exists retries p,
      execute_sql isoformat now db sql = (sql :: retries, p) /\
      length retries <= 2 /\
      (do_in = false -> do_di = false ->
         retries = [] /\ p = format_error_response now generic_failure) /\
      (do_in = true -> do_di = false -> retries = [in_rw]) /\
      (do_in = false -> do_di = true -> retries = [di_rw]) /\
      (do_in = true -> do_di = true ->
         (retries = [in_rw] /\ payload_success p = true) \/ retries = [in_rw; di_rw]) /\
      (payload_success p = false -> p = format_error_response now generic_failure).
Proof.
  intros temporal isoformat now db sql e Hpre Hrun in_rw di_rw do_in do_di.
  unfold execute_sql. rewrite Hpre, Hrun. unfold recover.
  fold in_rw di_rw.
  assert (Hin : forall trx,
    (if matches_limit_in e then retry isoformat now db trx sql in_rw else (trx, None)) =
    (if do_in then retry isoformat now db trx sql in_rw else (trx, None))).
  { intros trx. subst do_in. destruct (matches_limit_in e); simpl; [|reflexivity].
    destruct (retry_cases isoformat now db trx sql in_rw) as [[Hc E] | [Hc _]];
      rewrite Hc; [exact E | reflexivity]. }
  assert (Hdi : forall trx,
    (if matches_distinct sql e then retry isoformat now db trx sql di_rw else (trx, None)) =
    (if do_di then retry isoformat now db trx sql di_rw else (trx, None))).
  { intros trx. subst do_di. destruct (matches_distinct sql e); simpl; [|reflexivity].
    destruct (retry_cases isoformat now db trx sql di_rw) as [[Hc E] | [Hc _]];
      rewrite Hc; [exact E | reflexivity]. }
  rewrite Hin. clear Hin.
  assert (Cin : do_in = true -> changed sql in_rw = true)
    by (subst do_in; intros H; apply andb_true_iff in H; tauto).
  assert (Cdi : do_di = true -> changed sql di_rw = true)
    by (subst do_di; intros H; apply andb_true_iff in H; tauto).
  clearbody do_in do_di.
  assert (Second : forall trx, exists ext p,
    (let '(tr2, r2) :=
       if matches_distinct sql e
       then retry isoformat now db trx sql di_rw else (trx, None) in
     match r2 with
     | Some p0 => (tr2, p0)
     | None => (tr2, format_error_response now generic_failure)
     end) = (trx ++ ext, p) /\
    (do_di = false -> ext = [] /\ p = format_error_response now generic_failure) /\
    (do_di = true -> ext = [di_rw]) /\
    (payload_success p = false -> p = format_error_response now generic_failure)).
  { intros trx. rewrite Hdi. destruct do_di.
    - destruct (retry_cases isoformat now db trx sql di_rw)
        as [[Hc _] | (_ & r & Hr & [(q & -> & E) | (e' & -> & E)])];
        [rewrite (Cdi eq_refl) in Hc; discriminate | |]; rewrite E.
      + exists [di_rw], q. repeat split; auto; try discriminate.
        intros Hq. apply run_query_success in Hr as (_ & data & rs & -> & _).
        simpl in Hq. congruence.
      + exists [di_rw], (format_error_response now generic_failure).
        repeat split; auto; discriminate.
    - exists [], (format_error_response now generic_failure).
      rewrite app_nil_r. repeat split; auto; discriminate. }
  destruct do_in.
  - destruct (retry_cases isoformat now db [sql] sql in_rw)
      as [[Hc _] | (_ & r & Hr & [(q & -> & E) | (e' & -> & E)])];
      [rewrite (Cin eq_refl) in Hc; discriminate | |]; rewrite E.
    + exists [in_rw], q.
      assert (Hq : payload_success q = true)
        by (apply run_query_success in Hr as (_ & data & rs & -> & _); reflexivity).
      simpl. repeat split; auto; try discriminate; congruence.
    + destruct (Second ([sql] ++ [in_rw])) as (ext & p & Ep & H0 & H1 & Hf).
      rewrite Ep. exists ([in_rw] ++ ext), p. split; [reflexivity|].
      destruct do_di.
      * rewrite (H1 eq_refl). simpl. repeat split; auto; discriminate.
      * destruct (H0 eq_refl) as [-> ->]. simpl. repeat split; auto; discriminate.
  - destruct (Second [sql]) as (ext & p & Ep & H0 & H1 & Hf).
    rewrite Ep. exists ext, p. split; [reflexivity|].
    destruct do_di.
    + rewrite (H1 eq_refl). simpl. repeat split; auto; discriminate.
    + destruct (H0 eq_refl) as [-> ->]. simpl. repeat split; auto; discriminate.
Qed.

Lemma retry_once_per_signature_witness :
  exists p,
    execute_sql iso0 now0 db_second_try q_in_limit =
    ([q_in_limit; _rewrite_in_with_limit_to_join q_in_limit], p) /\
    payload_success p = true.
Proof.
  destruct (retry_once_per_signature unit iso0 now0 db_second_try q_in_limit
              (err_1235 q_in_limit)
              ltac:(vm_compute; reflexivity) ltac:(vm_compute; reflexivity))
    as (retries & p & E & _ & _ & H10 & _ & _ & Hf).
  exists p. rewrite E, (H10 ltac:(vm_compute; reflexivity) ltac:(vm_compute; reflexivity)).
  split; [reflexivity|].
  destruct (payload_success p) eqn:Hs; [reflexivity|].
  rewrite (Hf eq_refl) in E. vm_compute in E. discriminate E.
Defined.

(** C2 (counterexample).  The database refuses every statement with
    error 1235 and quotes the statement in the error text, so the text
    of the first failure carries both signatures: the first execution of
    [q_both] fails, and two more statements are sent, the IN+LIMIT
    rewrite and then the DISTINCT rewrite. *)
Lemma second_retry_performed :
  preflight q_both = Ok tt /\
  run_query iso0 now0 refusing_db [] q_both = ([q_both], Raise (err_1235 q_both)) /\
  execute_sql iso0 now0 refusing_db q_both =
    ([q_both; _rewrite_in_with_limit_to_join q_both;
      _fix_distinct_orderby_not_in_select q_both],
     format_error_response now0 generic_failure) /\
  length (fst (execute_sql iso0 now0 refusing_db q_both)) = 3.
Proof. vm_compute. repeat split. Qed.

(** ** Review and fix *)

(** The rule-based fixes leave a query alone when none of the gated
    defects is flagged and the reordering has nothing to move. *)
Lemma deterministic_fix_idle issues sql :
  has_issue wrong_join_parent_contacts issues = false ->
  has_issue in_subquery_with_limit issues = false ->
  has_issue unwarranted_is_verified_filter issues = false ->
  has_issue distinct_orderby_not_in_select issues = false ->
  _reorder_top_level_order_limit sql = sql ->
  deterministic_fix issues sql = sql.
Proof.
  intros H1 H2 H3 H4 H5. unfold deterministic_fix, try_except, fix_wrong_join.
  rewrite H1, H2, H3, H4.
  assert (E : match search re_from_parents sql with
              | Some _ => match search re_join_contacts sql with
                          | Some _ => sql
                          | None => sql
                          end
              | None => sql
              end = sql)
    by (destruct (search re_from_parents sql), (search re_join_contacts sql); reflexivity).
  rewrite E, H5. reflexivity.
Qed.

(** The secondary review fails: the service cannot be reached, answers
    with a status other than 200, or sends no content. *)
Lemma llm_review_fails llm natural_query sql issues :
  (exists e, _llm_review_sql_openai llm natural_query sql issues = Raise e) <->
  (exists e, llm natural_query sql issues = http_failure e) \/
  (exists status content,
     llm natural_query sql issues = http_reply status content /\
     (status <> 200 \/ content = [])).
Proof.
  unfold _llm_review_sql_openai. destruct (llm natural_query sql issues) as [e|st content].
  - split; eauto.
  - destruct (Nat.eqb_spec st 200) as [-> | Hne]; simpl.
    + destruct content as [|c content]; simpl.
      * split; [intros _; right; exists 200, []; auto | eauto].
      * split; [intros [e He]; discriminate He|].
        intros [[e He] | (s' & c' & He & [Hs | Hc])]; [discriminate He | |];
          inversion He; subst; congruence.
    + split; [intros _; right; eauto | eauto].
Qed.

(** C4.  Review-and-fix returns a query for every question and every
    query, whatever the completion service does.  The query returned is
    the input itself when no defect is found; otherwise it is the
    rule-based rewrite of the input, unless the service answers with
    status 200 and a content that is not empty once its fences are
    stripped, which is then returned.  So when the review fails and no
    rule-based fix applies, the input comes back unchanged. *)
Theorem review_never_raises :
  forall (llm : completion_service) (natural_query sql : text),
    exists q,
      evaluate_and_fix_sql llm natural_query sql = Ok q /\
      _review_and_fix_sql llm natural_query sql = Ok q /\
      (_static_sql_issues sql natural_query = [] -> q = sql) /\
      (q = rewrite natural_query sql \/
       exists content,
         llm natural_query (rewrite natural_query sql)
             (_static_sql_issues sql natural_query) = http_reply 200 content /\
         q = strip_fences content /\ q <> []) /\
      ((exists e, _llm_review_sql_openai llm natural_query (rewrite natural_query sql)
                    (_static_sql_issues sql natural_query) = Raise e) ->
       q = rewrite natural_query sql /\ (rewrite natural_query sql = sql -> q = sql)).
Proof.
  intros llm nq sql. unfold evaluate_and_fix_sql, _review_and_fix_sql, rewrite.
  destruct (_static_sql_issues sql nq) as [|i issues] eqn:Ei; cbn [is_empty].
  - exists sql. repeat split; auto.
  - set (fixed_sql := deterministic_fix (i :: issues) sql).
    unfold _llm_review_sql_openai.
    destruct (llm nq fixed_sql (i :: issues)) as [e|st content] eqn:El.
    + exists fixed_sql. cbn [mbind result_bind try_except].
      repeat split; auto; try discriminate.
    + destruct (Nat.eqb_spec st 200) as [-> | Hne]; cbn [negb].
      * destruct content as [|c content]; cbn [is_empty].
        -- exists fixed_sql. cbn [mbind result_bind try_except].
           repeat split; auto; try discriminate.
        -- cbn [mbind result_bind try_except].
           destruct (strip_fences (c :: content)) as [|y ys] eqn:Es; cbn [is_empty].
           ++ exists fixed_sql.
              repeat split; auto; try discriminate;
                try (intros [e He]; discriminate He);
                try (match goal with
                     | H : exists e, _ = Raise e |- _ =>
                         destruct H as [? H]; discriminate H
                     end).
           ++ exists (y :: ys).
              repeat split; auto; try discriminate;
                try (intros [e He]; discriminate He);
                try (match goal with
                     | H : exists e, _ = Raise e |- _ =>
                         destruct H as [? H]; discriminate H
                     end).
              right. exists (c :: content).
              repeat split; auto; try (symmetry; exact Es); try discriminate.
      * exists fixed_sql. cbn [mbind result_bind try_except].
        repeat split; auto; try discriminate.
Qed.

(** Empty input comes back unchanged when the review fails. *)
Lemma review_of_empty_query llm natural_query :
  (forall q i, exists e, llm natural_query q i = http_failure e) ->
  evaluate_and_fix_sql llm natural_query [] = Ok [].
Proof.
  intros Hf. unfold evaluate_and_fix_sql, _review_and_fix_sql.
  destruct (_static_sql_issues [] natural_query) as [|i issues] eqn:Ei; [reflexivity|].
  cbn [is_empty].
  assert (R : deterministic_fix (i :: issues) [] = []).
  { rewrite <- Ei.
    apply deterministic_fix_idle; try reflexivity;
      unfold _static_sql_issues; cbn -[_wants_list wants_verified];
      destruct (_wants_list natural_query), (wants_verified natural_query); reflexivity. }
  rewrite R. unfold _llm_review_sql_openai.
  destruct (Hf [] (i :: issues)) as [e ->]. reflexivity.
Qed.

(** ** The IN+LIMIT rewrite on the example of the specification *)

(** C6.  On the example query the rewrite inserts, right after
    [FROM parents p], an inner join of [p] with the inner subquery as a
    derived table, on [p.id = recent_parent_ids.parent_id]; the IN
    predicate is gone, and so is its WHERE keyword; the detector no
    longer finds a LIMIT inside an IN subquery. *)
Theorem in_limit_example_rewritten :
  _rewrite_in_with_limit_to_join q_in_limit = q_in_limit_rewritten /\
  contains (L "INNER JOIN (SELECT parent_id FROM x ORDER BY y LIMIT 5) AS recent_parent_ids ON p.id = recent_parent_ids.parent_id")
           (_rewrite_in_with_limit_to_join q_in_limit) = true /\
  contains (L " IN ") (upper (_rewrite_in_with_limit_to_join q_in_limit)) = false /\
  contains (L "WHERE") (upper (_rewrite_in_with_limit_to_join q_in_limit)) = false /\
  has_issue in_subquery_with_limit (_static_sql_issues q_in_limit []) = true /\
  has_issue in_subquery_with_limit
            (_static_sql_issues (_rewrite_in_with_limit_to_join q_in_limit) []) = false.
Proof. vm_compute. repeat split. Qed.

(** ** Occurrences, white space around a text, and pieces of a match *)

Lemma occurs_cursors r s :
  occurs r s <-> exists c c', subject c = s /\ matches r c c'.
Proof.
  split.
  - intros (pre & w & post & Hs & Hm). eexists _, _. split; [|exact Hm].
    unfold subject. simpl. rewrite rev_involutive. auto.
  - intros (c & c' & Hs & Hm). destruct (matches_reads _ _ _ Hm) as (w & Ha & Hb).
    exists (rev (before c)), w, (after c'). split.
    + rewrite <- Hs. unfold subject. rewrite Ha. reflexivity.
    + unfold occurs_at. rewrite rev_involutive, <- Ha, <- Hb.
      destruct c, c'; exact Hm.
Qed.

Lemma blank_not_word s c : blank s -> In c s -> is_word c = false.
Proof.
  unfold blank. rewrite forallb_forall. intros H Hc. apply space_not_word, H, Hc.
Qed.

Lemma blank_rev s : blank s -> blank (rev s).
Proof.
  unfold blank. rewrite !forallb_forall. intros H c Hc. apply H, in_rev, Hc.
Qed.

Lemma lstrip_blank ws s : blank ws -> lstrip (ws ++ s) = lstrip s.
Proof.
  unfold blank. induction ws as [|c ws IH]; simpl; [reflexivity|].
  intros H. apply andb_true_iff in H as [-> H]. auto.
Qed.

Lemma rstrip_spec s : exists ws, s = rstrip s ++ ws /\ blank ws.
Proof.
  unfold rstrip. destruct (lstrip_spec (rev s)) as (ws & Hs & Hw & _).
  exists (rev ws). split.
  - rewrite <- rev_app_distr, <- Hs, rev_involutive. reflexivity.
  - apply blank_rev. exact Hw.
Qed.

(** A text is its trimmed form between two runs of white space. *)
Lemma strip_spec s :
  exists lead trail, s = lead ++ strip s ++ trail /\ blank lead /\ blank trail.
Proof.
  destruct (lstrip_spec s) as (lead & Hs & Hl & _).
  destruct (rstrip_spec (lstrip s)) as (trail & Ht & Hb).
  exists lead, trail. unfold strip. rewrite <- Ht. auto.
Qed.

Lemma blank_head s : blank s -> match s with x :: _ => is_word x | [] => false end = false.
Proof.
  destruct s as [|x t]; [reflexivity|]. intros H.
  apply (blank_not_word (x :: t)); [assumption | left; reflexivity].
Qed.

Section Widen.
Context (lx rx : text) (Hlx : blank lx) (Hrx : blank rx).

Lemma widen_boundary c : at_boundary (widen lx rx c) = at_boundary c.
Proof.
  unfold at_boundary, word_before, word_after, widen. simpl. f_equal.
  - destruct (before c); simpl; [apply blank_head; assumption | reflexivity].
  - destruct (after c); simpl; [apply blank_head; assumption | reflexivity].
Qed.

(** White space added around the subject does not disturb a match of a
    pattern without anchors. *)
Lemma matches_widen r c c' :
  anchor_free r = true -> matches r c c' -> matches r (widen lx rx c) (widen lx rx c').
Proof.
  intros Hr Hm. induction Hm; simpl in Hr;
    try (apply andb_true_iff in Hr as [Hr1 Hr2]); try discriminate.
  - constructor.
  - unfold widen. simpl. constructor. assumption.
  - econstructor; eauto.
  - apply m_alt_l; auto.
  - apply m_alt_r; auto.
  - constructor.
  - unfold widen in *. simpl in *. apply m_star_more; auto.
  - constructor. rewrite widen_boundary. assumption.
  - constructor. auto.
Qed.

End Widen.

Lemma occurs_between r lead s trail :
  anchor_free r = true -> blank lead -> blank trail ->
  occurs r s -> occurs r (lead ++ s ++ trail).
Proof.
  intros Hr Hl Ht Ho. apply occurs_cursors in Ho as (c & c' & Hs & Hm).
  apply occurs_cursors.
  exists (widen (rev lead) trail c), (widen (rev lead) trail c'). split.
  - unfold subject, widen. simpl. rewrite rev_app_distr, rev_involutive, <- !app_assoc.
    f_equal. rewrite app_assoc. f_equal. exact Hs.
  - apply matches_widen; auto. apply blank_rev. assumption.
Qed.

Lemma occurs_strip r s : anchor_free r = true -> occurs r (strip s) -> occurs r s.
Proof.
  intros Hr Ho. destruct (strip_spec s) as (lead & trail & Hs & Hl & Ht).
  rewrite Hs. apply occurs_between; assumption.
Qed.

(** The pieces of a sequence. *)
Lemma matches_plus g p c c' :
  matches (plus g p) c c' ->
  (exists y t, after c = y :: t /\ p y = true) /\
  (exists x l, before c' = x :: l /\ p x = true).
Proof.
  unfold plus. intros H. apply matches_seq in H as (c1 & H1 & H2).
  apply matches_chr in H1 as (y & Hy & Ha & Hb).
  apply matches_star in H2 as (w & Hw & Ha' & Hb').
  split; [eauto|].
  destruct (rev w) as [|x l] eqn:E.
  - exists y, (before c). simpl in Hb'. rewrite Hb', Hb. auto.
  - exists x, (l ++ before c1). simpl in Hb'. split; [exact Hb'|].
    rewrite forallb_forall in Hw. apply Hw, in_rev. rewrite E. left. reflexivity.
Qed.

Lemma keyword_edges k c c' :
  word_edges k -> matches (lit true k) c c' ->
  word_after c = true /\ word_before c' = true.
Proof.
  intros Hk H. apply matches_keyword in H as (x & Hx & Ha & Hb).
  destruct (keyword_first _ _ Hk Hx) as (a & w' & Hw & Hwa).
  destruct (keyword_last _ _ Hk Hx) as (w'' & z & Hz & Hwz).
  unfold word_after, word_before. split.
  - rewrite Ha, Hw. simpl. exact Hwa.
  - rewrite Hb, Hz, rev_app_distr. simpl. exact Hwz.
Qed.

(** A keyword between two runs of white space is a whole word. *)
Lemma keyword_after_space k c0 c c' :
  word_edges k -> matches ws1 c0 c -> matches (lit true k) c c' ->
  at_boundary c = true.
Proof.
  intros Hk Hs Hm. destruct (keyword_edges _ _ _ Hk Hm) as [Ha _].
  apply matches_plus in Hs as [_ (x & l & Hb & Hx)].
  unfold at_boundary. rewrite Ha. unfold word_before. rewrite Hb.
  rewrite (space_not_word _ Hx). reflexivity.
Qed.

Lemma keyword_before_space k c c' c'' :
  word_edges k -> matches (lit true k) c c' -> matches ws1 c' c'' ->
  at_boundary c' = true.
Proof.
  intros Hk Hm Hs. destruct (keyword_edges _ _ _ Hk Hm) as [_ Hb].
  apply matches_plus in Hs as [(y & t & Ha & Hy) _].
  unfold at_boundary. rewrite Hb. unfold word_after. rewrite Ha.
  rewrite (space_not_word _ Hy). reflexivity.
Qed.

(** [\bKEYWORD\b] occurs exactly where the keyword is a whole word. *)
Lemma whole_word_occurs n k s :
  word_edges k ->
  (occurs (seqs [WordB; Grp n (lit true k); WordB]) s <-> whole_word_in k s).
Proof.
  intros Hk. unfold occurs, occurs_at, whole_word_in. split.
  - intros (pre & w & post & Hs & Hm).
    apply (whole_word_occurs_at n k pre w post Hk) in Hm. eauto 8.
  - intros (pre & w & post & Hs & Hw). exists pre, w, post. split; [assumption|].
    apply (whole_word_occurs_at n k pre w post Hk). exact Hw.
Qed.

Lemma anchor_free_lit ci k : anchor_free (lit ci k) = true.
Proof.
  induction k as [|a k IH]; [reflexivity|]. destruct k; [reflexivity|].
  change (lit ci (a :: a0 :: k)) with (Seq (Chr (is_char ci a)) (lit ci (a0 :: k))).
  simpl anchor_free. exact IH.
Qed.

Lemma whole_word_strip k s : word_edges k -> whole_word_in k (strip s) -> whole_word_in k s.
Proof.
  intros Hk H. apply (whole_word_occurs 0 k _ Hk).
  apply occurs_strip; [simpl; rewrite anchor_free_lit; reflexivity|].
  apply (whole_word_occurs 0 k _ Hk). exact H.
Qed.

(** ** Rewrites without their anchor *)

Lemma matches_plus_text g p c c' :
  matches (plus g p) c c' <->
  exists w, w <> [] /\ forallb p w = true /\
            after c = w ++ after c' /\ before c' = rev w ++ before c.
Proof.
  unfold plus. rewrite matches_seq. split.
  - intros (c1 & H1 & H2). apply matches_chr in H1 as (y & Hy & Ha & Hb).
    apply matches_star in H2 as (w & Hw & Ha' & Hb').
    exists (y :: w). simpl. rewrite Hy, Hw, Ha, Ha', Hb', Hb, <- app_assoc.
    repeat split; auto; try discriminate.
  - intros (w & Hne & Hw & Ha & Hb). destruct w as [|y w]; [congruence|].
    simpl in Hw. apply andb_true_iff in Hw as [Hy Hw].
    exists (Cur (y :: before c) (w ++ after c')). split.
    + apply matches_chr. exists y. simpl. auto.
    + apply matches_star. exists w. simpl. simpl in Hb.
      rewrite Hb, <- app_assoc. auto.
Qed.

Lemma word_edges_FROM : word_edges (L "FROM").
Proof. split; reflexivity. Qed.

Lemma word_edges_BY : word_edges (L "BY").
Proof. split; reflexivity. Qed.

Lemma word_edges_SELECT : word_edges (L "SELECT").
Proof. split; reflexivity. Qed.

Lemma word_edges_DISTINCT : word_edges (L "DISTINCT").
Proof. split; reflexivity. Qed.

(** Where [SELECT DISTINCT <list> FROM] is found, FROM is a whole word. *)
Lemma distinct_list_has_from s :
  occurs re_distinct_list s -> whole_word_in (L "FROM") s.
Proof.
  intros Ho. apply occurs_cursors in Ho as (c & c' & Hs & H).
  pose proof (matches_subject _ _ _ H) as Hs'.
  unfold re_distinct_list in H. cbn [seqs] in H.
  apply matches_seq in H as (c1 & P1 & H). apply matches_seq in H as (c2 & P2 & H).
  apply matches_seq in H as (c3 & P3 & H). apply matches_seq in H as (c4 & P4 & H).
  apply matches_seq in H as (c5 & P5 & H). apply matches_seq in H as (c6 & P6 & H).
  apply matches_seq in H as (c7 & P7 & H). apply matches_seq in H as (c8 & P8 & H).
  apply matches_seq in H as (c9 & P9 & P10).
  apply (whole_word_occurs 0 _ _ word_edges_FROM), occurs_cursors.
  exists c8, c9. split.
  - rewrite <- (matches_subject _ _ _ P9), <- (matches_subject _ _ _ P10), Hs'.
    exact Hs.
  - cbn [seqs]. apply matches_seq. exists c8. split.
    { apply matches_wordb. split; [reflexivity|].
      exact (keyword_after_space _ _ _ _ word_edges_FROM P8 P9). }
    apply matches_seq. exists c9. split; [apply matches_grp; exact P9|].
    apply matches_wordb. split; [reflexivity|].
    exact (keyword_before_space _ _ _ _ word_edges_FROM P9 P10).
Qed.

(** Where [ORDER BY <list>] is found, the keyword pair stands. *)
Lemma order_by_list_has_keyword s :
  occurs re_order_by_list s -> has_order_by s.
Proof.
  intros Ho. apply occurs_cursors in Ho as (c & c' & Hs & H).
  unfold re_order_by_list in H. cbn [seqs] in H.
  apply matches_seq in H as (c1 & P1 & H). apply matches_seq in H as (c2 & P2 & H).
  apply matches_seq in H as (c3 & P3 & H). apply matches_seq in H as (c4 & P4 & H).
  apply matches_seq in H as (c5 & P5 & H).
  apply occurs_cursors. exists c, c4. split; [assumption|].
  unfold order_by_keyword. cbn [seqs].
  apply matches_seq. exists c1. split; [assumption|].
  apply matches_seq. exists c2. split; [assumption|].
  apply matches_seq. exists c3. split; [assumption|].
  apply matches_seq. exists c4. split; [assumption|].
  apply matches_wordb. split; [reflexivity|].
  exact (keyword_before_space _ _ _ _ word_edges_BY P4 P5).
Qed.

Lemma word_not_space a : is_word a = true -> is_space a = false.
Proof.
  intros H. destruct (is_space a) eqn:E; [|reflexivity].
  apply space_not_word in E. congruence.
Qed.

(** A trimmed text on which [^\s*SELECT\s+DISTINCT\b] matches begins
    with SELECT DISTINCT. *)
Lemma select_distinct_begins sql :
  occurs re_select_distinct (strip sql) -> begins_select_distinct sql.
Proof.
  intros Ho. apply occurs_cursors in Ho as (c & c' & Hs & H).
  unfold re_select_distinct in H. cbn [seqs] in H.
  apply matches_seq in H as (c1 & P1 & H). apply matches_seq in H as (c2 & P2 & H).
  apply matches_seq in H as (c3 & P3 & H). apply matches_seq in H as (c4 & P4 & H).
  apply matches_seq in H as (c5 & P5 & P6).
  apply matches_bos in P1 as [-> B]. unfold at_bos in B.
  destruct c as [[|? ?] t]; [simpl in *|discriminate B]. unfold subject in Hs. simpl in Hs.
  subst t.
  apply matches_star in P2 as (w0 & Hw0 & A2 & _). simpl in A2.
  pose proof P3 as K3. apply matches_keyword in P3 as (x1 & Hx1 & A3 & _).
  apply matches_plus_text in P4 as (ws & Hne & Hws & A4 & _).
  pose proof P5 as K5. apply matches_keyword in P5 as (x2 & Hx2 & A5 & _).
  apply matches_wordb in P6 as [-> B6].
  destruct (keyword_edges _ _ _ word_edges_DISTINCT K5) as [_ Hb5].
  unfold at_boundary in B6. rewrite Hb5 in B6. simpl in B6.
  apply negb_true_iff in B6.
  destruct (strip_spec sql) as (lead & trail & Hsql & Hl & Ht).
  destruct (keyword_first _ _ word_edges_SELECT Hx1) as (a & x1' & Ex1 & Ha).
  exists x1, ws, x2, (after c5 ++ trail). repeat split; auto.
  - rewrite Hsql, A2, A3, A4, A5, <- !app_assoc.
    rewrite (lstrip_blank lead) by assumption.
    rewrite (lstrip_blank w0) by assumption.
    rewrite Ex1. simpl. rewrite (word_not_space _ Ha). reflexivity.
  - unfold starts_clear. unfold word_after in B6.
    destruct (after c5) as [|y t]; simpl; [|assumption].
    pose proof (blank_head _ Ht) as Hh. destruct trail; [exact I | exact Hh].
Qed.



(** ** Scanning loops and [rfind] *)

Lemma subject_step c c' : step c = Some c' -> subject c' = subject c.
Proof.
  unfold step. destruct c as [l [|x t]]; [discriminate|].
  intros H. inversion H. unfold subject. simpl. rewrite <- app_assoc. reflexivity.
Qed.

Lemma search_from_subject r l rest m :
  search_from r l rest = Some m ->
  matches r (m_from m) (m_to m) /\ subject (m_from m) = rev l ++ rest.
Proof.
  intros H. destruct (search_from_sound _ _ _ _ H) as (pre & post & Hr & Hf & Hm & _).
  split; [assumption|]. rewrite Hf, Hr. unfold subject. simpl.
  rewrite rev_app_distr, rev_involutive, <- app_assoc. reflexivity.
Qed.

(** Every match that [finditer] yields is a match of the pattern in the
    subject. *)
Lemma finditer_from_sound fuel r : forall c m,
  In m (finditer_from fuel r c) ->
  matches r (m_from m) (m_to m) /\ subject (m_from m) = subject c.
Proof.
  induction fuel as [|f IH]; intros c m Hin; simpl in Hin; [contradiction|].
  destruct (search_from r (before c) (after c)) as [m0|] eqn:Hs; [|contradiction].
  destruct (search_from_subject _ _ _ _ Hs) as [Hm0 Hsub].
  destruct Hin as [<- | Hin]; [split; assumption|].
  assert (Hto : subject (m_to m0) = subject c).
  { rewrite (matches_subject _ _ _ Hm0). exact Hsub. }
  destruct (m_end m0 =? m_start m0).
  - destruct (step (m_to m0)) as [c'|] eqn:Hst; [|contradiction].
    destruct (IH _ _ Hin) as [H1 H2]. split; [assumption|].
    rewrite H2, (subject_step _ _ Hst). exact Hto.
  - destruct (IH _ _ Hin) as [H1 H2]. split; [assumption|]. congruence.
Qed.

Lemma finditer_none r s : search r s = None -> finditer r s = [].
Proof. unfold finditer, search. simpl. intros ->. reflexivity. Qed.

Lemma pos_le_subject c : pos c <= length (subject c).
Proof. unfold pos, subject. rewrite length_app, length_rev. lia. Qed.

Lemma first_top_level_some r s i :
  first_top_level r s = Some i ->
  exists m, matches r (m_from m) (m_to m) /\ subject (m_from m) = s /\
            m_start m = i /\ i <= length s.
Proof.
  unfold first_top_level.
  destruct (List.find _ (finditer r s)) as [m|] eqn:Hf; [|discriminate].
  intros H. inversion H; subst. apply List.find_some in Hf as [Hin _].
  destruct (finditer_from_sound _ _ _ _ Hin) as [Hm Hs].
  exists m. unfold subject at 2 in Hs. simpl in Hs. repeat split; auto.
  unfold m_start. rewrite <- Hs. apply pos_le_subject.
Qed.

Lemma first_top_level_none r s : ~ occurs r s -> first_top_level r s = None.
Proof.
  intros H. apply search_none in H. unfold first_top_level.
  rewrite (finditer_none _ _ H). reflexivity.
Qed.

Lemma contains_drop needle k t :
  startswith needle (drop k t) = true -> contains needle t = true.
Proof.
  intros H. apply startswith_app in H as [rest Hr]. apply contains_app.
  exists (take k t), rest. rewrite <- Hr. symmetry. apply firstn_skipn.
Qed.

Lemma rfind_from_some needle t : forall i j,
  rfind_from needle t i = Some j ->
  exists k, j = i + k /\ k <= length t /\ startswith needle (drop k t) = true.
Proof.
  induction t as [|x t IH]; intros i j H; simpl in H.
  - destruct (startswith needle []) eqn:E; [|discriminate]. inversion H; subst.
    exists 0. simpl. repeat split; auto.
  - destruct (rfind_from needle t (S i)) as [j'|] eqn:Hr.
    + inversion H; subst. destruct (IH _ _ Hr) as (k & -> & Hk & Hs).
      exists (S k). simpl. repeat split; auto; lia.
    + destruct (startswith needle (x :: t)) eqn:E; [|discriminate]. inversion H; subst.
      exists 0. simpl. repeat split; auto; lia.
Qed.

Lemma rfind_some needle t j :
  rfind needle t = Some j -> j <= length t /\ startswith needle (drop j t) = true.
Proof.
  intros H. destruct (rfind_from_some _ _ _ _ H) as (k & -> & Hk & Hs). auto.
Qed.

Lemma rfind_absent needle t : contains needle t = false -> rfind needle t = None.
Proof.
  intros H. destruct (rfind needle t) as [j|] eqn:E; [|reflexivity].
  destruct (rfind_some _ _ _ E) as [_ Hs]. apply contains_drop in Hs. congruence.
Qed.

Lemma contains_char a s : contains [a] s = true <-> In a s.
Proof.
  rewrite contains_app. split.
  - intros (pre & post & ->). apply in_or_app. right. left. reflexivity.
  - intros H. apply in_split in H as (pre & post & ->). eauto.
Qed.

Lemma matches_seqs_app rs1 rs2 c c' :
  matches (seqs (rs1 ++ rs2)) c c' <->
  exists c1, matches (seqs rs1) c c1 /\ matches (seqs rs2) c1 c'.
Proof.
  revert c. induction rs1 as [|r rs1 IH]; intros c.
  - simpl. split.
    + intros H. exists c. split; [constructor | assumption].
    + intros (c1 & H1 & H2). apply matches_eps in H1. subst. assumption.
  - change ((r :: rs1) ++ rs2) with (r :: (rs1 ++ rs2)). rewrite !matches_seqs. split.
    + intros (c1 & H1 & H2). apply IH in H2 as (c2 & H2 & H3).
      exists c2. split; [|assumption]. apply matches_seqs. eauto.
    + intros (c2 & H12 & H3). apply matches_seqs in H12 as (c1 & H1 & H2).
      exists c1. split; [assumption|]. apply IH. eauto.
Qed.

(** ** The clause patterns of [_find_top_level_clause_index] *)

Lemma clause_pattern_order_by :
  clause_pattern (L "ORDER BY") =
  seqs ((WordB :: chars "ORDER") ++
        Chr (is_char true (ch "\")) ::
        (plus Greedy (is_char true (ch "s")) :: chars "BY" ++ [WordB])).
Proof. reflexivity. Qed.

Lemma backslash_only x : is_char true (ch "\") x = true -> x = ch "\".
Proof.
  intros H. apply eqc_eq.
  revert H. generalize x.
  assert (G : forall y, implb (is_char true (ch "\") y) (eqc y (ch "\")) = true).
  { apply forall_ascii_spec. vm_compute. reflexivity. }
  intros y Hy. specialize (G y). rewrite Hy in G. exact G.
Qed.

(** The pattern compiled for ORDER BY asks for a backslash: it occurs
    in no text without one. *)
Lemma order_by_pattern_needs_backslash s :
  occurs (clause_pattern (L "ORDER BY")) s -> In (ch "\") s.
Proof.
  intros Ho. apply occurs_cursors in Ho as (c & c' & Hs & H).
  rewrite clause_pattern_order_by in H.
  apply matches_seqs_app in H as (c1 & H1 & H2).
  apply matches_seqs in H2 as (c2 & H2 & H3).
  apply matches_chr in H2 as (x & Hx & Ha & Hb).
  apply backslash_only in Hx. subst x.
  rewrite <- Hs, <- (matches_subject _ _ _ H1).
  unfold subject. rewrite Ha. apply in_or_app. right. left. reflexivity.
Qed.

Lemma order_by_never_top_level s :
  contains (L "\") s = false -> _find_top_level_clause_index s (L "ORDER BY") = None.
Proof.
  intros H. apply first_top_level_none. intros Ho.
  apply order_by_pattern_needs_backslash in Ho.
  apply (contains_char (ch "\")) in Ho. change [ch "\"] with (L "\") in Ho. congruence.
Qed.

Lemma lit_is_chars w : lit true (L w) = seqs (chars w).
Proof.
  unfold chars. induction (L w) as [|a t IH]; [reflexivity|].
  destruct t as [|b t]; [reflexivity|].
  change (lit true (a :: b :: t)) with (Seq (Chr (is_char true a)) (lit true (b :: t))).
  rewrite IH. reflexivity.
Qed.

(** The LIMIT pattern occurs only in a text that holds LIMIT in some
    letter case. *)
Lemma limit_pattern_needs_limit s :
  occurs (clause_pattern (L "LIMIT")) s -> contains (L "LIMIT") (upper s) = true.
Proof.
  intros Ho. apply occurs_cursors in Ho as (c & c' & Hs & H).
  change (clause_pattern (L "LIMIT")) with (seqs ([WordB] ++ chars "LIMIT" ++ [WordB])) in H.
  apply matches_seqs_app in H as (c1 & H1 & H2).
  apply matches_seqs_app in H2 as (c2 & H2 & H3).
  rewrite <- lit_is_chars in H2. apply matches_keyword in H2 as (x & Hx & Ha & Hb).
  rewrite <- Hs, <- (matches_subject _ _ _ H1). unfold subject.
  rewrite Ha, !upper_app. unfold same_ci in Hx. rewrite Hx.
  apply contains_app. exists (upper (rev (before c1))), (upper (after c2)). reflexivity.
Qed.

Lemma limit_absent s :
  contains (L "LIMIT") (upper s) = false -> clause_index s (L "LIMIT") = None.
Proof.
  intros H. unfold clause_index, _find_top_level_clause_index.
  rewrite first_top_level_none.
  - apply rfind_absent. exact H.
  - intros Ho. apply limit_pattern_needs_limit in Ho. congruence.
Qed.

Lemma clause_index_bound s clause i : clause_index s clause = Some i -> i <= length s.
Proof.
  unfold clause_index, _find_top_level_clause_index.
  destruct (first_top_level (clause_pattern clause) s) as [j|] eqn:E.
  - intros H. inversion H; subst. apply first_top_level_some in E as (m & _ & _ & _ & Hi).
    exact Hi.
  - intros H. apply rfind_some in H as [Hi _]. rewrite upper_length in Hi. exact Hi.
Qed.

(** ** Reordering LIMIT and ORDER BY *)

Lemma slice_drop a b (s : text) : a <= b -> slice a b s ++ drop b s = drop a s.
Proof.
  intros H. unfold slice. rewrite <- (firstn_skipn (b - a) (drop a s)) at 2.
  f_equal. rewrite drop_drop. f_equal. lia.
Qed.

Lemma slices_cover l o e (s : text) :
  l <= o -> o <= e ->
  s = take l s ++ slice l o s ++ slice o e s ++ drop e s.
Proof.
  intros H1 H2. rewrite (slice_drop o e s H2), (slice_drop l o s H1).
  symmetry. apply firstn_skipn.
Qed.

Lemma upper_drop k s : upper (drop k s) = drop k (upper s).
Proof. unfold upper. symmetry. apply skipn_map. Qed.

Lemma startswith_prefix p1 p2 t : startswith (p1 ++ p2) t = true -> startswith p1 t = true.
Proof.
  rewrite !startswith_app. intros [rest ->]. exists (p2 ++ rest).
  rewrite <- app_assoc. reflexivity.
Qed.

Lemma match_after c s : subject c = s -> after c = drop (pos c) s.
Proof.
  intros <-. unfold subject, pos. rewrite <- length_rev.
  rewrite drop_app_length. reflexivity.
Qed.

(** The clause located starts with its keyword. *)
Lemma limit_index_starts s l :
  clause_index s (L "LIMIT") = Some l ->
  startswith (L "LIMIT") (upper (drop l s)) = true.
Proof.
  unfold clause_index, _find_top_level_clause_index.
  destruct (first_top_level (clause_pattern (L "LIMIT")) s) as [j|] eqn:E.
  - intros H. inversion H; subst.
    apply first_top_level_some in E as (m & Hm & Hs & Hi & _).
    change (clause_pattern (L "LIMIT")) with (seqs ([WordB] ++ chars "LIMIT" ++ [WordB])) in Hm.
    apply matches_seqs_app in Hm as (c1 & H1 & H2).
    apply matches_seqs_app in H2 as (c2 & H2 & H3).
    rewrite <- lit_is_chars in H2. apply matches_keyword in H2 as (x & Hx & Ha & Hb).
    simpl in H1. apply matches_wordb in H1 as [-> _].
    rewrite <- Hi. unfold m_start. rewrite <- (match_after _ _ Hs), Ha, upper_app.
    unfold same_ci in Hx. rewrite Hx. apply startswith_app. eauto.
  - intros H. apply rfind_some in H as [_ Hs]. rewrite upper_drop. exact Hs.
Qed.

Lemma order_index_starts s o :
  clause_index s (L "ORDER BY") = Some o ->
  startswith (L "ORDER") (upper (drop o s)) = true.
Proof.
  unfold clause_index, _find_top_level_clause_index.
  destruct (first_top_level (clause_pattern (L "ORDER BY")) s) as [j|] eqn:E.
  - intros H. inversion H; subst.
    apply first_top_level_some in E as (m & Hm & Hs & Hi & _).
    rewrite clause_pattern_order_by in Hm.
    apply matches_seqs_app in Hm as (c1 & H1 & _).
    apply matches_seqs in H1 as (c0 & H0 & H1).
    rewrite <- lit_is_chars in H1. apply matches_keyword in H1 as (x & Hx & Ha & Hb).
    apply matches_wordb in H0 as [-> _].
    rewrite <- Hi. unfold m_start. rewrite <- (match_after _ _ Hs), Ha, upper_app.
    unfold same_ci in Hx. rewrite Hx. apply startswith_app. eauto.
  - intros H. apply rfind_some in H as [_ Hs]. rewrite upper_drop.
    exact (startswith_prefix (L "ORDER") (L " BY") _ Hs).
Qed.






(** With two spaces between ORDER and BY the top-level LIMIT precedes
    the top-level ORDER BY, and the rewrite locates no ORDER BY: the
    pattern compiled for the clause asks for a backslash, and the
    fallback looks for the keyword pair written with one space. *)
Lemma wide_order_by_not_located :
  limit_precedes_order q_limit_order_wide = true /\
  clause_index q_limit_order_wide (L "ORDER BY") = None /\
  _reorder_top_level_order_limit q_limit_order_wide = q_limit_order_wide /\
  limit_precedes_order q_limit_order = true /\
  limit_before_orderby q_limit_order = false.
Proof. vm_compute. repeat split. Qed.

(** ** Groups *)

Lemma captured_matches r c cs c' cs' : captured r c cs c' cs' -> matches r c c'.
Proof.
  induction 1;
    first [ assumption
          | constructor; assumption
          | econstructor; eassumption
          | apply m_alt_l; assumption
          | apply m_alt_r; assumption ].
Qed.

Section CapturedFacts.
Context {A : Type}.

(** What the matcher hands to its continuation is a match with the
    groups it has recorded. *)
Lemma run_captured r : forall c cs (k : cursor -> captures -> option A) v,
  run r c cs k = Some v ->
  exists c' cs', captured r c cs c' cs' /\ k c' cs' = Some v.
Proof.
  induction r as [|p|a IHa b IHb|a IHa b IHb|g p| | | |n a IHa];
    intros c cs k v H; simpl in H.
  - exists c, cs; split; [constructor | assumption].
  - destruct c as [l [|x t]]; simpl in H; [discriminate|].
    destruct (p x) eqn:Hp; [|discriminate].
    eexists _, cs; split; [apply c_chr; assumption | exact H].
  - destruct (IHa _ _ _ _ H) as (c1 & cs1 & Hm1 & H1).
    destruct (IHb _ _ _ _ H1) as (c2 & cs2 & Hm2 & H2).
    exists c2, cs2; split; [eapply c_seq; eassumption | assumption].
  - destruct (run a c cs k) eqn:Ha.
    + inversion H; subst. destruct (IHa _ _ _ _ Ha) as (c1 & cs1 & Hm & Hk).
      exists c1, cs1; split; [apply c_alt_l; assumption | assumption].
    + destruct (IHb _ _ _ _ H) as (c1 & cs1 & Hm & Hk).
      exists c1, cs1; split; [apply c_alt_r; assumption | assumption].
  - destruct c as [l r]. destruct g; simpl in H.
    + destruct (star_greedy_sound Greedy _ _ _ _ _ H) as (c' & Hm & Hk).
      exists c', cs. split; [constructor; assumption | assumption].
    + destruct (star_lazy_sound Lazy _ _ _ _ _ H) as (c' & Hm & Hk).
      exists c', cs. split; [constructor; assumption | assumption].
  - destruct (at_boundary c) eqn:Hb; [|discriminate].
    exists c, cs; split; [constructor; assumption | assumption].
  - destruct (at_bos c) eqn:Hb; [|discriminate].
    exists c, cs; split; [constructor; assumption | assumption].
  - destruct (at_end c) eqn:Hb; [|discriminate].
    exists c, cs; split; [constructor; assumption | assumption].
  - destruct (IHa _ _ _ _ H) as (c1 & cs1 & Hm & Hk).
    eexists c1, _; split; [apply c_grp; eassumption | exact Hk].
Qed.

End CapturedFacts.

Lemma match_at_captured r c m :
  match_at r c = Some m ->
  m_from m = c /\ captured r c [] (m_to m) (m_groups m).
Proof.
  unfold match_at. intros H.
  destruct (run_captured r _ _ _ _ H) as (c' & cs' & Hm & Hk).
  inversion Hk; subst; simpl. auto.
Qed.

Lemma search_from_captured r rest : forall l m,
  search_from r l rest = Some m ->
  captured r (m_from m) [] (m_to m) (m_groups m) /\
  subject (m_from m) = rev l ++ rest.
Proof.
  induction rest as [|x t IH]; intros l m H; simpl in H.
  - destruct (match_at r (Cur l [])) eqn:Hm; [|discriminate].
    inversion H; subst. destruct (match_at_captured _ _ _ Hm) as [Hf Hc].
    rewrite Hf. auto.
  - destruct (match_at r (Cur l (x :: t))) eqn:Hm.
    + inversion H; subst. destruct (match_at_captured _ _ _ Hm) as [Hf Hc].
      rewrite Hf. auto.
    + destruct (IH _ _ H) as [Hc Hs]. split; [assumption|].
      rewrite Hs. simpl. rewrite <- app_assoc. reflexivity.
Qed.

Lemma search_captured r s m :
  search r s = Some m ->
  captured r (m_from m) [] (m_to m) (m_groups m) /\ subject (m_from m) = s.
Proof. intros H. exact (search_from_captured r s [] m H). Qed.

(** The text between two cursors of a match is what was read. *)
Lemma slice_read c c' w s :
  subject c = s -> after c = w ++ after c' -> slice (pos c) (pos c + length w) s = w.
Proof.
  intros <- Ha. unfold slice, subject, pos.
  rewrite (drop_app_length' (rev (before c)) (after c) (length (before c)))
    by (rewrite length_rev; reflexivity).
  rewrite Ha.
  replace (length (before c) + length w - length (before c)) with (length w) by lia.
  apply take_app_length.
Qed.

(** Inversions. *)
Lemma captured_seq a b c cs c' cs' :
  captured (Seq a b) c cs c' cs' ->
  exists c1 cs1, captured a c cs c1 cs1 /\ captured b c1 cs1 c' cs'.
Proof. inversion 1; subst; eauto. Qed.

Lemma captured_grp n a c cs c' cs' :
  captured (Grp n a) c cs c' cs' ->
  exists cs1, captured a c cs c' cs1 /\ cs' = (n, (pos c, pos c')) :: cs1.
Proof. inversion 1; subst; eauto. Qed.

Lemma captured_wordb c cs c' cs' :
  captured WordB c cs c' cs' -> c' = c /\ cs' = cs /\ at_boundary c = true.
Proof. inversion 1; subst; auto. Qed.

Lemma captured_bos c cs c' cs' :
  captured Bos c cs c' cs' -> c' = c /\ cs' = cs /\ at_bos c = true.
Proof. inversion 1; subst; auto. Qed.

Lemma captured_star g p c cs c' cs' :
  captured (Star g p) c cs c' cs' -> cs' = cs /\ matches (Star g p) c c'.
Proof. inversion 1; subst; auto. Qed.

Lemma captured_chr p c cs c' cs' :
  captured (Chr p) c cs c' cs' -> cs' = cs /\ matches (Chr p) c c'.
Proof. inversion 1; subst; split; [reflexivity | constructor; assumption]. Qed.

(** A literal and a repetition record no group. *)
Lemma captured_lit ci w : forall c cs c' cs',
  captured (lit ci w) c cs c' cs' -> cs' = cs /\ matches (lit ci w) c c'.
Proof.
  induction w as [|a w IH]; intros c cs c' cs' H.
  - inversion H; subst. split; [reflexivity | constructor].
  - destruct w as [|b w].
    + apply captured_chr in H. exact H.
    + change (lit ci (a :: b :: w)) with (Seq (Chr (is_char ci a)) (lit ci (b :: w))) in *.
      apply captured_seq in H as (c1 & cs1 & H1 & H2).
      apply captured_chr in H1 as [-> H1]. apply IH in H2 as [-> H2].
      split; [reflexivity | econstructor; eassumption].
Qed.

Lemma captured_plus g p c cs c' cs' :
  captured (plus g p) c cs c' cs' -> cs' = cs /\ matches (plus g p) c c'.
Proof.
  unfold plus. intros H. apply captured_seq in H as (c1 & cs1 & H1 & H2).
  apply captured_chr in H1 as [-> H1]. apply captured_star in H2 as [-> H2].
  split; [reflexivity | econstructor; eassumption].
Qed.

(** ** The aggregate check of the detector *)

Lemma has_issue_flag i b j rest :
  has_issue i (flag b j ++ rest) = (b && issue_eqb i j) || has_issue i rest.
Proof. destruct b; reflexivity. Qed.

Lemma has_issue_flag_last i b j : has_issue i (flag b j) = b && issue_eqb i j.
Proof. destruct b; simpl; [apply orb_false_r | reflexivity]. Qed.

(** Each tag of the detector reports its own condition. *)
Lemma aggregate_flag sql natural_query :
  has_issue aggregate_with_non_aggregate_without_group_by
            (_static_sql_issues sql natural_query) =
  found (search re_aggregate (upper (strip sql))) &&
  contains (L ",") (select_list_of (strip sql)) &&
  negb (found (search re_group_by (upper (strip sql)))).
Proof.
  unfold _static_sql_issues. cbv zeta.
  rewrite !has_issue_flag, has_issue_flag_last. cbn [issue_eqb].
  rewrite !andb_false_r, !orb_false_r, andb_true_r. reflexivity.
Qed.

(** The projection list of the detector: the text of group 1 of the
    pattern stands between the leading SELECT and a FROM. *)
Lemma select_list_between s m :
  search re_select_list s = Some m -> between_select_and_from (group 1 m) s.
Proof.
  intros Hs. apply search_captured in Hs as [H Hsub].
  unfold re_select_list in H. cbn [seqs] in H.
  apply captured_seq in H as (c1 & cs1 & P1 & H).
  apply captured_seq in H as (c2 & cs2 & P2 & H).
  apply captured_seq in H as (c3 & cs3 & P3 & H).
  apply captured_seq in H as (c4 & cs4 & P4 & H).
  apply captured_seq in H as (c5 & cs5 & P5 & H).
  apply captured_seq in H as (c6 & cs6 & P6 & H).
  apply captured_seq in H as (c7 & cs7 & P7 & P8).
  apply captured_bos in P1 as (-> & -> & B).
  apply captured_star in P2 as [-> P2].
  apply captured_lit in P3 as [-> P3].
  apply captured_plus in P4 as [-> P4].
  apply captured_grp in P5 as (cs5' & P5 & ->).
  apply captured_star in P5 as [-> P5].
  apply captured_plus in P6 as [-> P6].
  apply captured_lit in P7 as [-> P7].
  apply captured_chr in P8 as [E8 P8].
  assert (S4 : subject c4 = s).
  { rewrite (matches_subject _ _ _ P4), (matches_subject _ _ _ P3),
      (matches_subject _ _ _ P2). exact Hsub. }
  unfold at_bos in B. destruct (m_from m) as [[|? ?] t] eqn:Em; [|discriminate B].
  unfold subject in Hsub. simpl in Hsub. subst t.
  apply matches_star in P2 as (w0 & Hw0 & A2 & _). simpl in A2.
  apply matches_keyword in P3 as (x1 & Hx1 & A3 & _).
  apply matches_plus_text in P4 as (ws & Hne & Hws & A4 & _).
  apply matches_star in P5 as (lst & _ & A5 & B5).
  apply matches_plus_text in P6 as (ws' & Hne' & Hws' & A6 & _).
  apply matches_keyword in P7 as (x2 & Hx2 & A7 & _).
  apply matches_chr in P8 as (sp & Hsp & A8 & _).
  assert (G : group 1 m = lst).
  { unfold group. rewrite E8. simpl. rewrite Em. unfold subject. simpl.
    replace (pos c5) with (pos c4 + length lst)
      by (unfold pos; rewrite B5, length_app, length_rev; lia).
    exact (slice_read c4 c5 lst s S4 A5). }
  rewrite G. exists w0, x1, ws, ws', x2, sp, (after (m_to m)).
  repeat split; auto.
  rewrite A2, A3, A4, A5, A6, A7, A8. reflexivity.
Qed.

Lemma select_list_of_between s :
  select_list_of s = [] \/ between_select_and_from (select_list_of s) s.
Proof.
  unfold select_list_of. destruct (search re_select_list s) as [m|] eqn:E; [|left; reflexivity].
  right. apply select_list_between. exact E.
Qed.



(** ** Detection after rewriting *)

(** A query on which nothing is flagged is handed back as it is. *)
Lemma rewrite_unflagged natural_query sql :
  _static_sql_issues sql natural_query = [] -> rewrite natural_query sql = sql.
Proof. unfold rewrite. intros ->. reflexivity. Qed.

(** The rewriter changes nothing unless an issue is flagged, the five
    rule-based fixes apart from the reorder being guarded by their tags. *)
Lemma deterministic_fix_untargeted issues sql :
  flags_targeted issues = false ->
  deterministic_fix issues sql = _reorder_top_level_order_limit sql.
Proof.
  unfold flags_targeted, targeted. cbn [existsb]. rewrite !orb_false_iff.
  intros (Hj & Hi & Hv & _ & Hd & _).
  unfold deterministic_fix, try_except, fix_wrong_join.
  rewrite Hj, Hi, Hv, Hd.
  destruct (search re_from_parents sql), (search re_join_contacts sql); reflexivity.
Qed.



(** ** Substitution over a character class *)

Lemma sub_absent r repl s : search r s = None -> sub r repl s = s.
Proof. unfold sub, search. simpl. intros ->. reflexivity. Qed.

Section ClassFacts.
Variable p : ascii -> bool.

Lemma star_greedy_always {A : Type} (f : cursor -> A) r : forall l,
  star_greedy p l r (fun c => Some (f c)) =
  Some (f (Cur (rev (run_of p r) ++ l) (skip p r))).
Proof.
  induction r as [|x t IH]; intros l; simpl; [reflexivity|].
  destruct (p x); [|reflexivity].
  rewrite IH. simpl. rewrite <- app_assoc. reflexivity.
Qed.

Lemma match_at_plus l s :
  match_at (plus Greedy p) (Cur l s) =
  match s with
  | x :: t =>
      if p x
      then Some (Match (Cur l s) (Cur (rev (run_of p t) ++ x :: l) (skip p t)) [])
      else None
  | [] => None
  end.
Proof.
  unfold match_at, plus. cbn [run after before]. destruct s as [|x t]; [reflexivity|].
  destruct (p x); [|reflexivity].
  exact (star_greedy_always (fun c' => Match (Cur l (x :: t)) c' []) t (x :: l)).
Qed.

Lemma match_at_chr l s :
  match_at (Chr p) (Cur l s) =
  match s with
  | x :: t => if p x then Some (Match (Cur l s) (Cur (x :: l) t) []) else None
  | [] => None
  end.
Proof. unfold match_at. cbn [run after before]. destruct s as [|x t]; reflexivity. Qed.

Lemma skip_length s : length (skip p s) <= length s.
Proof. induction s as [|x t IH]; simpl; [lia|]. destruct (p x); simpl; lia. Qed.

Lemma squeeze_skip repl s : squeeze p repl true s = squeeze p repl false (skip p s).
Proof.
  induction s as [|x t IH]; simpl; [reflexivity|].
  destruct (p x) eqn:E; simpl; [exact IH | rewrite E; reflexivity].
Qed.

(** Where a search that starts behind [l] finds its match. *)
Lemma search_from_start r l rest m :
  search_from r l rest = Some m -> length l <= m_start m.
Proof.
  intros H. apply search_from_sound in H as (pre & post & _ & Hf & _).
  unfold m_start, pos. rewrite Hf. simpl. rewrite length_app. lia.
Qed.

Lemma sub_from_plus repl : forall fuel s l,
  length s < fuel ->
  sub_from fuel (plus Greedy p) repl (Cur l s) = squeeze p repl false s.
Proof.
  induction fuel as [|f IHf]; intros s l Hlen; [lia|].
  cbn [sub_from before after pos].
  revert l. induction s as [|x t IHs]; intros l.
  - cbn [search_from]. rewrite match_at_plus. reflexivity.
  - cbn [search_from]. rewrite match_at_plus.
    destruct (p x) eqn:Hx.
    + unfold m_start, m_end, pos. cbn [m_from m_to before after]. rewrite Nat.sub_diag.
      assert (E : (length (rev (run_of p t) ++ x :: l) =? length l) = false).
      { apply Nat.eqb_neq. rewrite length_app. simpl. lia. }
      rewrite E. cbn [squeeze]. rewrite Hx. cbn [take app].
      rewrite IHf by (pose proof (skip_length t); simpl in Hlen; lia).
      rewrite squeeze_skip. reflexivity.
    + cbn [squeeze]. rewrite Hx.
      assert (Ht : length t < S f) by (simpl in Hlen; lia).
      specialize (IHs Ht (x :: l)).
      destruct (search_from (plus Greedy p) (x :: l) t) as [m|] eqn:Hs.
      * pose proof (search_from_start _ _ _ _ Hs) as Hst. simpl in Hst.
        unfold pos in IHs |- *. cbn [before length] in IHs |- *.
        replace (m_start m - length l) with (S (m_start m - S (length l))) by lia.
        cbn [take]. rewrite <- app_comm_cons. f_equal. exact IHs.
      * f_equal. exact IHs.
Qed.

(** [re.sub] of one or more characters of a class. *)
Lemma sub_plus repl s : sub (plus Greedy p) repl s = squeeze p repl false s.
Proof. unfold sub. apply sub_from_plus. lia. Qed.

Lemma sub_from_chr repl : forall fuel s l,
  length s < fuel ->
  sub_from fuel (Chr p) repl (Cur l s) =
  flat_map (fun c => if p c then repl else [c]) s.
Proof.
  induction fuel as [|f IHf]; intros s l Hlen; [lia|].
  cbn [sub_from before after pos].
  revert l. induction s as [|x t IHs]; intros l.
  - cbn [search_from]. rewrite match_at_chr. reflexivity.
  - cbn [search_from]. rewrite match_at_chr.
    destruct (p x) eqn:Hx.
    + unfold m_start, m_end, pos. cbn [m_from m_to before after length]. rewrite Nat.sub_diag.
      assert (E : (S (length l) =? length l) = false) by (apply Nat.eqb_neq; lia).
      rewrite E. cbn [flat_map take app]. rewrite Hx.
      rewrite IHf by (simpl in Hlen; lia). reflexivity.
    + cbn [flat_map]. rewrite Hx.
      assert (Ht : length t < S f) by (simpl in Hlen; lia).
      specialize (IHs Ht (x :: l)).
      destruct (search_from (Chr p) (x :: l) t) as [m|] eqn:Hs.
      * pose proof (search_from_start _ _ _ _ Hs) as Hst. simpl in Hst.
        unfold pos in IHs |- *. cbn [before length] in IHs |- *.
        replace (m_start m - length l) with (S (m_start m - S (length l))) by lia.
        cbn [take]. rewrite <- app_comm_cons. f_equal. exact IHs.
      * simpl. f_equal. exact IHs.
Qed.

(** [re.sub] of one character of a class by nothing: the characters
    outside the class, in their order. *)
Lemma sub_chr_removes s : sub (Chr p) [] s = List.filter (fun c => negb (p c)) s.
Proof.
  unfold sub, at_start. rewrite sub_from_chr by lia.
  induction s as [|x t IH]; simpl; [reflexivity|].
  destruct (p x); simpl; rewrite IH; reflexivity.
Qed.

End ClassFacts.
(** ** Trimmed and squeezed texts *)

Lemma lstrip_solid s : starts_solid s = true -> lstrip s = s.
Proof.
  destruct s as [|x t]; [reflexivity|]. simpl. intros H.
  apply negb_true_iff in H. rewrite H. reflexivity.
Qed.

Lemma lstrip_starts_solid s : starts_solid (lstrip s) = true.
Proof.
  induction s as [|x t IH]; [reflexivity|]. simpl.
  destruct (is_space x) eqn:E; [exact IH|]. simpl. rewrite E. reflexivity.
Qed.

Lemma strip_fixed s :
  starts_solid s = true -> starts_solid (rev s) = true -> strip s = s.
Proof.
  intros H1 H2. unfold strip, rstrip.
  rewrite (lstrip_solid s H1), (lstrip_solid _ H2). apply rev_involutive.
Qed.

Lemma strip_ends_solid s : starts_solid (rev (strip s)) = true.
Proof. unfold strip, rstrip. rewrite rev_involutive. apply lstrip_starts_solid. Qed.

Lemma strip_starts_solid s : starts_solid (strip s) = true.
Proof.
  unfold strip. pose proof (lstrip_starts_solid s) as H.
  destruct (lstrip s) as [|x t]; [reflexivity|].
  simpl in H. apply negb_true_iff in H.
  pose proof (rstrip_app_keep [] x t H) as E. cbn [app] in E.
  rewrite E. simpl. rewrite H. reflexivity.
Qed.

Lemma strip_idempotent s : strip (strip s) = strip s.
Proof. apply strip_fixed; [apply strip_starts_solid | apply strip_ends_solid]. Qed.

Section SqueezeFacts.
Let sp : ascii := ch " ".
Let sq := squeeze is_space [sp].

Lemma squeeze_spaces b s :
  Forall (fun c => is_space c = true -> c = sp) (sq b s).
Proof.
  revert b. induction s as [|x t IH]; intros b; [constructor|].
  unfold sq. cbn [squeeze]. destruct (is_space x) eqn:E.
  - destruct b; cbn [app]; [apply IH|]. constructor; [reflexivity | apply IH].
  - constructor; [congruence | apply IH].
Qed.

Lemma squeeze_single b s :
  single_spaced (sq b s) = true /\ (b = true -> starts_solid (sq b s) = true).
Proof.
  revert b. induction s as [|x t IH]; intros b; [split; reflexivity|].
  unfold sq. cbn [squeeze]. destruct (is_space x) eqn:E.
  - destruct (IH true) as [H1 H2]. specialize (H2 eq_refl).
    destruct b; cbn [app]; [split; [exact H1 | intros _; exact H2]|].
    split; [|discriminate].
    cbn [single_spaced]. fold sq. rewrite H1, andb_true_r.
    destruct (sq true t) as [|y r]; [rewrite andb_false_r; reflexivity|].
    simpl in H2. apply negb_true_iff in H2. rewrite H2, andb_false_r. reflexivity.
  - destruct (IH false) as [H1 _]. split.
    + cbn [single_spaced]. fold sq. rewrite H1, E. reflexivity.
    + intros _. simpl. rewrite E. reflexivity.
Qed.

Lemma squeeze_starts_solid b s : starts_solid s = true -> starts_solid (sq b s) = true.
Proof.
  destruct s as [|x t]; [reflexivity|]. simpl. intros H.
  apply negb_true_iff in H. unfold sq. cbn [squeeze]. rewrite H. simpl. rewrite H. reflexivity.
Qed.

Lemma squeeze_snoc b s x : is_space x = false -> sq b (s ++ [x]) = sq b s ++ [x].
Proof.
  intros Hx. revert b. induction s as [|y t IH]; intros b; unfold sq; simpl.
  - rewrite Hx. reflexivity.
  - destruct (is_space y); fold sq; rewrite IH; [rewrite app_assoc|]; reflexivity.
Qed.

Lemma squeeze_ends_solid b s :
  starts_solid (rev s) = true -> starts_solid (rev (sq b s)) = true.
Proof.
  destruct s as [|x t _] using rev_ind; [reflexivity|].
  rewrite rev_app_distr. simpl. intros H. apply negb_true_iff in H.
  rewrite (squeeze_snoc b t x H), rev_app_distr. simpl. rewrite H. reflexivity.
Qed.

Lemma squeeze_solid_chars b s :
  List.filter (fun c => negb (is_space c)) (sq b s) =
  List.filter (fun c => negb (is_space c)) s.
Proof.
  revert b. induction s as [|x t IH]; intros b; [reflexivity|].
  unfold sq. cbn [squeeze]. destruct (is_space x) eqn:E; simpl; rewrite E; simpl; fold sq.
  - destruct b; simpl; apply IH.
  - rewrite IH. reflexivity.
Qed.

Lemma squeeze_flag s : starts_solid s = true -> sq true s = sq false s.
Proof.
  destruct s as [|x t]; [reflexivity|]. simpl. intros H.
  apply negb_true_iff in H. unfold sq. cbn [squeeze]. rewrite H. reflexivity.
Qed.

Lemma squeeze_fixed s :
  Forall (fun c => is_space c = true -> c = sp) s -> single_spaced s = true ->
  sq false s = s.
Proof.
  induction s as [|x t IH]; [reflexivity|].
  intros Hf Hs. inversion Hf as [|? ? Hx Ht]; subst.
  cbn [single_spaced] in Hs. apply andb_true_iff in Hs as [Ha Hs].
  unfold sq. cbn [squeeze]. fold sq. destruct (is_space x) eqn:E.
  - rewrite (Hx eq_refl). cbn [app]. f_equal.
    rewrite squeeze_flag; [apply IH; assumption|].
    destruct t as [|y r]; [reflexivity|]. simpl in Ha |- *. exact Ha.
  - f_equal. apply IH; assumption.
Qed.

Lemma single_spaced_no_pair s :
  single_spaced s = true -> contains [sp; sp] s = false.
Proof.
  induction s as [|x t IH]; [reflexivity|].
  cbn [single_spaced]. intros H. apply andb_true_iff in H as [Ha Hs].
  cbn [contains]. rewrite (IH Hs), orb_false_r.
  destruct (startswith [sp; sp] (x :: t)) eqn:E; [|reflexivity].
  apply startswith_app in E as [rest E]. inversion E; subst. discriminate Ha.
Qed.

End SqueezeFacts.

(** ** Contacts *)

Lemma is_space_lower c : is_space (lower_char c) = is_space c.
Proof. each_ascii c; reflexivity. Qed.

Lemma lower_char_idem c : lower_char (lower_char c) = lower_char c.
Proof. each_ascii c; reflexivity. Qed.

Lemma lower_idempotent s : lower (lower s) = lower s.
Proof. unfold lower. rewrite map_map. apply map_ext, lower_char_idem. Qed.

Lemma lstrip_lower s : lstrip (lower s) = lower (lstrip s).
Proof.
  induction s as [|c t IH]; simpl; [reflexivity|].
  rewrite is_space_lower. destruct (is_space c); [assumption | reflexivity].
Qed.

Lemma lower_rev s : lower (rev s) = rev (lower s).
Proof. unfold lower. apply map_rev. Qed.

Lemma strip_lower s : strip (lower s) = lower (strip s).
Proof.
  unfold strip, rstrip.
  rewrite lstrip_lower, <- lower_rev, lstrip_lower, lower_rev. reflexivity.
Qed.

Lemma filter_idempotent {A : Type} (f : A -> bool) l :
  List.filter f (List.filter f l) = List.filter f l.
Proof.
  induction l as [|x t IH]; [reflexivity|]. simpl.
  destruct (f x) eqn:E; simpl; [rewrite E, IH|]; auto.
Qed.

Lemma phone_chars_kept c :
  negb (is_not_phone_char c) = is_digit c || eqc c (ch "+").
Proof. unfold is_not_phone_char. apply negb_involutive. Qed.



Lemma getitem_some (d : contact) k v : d !! k = Some v -> getitem d k = Ok v.
Proof. unfold getitem. intros ->. reflexivity. Qed.

(** What [is_duplicate_contact] answers on two contacts that carry both
    fields. *)
Lemma is_duplicate_contact_value (c1 c2 : contact) t1 v1 t2 v2 :
  c1 !! "type"%string = Some t1 -> c1 !! "value"%string = Some v1 ->
  c2 !! "type"%string = Some t2 -> c2 !! "value"%string = Some v2 ->
  is_duplicate_contact c1 c2 =
  Ok (text_eqb t1 t2 &&
      text_eqb (normalize_contact t1 v1) (normalize_contact t2 v2)).
Proof.
  intros H1 H2 H3 H4. unfold is_duplicate_contact.
  rewrite (getitem_some _ _ _ H1), (getitem_some _ _ _ H2),
    (getitem_some _ _ _ H3), (getitem_some _ _ _ H4).
  cbn [mbind result_bind]. destruct (text_eqb t1 t2); reflexivity.
Qed.

Lemma text_eqb_sym a b : text_eqb a b = text_eqb b a.
Proof.
  destruct (text_eqb a b) eqn:E.
  - apply text_eqb_eq in E. subst. symmetry. apply text_eqb_refl.
  - destruct (text_eqb b a) eqn:E'; [|reflexivity].
    apply text_eqb_eq in E'. subst. rewrite text_eqb_refl in E. discriminate E.
Qed.

(** On contacts that carry a type and a value, [is_duplicate_contact]
    never raises and is an equivalence: every contact duplicates
    itself, the answer does not depend on the order of the two
    contacts, and duplicates of duplicates are duplicates.  Two contacts
    are duplicates exactly when their types are equal and their values
    normalise to the same text. *)
Theorem duplicate_contact_equivalence :
  forall (c1 c2 c3 : contact) (t1 v1 t2 v2 t3 v3 : text),
    c1 !! "type"%string = Some t1 -> c1 !! "value"%string = Some v1 ->
    c2 !! "type"%string = Some t2 -> c2 !! "value"%string = Some v2 ->
    c3 !! "type"%string = Some t3 -> c3 !! "value"%string = Some v3 ->
    is_duplicate_contact c1 c1 = Ok true /\
    is_duplicate_contact c1 c2 = is_duplicate_contact c2 c1 /\
    (is_duplicate_contact c1 c2 = Ok true -> is_duplicate_contact c2 c3 = Ok true ->
       is_duplicate_contact c1 c3 = Ok true) /\
    (is_duplicate_contact c1 c2 = Ok true <->
       t1 = t2 /\ normalize_contact t1 v1 = normalize_contact t1 v2) /\
    (exists b, is_duplicate_contact c1 c2 = Ok b).
Proof.
  intros c1 c2 c3 t1 v1 t2 v2 t3 v3 A1 A2 B1 B2 C1 C2.
  rewrite (is_duplicate_contact_value c1 c1 _ _ _ _ A1 A2 A1 A2),
    (is_duplicate_contact_value c1 c2 _ _ _ _ A1 A2 B1 B2),
    (is_duplicate_contact_value c2 c1 _ _ _ _ B1 B2 A1 A2),
    (is_duplicate_contact_value c2 c3 _ _ _ _ B1 B2 C1 C2),
    (is_duplicate_contact_value c1 c3 _ _ _ _ A1 A2 C1 C2).
  assert (Iff : forall a x b y,
    Ok (text_eqb a b && text_eqb (normalize_contact a x) (normalize_contact b y)) =
      @Ok bool true <->
    a = b /\ normalize_contact a x = normalize_contact a y).
  { intros a x b y. split.
    - intros H. assert (H' : text_eqb a b &&
        text_eqb (normalize_contact a x) (normalize_contact b y) = true) by congruence.
      apply andb_true_iff in H' as [Ha Hn].
      apply text_eqb_eq in Ha. subst b. apply text_eqb_eq in Hn. auto.
    - intros [<- Hn]. rewrite Hn, !text_eqb_refl. reflexivity. }
  split; [rewrite !text_eqb_refl; reflexivity|].
  split; [rewrite (text_eqb_sym t1 t2),
            (text_eqb_sym (normalize_contact t1 v1)); reflexivity|].
  split; [|split; [apply Iff | eauto]].
  intros H12 H23. apply Iff in H12 as [<- E12]. apply Iff in H23 as [<- E23].
  apply Iff. split; [reflexivity | congruence].
Qed.

Lemma duplicate_contact_equivalence_witness :
  is_duplicate_contact
    (<["type"%string := L "手机号"]> (<["value"%string := L "138 1234 5678"]> ∅))
    (<["type"%string := L "手机号"]> (<["value"%string := L "138-1234-5678"]> ∅)) = Ok true.
Proof.
  set (c1 := <["type"%string := L "手机号"]> (<["value"%string := L "138 1234 5678"]> ∅) : contact).
  set (c2 := <["type"%string := L "手机号"]> (<["value"%string := L "138-1234-5678"]> ∅) : contact).
  destruct (duplicate_contact_equivalence c1 c2 c1
              (L "手机号") (L "138 1234 5678") (L "手机号") (L "138-1234-5678")
              (L "手机号") (L "138 1234 5678")
              ltac:(reflexivity) ltac:(reflexivity) ltac:(reflexivity)
              ltac:(reflexivity) ltac:(reflexivity) ltac:(reflexivity))
    as (_ & _ & _ & H & _).
  apply H. split; [reflexivity | vm_compute; reflexivity].
Defined.
(** ** Mentions *)

Lemma finditer_from_captured fuel r : forall c m,
  In m (finditer_from fuel r c) ->
  captured r (m_from m) [] (m_to m) (m_groups m) /\ subject (m_from m) = subject c.
Proof.
  induction fuel as [|f IH]; intros c m Hin; simpl in Hin; [contradiction|].
  destruct (search_from r (before c) (after c)) as [m0|] eqn:Hs; [|contradiction].
  destruct (search_from_captured _ _ _ _ Hs) as [Hc0 Hsub].
  destruct Hin as [<- | Hin]; [split; assumption|].
  assert (Hto : subject (m_to m0) = subject c).
  { rewrite (matches_subject _ _ _ (captured_matches _ _ _ _ _ Hc0)). exact Hsub. }
  destruct (m_end m0 =? m_start m0).
  - destruct (step (m_to m0)) as [c'|] eqn:Hst; [|contradiction].
    destruct (IH _ _ Hin) as [H1 H2]. split; [assumption|].
    rewrite H2, (subject_step _ _ Hst). exact Hto.
  - destruct (IH _ _ Hin) as [H1 H2]. split; [assumption|]. congruence.
Qed.

Lemma at_sign_only x : eqc (ch "@") x = true -> x = ch "@".
Proof. intros H. apply eqc_eq in H. auto. Qed.

(** A mention starts at an at sign. *)
Lemma mention_needs_at_sign r s :
  (r = re_mention \/ r = re_mention_name) -> occurs r s -> In (ch "@") s.
Proof.
  intros Hr Ho. apply occurs_cursors in Ho as (c & c' & Hs & H).
  assert (Hc : exists c1, matches (sym "@") c c1).
  { destruct Hr as [-> | ->]; apply matches_seq in H as (c1 & H1 & _); eauto. }
  destruct Hc as (c1 & H1). apply matches_chr in H1 as (x & Hx & Ha & _).
  apply at_sign_only in Hx. subst x.
  rewrite <- Hs. unfold subject. rewrite Ha. apply in_or_app. right. left. reflexivity.
Qed.

Lemma mention_chars m :
  forallb is_mention_char m = true ->
  Forall (fun c => is_space c = false /\ c <> ch "@") m.
Proof.
  intros H. apply List.Forall_forall. intros c Hc.
  apply (proj1 (forallb_forall _ _) H) in Hc.
  unfold is_mention_char in Hc. apply negb_true_iff, orb_false_iff in Hc as [H1 H2].
  split; [exact H1|]. intros ->. rewrite eqc_refl in H2. discriminate H2.
Qed.


(** ** Accepted formats *)

Lemma cursor_eq c c' : before c = before c' -> after c = after c' -> c = c'.
Proof. destruct c, c'. simpl. intros -> ->. reflexivity. Qed.

Lemma re_match_found r s :
  found (re_match r s) = true <-> exists c', matches r (at_start s) c'.
Proof.
  unfold re_match. split.
  - destruct (match_at r (at_start s)) as [m|] eqn:E; [|discriminate].
    intros _. apply match_at_sound in E as [_ H]. eauto.
  - intros [c' H]. destruct (match_at_complete _ _ _ H) as [m ->]. reflexivity.
Qed.

Lemma at_end_tail c : at_end c = true <-> after c = [] \/ after c = [nl].
Proof.
  unfold at_end. destruct (after c) as [|x [|y t]].
  - split; auto.
  - rewrite eqc_eq. split; [intros ->; auto | intros [H | H]; congruence].
  - split; [discriminate | intros [H | H]; discriminate H].
Qed.

Lemma cs_literal_reads w x :
  Forall2 (fun a y => is_char false a y = true) w x <-> x = w.
Proof.
  split.
  - induction 1 as [|a y w x Hy _ IH]; [reflexivity|].
    unfold is_char in Hy. apply eqc_eq in Hy. subst. reflexivity.
  - intros ->. induction w as [|a w IH]; constructor; [apply eqc_refl | exact IH].
Qed.

Section Repetition.
Variable p : ascii -> bool.

Lemma matches_times n : forall c c',
  matches (times n (Chr p)) c c' <->
  exists w, length w = n /\ forallb p w = true /\
            after c = w ++ after c' /\ before c' = rev w ++ before c.
Proof.
  induction n as [|n IH]; intros c c'; cbn [times].
  - rewrite matches_eps. split.
    + intros ->. exists []. auto.
    + intros (w & Hl & _ & Ha & Hb). destruct w; [|discriminate Hl].
      apply cursor_eq; simpl in *; congruence.
  - rewrite matches_seq. split.
    + intros (c1 & H1 & H2). apply matches_chr in H1 as (x & Hx & Ha & Hb).
      apply IH in H2 as (w & Hl & Hw & Ha2 & Hb2).
      exists (x :: w). simpl. rewrite Hx, Hw, Ha, Ha2, Hb2, Hb, <- app_assoc.
      repeat split; auto.
    + intros (w & Hl & Hw & Ha & Hb). destruct w as [|x w]; [discriminate Hl|].
      simpl in Hw. apply andb_true_iff in Hw as [Hx Hw].
      exists (Cur (x :: before c) (w ++ after c')). split.
      * apply matches_chr. exists x. auto.
      * apply IH. exists w. simpl in *. rewrite <- app_assoc in Hb.
        repeat split; auto.
Qed.

Lemma matches_upto n : forall c c',
  matches (upto n (Chr p)) c c' <->
  exists w, length w <= n /\ forallb p w = true /\
            after c = w ++ after c' /\ before c' = rev w ++ before c.
Proof.
  induction n as [|n IH]; intros c c'; cbn [upto].
  - rewrite matches_eps. split.
    + intros ->. exists []. auto.
    + intros (w & Hl & _ & Ha & Hb). destruct w; [|simpl in Hl; lia].
      apply cursor_eq; simpl in *; congruence.
  - rewrite matches_alt, matches_seq, matches_eps. split.
    + intros [(c1 & H1 & H2) | ->].
      * apply matches_chr in H1 as (x & Hx & Ha & Hb).
        apply IH in H2 as (w & Hl & Hw & Ha2 & Hb2).
        exists (x :: w). simpl. rewrite Hx, Hw, Ha, Ha2, Hb2, Hb, <- app_assoc.
        repeat split; auto. lia.
      * exists []. simpl. repeat split; auto. lia.
    + intros (w & Hl & Hw & Ha & Hb). destruct w as [|x w].
      * right. apply cursor_eq; simpl in *; congruence.
      * left. simpl in Hw. apply andb_true_iff in Hw as [Hx Hw].
        exists (Cur (x :: before c) (w ++ after c')). split.
        -- apply matches_chr. exists x. auto.
        -- apply IH. exists w. simpl in *. rewrite <- app_assoc in Hb.
           repeat split; auto. lia.
Qed.

End Repetition.

(** A pattern between [^] and [$] under [re.match]: the body reads a
    text that is the whole subject, or all of it but a final line
    feed. *)
Lemma anchored_found body s :
  found (re_match (Seq Bos (Seq body Eos)) s) = true <->
  exists w tail,
    s = w ++ tail /\ (tail = [] \/ tail = [nl]) /\
    matches body (Cur [] s) (Cur (rev w) tail).
Proof.
  rewrite re_match_found. unfold at_start. split.
  - intros (c' & H). apply matches_seq in H as (c1 & H1 & H).
    apply matches_bos in H1 as [-> _].
    apply matches_seq in H as (c2 & H2 & H3).
    apply matches_eos in H3 as [-> H3]. apply at_end_tail in H3.
    destruct (matches_reads _ _ _ H2) as (w & Ha & Hb). simpl in Ha, Hb.
    exists w, (after c2). split; [exact Ha|]. split; [exact H3|].
    rewrite app_nil_r in Hb. rewrite <- Hb. destruct c2. exact H2.
  - intros (w & tail & Hs & Ht & H).
    exists (Cur (rev w) tail). apply matches_seq. exists (Cur [] s). split.
    + apply matches_bos. auto.
    + apply matches_seq. exists (Cur (rev w) tail). split; [exact H|].
      apply matches_eos. split; [reflexivity|]. apply at_end_tail. exact Ht.
Qed.
Lemma tail_cases (tail : text) : tail = [] \/ tail = [nl] -> length tail <= 1.
Proof. intros [-> | ->]; simpl; lia. Qed.

Lemma one_only x : eqc (ch "1") x = true -> x = ch "1".
Proof. intros H. apply eqc_eq in H. auto. Qed.

(** ** The life of a lead *)

Lemma assoc_some {V : Type} k (d : list (text * V)) v :
  assoc k d = Some v -> In (k, v) d.
Proof.
  induction d as [|[k' v'] d IH]; simpl; [discriminate|].
  destruct (text_eqb k k') eqn:E.
  - apply text_eqb_eq in E. subst. intros H. inversion H. left. reflexivity.
  - intros H. right. apply IH. exact H.
Qed.

Lemma existsb_text x l : existsb (text_eqb x) l = true <-> In x l.
Proof.
  rewrite existsb_exists. split.
  - intros (y & Hy & E). apply text_eqb_eq in E. subst. exact Hy.
  - intros H. exists x. split; [exact H | apply text_eqb_refl].
Qed.

(** A transition is accepted exactly when the target is listed for the
    current state, and then with an empty message. *)
Lemma transition_accepted c t :
  (fst (validate_state_transition c t) = true <-> In t (get_next_valid_states c)) /\
  (fst (validate_state_transition c t) = true -> validate_state_transition c t = (true, [])).
Proof.
  unfold validate_state_transition, get_next_valid_states.
  destruct (assoc c STATE_TRANSITIONS) as [targets|].
  - destruct (existsb (text_eqb t) targets) eqn:E; cbn [negb].
    + apply existsb_text in E. split; [split; auto | reflexivity].
    + assert (N : ~ In t targets)
        by (intros H; apply existsb_text in H; congruence).
      destruct (is_empty targets); simpl;
        (split; [split; [discriminate | contradiction] | discriminate]).
  - simpl. split; [split; [discriminate | intros []] | discriminate].
Qed.

Lemma transition_advances c t :
  fst (validate_state_transition c t) = true -> stage c < stage t /\ stage t <= 3.
Proof.
  intros H. apply (proj1 (transition_accepted c t)) in H.
  unfold get_next_valid_states in H.
  destruct (assoc c STATE_TRANSITIONS) as [targets|] eqn:E; [|destruct H].
  apply assoc_some in E. unfold STATE_TRANSITIONS in E.
  repeat (destruct E as [E | E];
          [inversion E; subst; clear E; simpl in H;
           repeat (destruct H as [<- | H]; [vm_compute; lia|]); contradiction|]).
  destruct E.
Qed.

Lemma stage_bound s : stage s <= 3.
Proof.
  unfold stage.
  repeat match goal with |- context [if ?b then _ else _] => destruct b end; lia.
Qed.

Lemma valid_path_tail a l : valid_path (a :: l) = true -> valid_path l = true.
Proof.
  cbn [valid_path]. destruct l as [|b l]; [reflexivity|].
  intros H. apply andb_true_iff in H as [_ H]. exact H.
Qed.

Lemma valid_path_stages a l :
  valid_path (a :: l) = true ->
  Forall (fun x => stage a < stage x) l /\ length l + stage a <= 3.
Proof.
  revert a. induction l as [|b l IH]; intros a H.
  - split; [constructor | pose proof (stage_bound a); simpl; lia].
  - cbn [valid_path] in H. apply andb_true_iff in H as [Hab Hl].
    apply transition_advances in Hab as [Hab _].
    destruct (IH b Hl) as [Hf Hn]. split.
    + constructor; [exact Hab|].
      eapply List.Forall_impl; [|exact Hf]. simpl. intros x Hx. lia.
    + simpl. lia.
Qed.

(** [validate_state_transition] accepts exactly the targets that
    [get_next_valid_states] lists.  Every accepted transition moves a
    lead forward: a run of accepted transitions visits no state twice
    and at most four states, and nothing leaves a closed, a lost or an
    unassigned lead. *)
Theorem state_flow_never_returns :
  (forall c t,
     validate_state_transition c t = (true, []) <-> In t (get_next_valid_states c)) /\
  (forall path, valid_path path = true -> List.NoDup path /\ length path <= 4) /\
  (forall s t, In s [L "已成交"; L "已流失"; L "待分配"] ->
     fst (validate_state_transition s t) = false /\ get_next_valid_states s = []).
Proof.
  split; [|split].
  - intros c t. destruct (transition_accepted c t) as [H1 H2]. split.
    + intros E. apply H1. rewrite E. reflexivity.
    + intros Hin. apply H2, H1, Hin.
  - intros path. induction path as [|a l IH]; intros H.
    + split; [constructor | simpl; lia].
    + destruct (valid_path_stages a l H) as [Hf Hn].
      destruct (IH (valid_path_tail a l H)) as [Hd _]. split.
      * constructor; [|exact Hd]. intros Hin.
        apply (proj1 (List.Forall_forall _ _) Hf) in Hin. lia.
      * simpl. lia.
  - intros s t Hs.
    assert (E : get_next_valid_states s = [])
      by (destruct Hs as [<- | [<- | [<- | []]]]; vm_compute; reflexivity).
    split; [|exact E].
    destruct (fst (validate_state_transition s t)) eqn:F; [|reflexivity].
    apply (proj1 (transition_accepted s t)) in F. rewrite E in F. destruct F.
Qed.

(** ** Routing and the nine template types *)

Lemma texts_differ (a b : text) : text_eqb a b = false -> a <> b.
Proof. intros H ->. rewrite text_eqb_refl in H. discriminate H. Qed.

(** The actions a role may perform. *)
Lemma role_permitted role action :
  fst (validate_role_permission role action) = true <->
  exists actions, In (role, actions) role_permissions /\ In action actions.
Proof.
  unfold validate_role_permission. split.
  - destruct (assoc role role_permissions) as [actions|] eqn:E; [|discriminate].
    destruct (existsb (text_eqb action) actions) eqn:Ha; [|discriminate].
    intros _. exists actions. split; [apply assoc_some; exact E|].
    apply existsb_text. exact Ha.
  - intros (actions & Hr & Ha). unfold role_permissions in Hr.
    repeat (destruct Hr as [Hr | Hr];
            [inversion Hr; subst; clear Hr; simpl in Ha;
             repeat (destruct Ha as [<- | Ha]; [vm_compute; reflexivity|]);
             destruct Ha|]).
    destruct Hr.
Qed.

Lemma role_permitted_message role action :
  fst (validate_role_permission role action) = true ->
  validate_role_permission role action = (true, []).
Proof.
  unfold validate_role_permission.
  destruct (assoc role role_permissions) as [actions|]; [|discriminate].
  destruct (existsb (text_eqb action) actions); [reflexivity | discriminate].
Qed.

Section RouteFacts.
Context {result_dict : Type}.

Lemma route_business (state : AgentState result_dict) pm :
  truthy (error state) = false -> parsed_message state = Some pm ->
  (_route_message state = L "business" <-> In (message_type pm) business_types).
Proof.
  intros He Hp. unfold _route_message. rewrite He, Hp.
  destruct (text_eqb (message_type pm) (L "查询")) eqn:Eq.
  { apply text_eqb_eq in Eq. rewrite Eq. split; [discriminate|].
    intros H. simpl in H.
    repeat (destruct H as [H | H]; [vm_compute in H; discriminate H|]). destruct H. }
  destruct (text_eqb (message_type pm) (L "模板帮助")) eqn:Eh.
  { apply text_eqb_eq in Eh. rewrite Eh. split; [discriminate|].
    intros H. simpl in H.
    repeat (destruct H as [H | H]; [vm_compute in H; discriminate H|]). destruct H. }
  destruct (existsb (text_eqb (message_type pm)) business_types) eqn:Eb.
  - apply existsb_text in Eb. split; auto.
  - split; [discriminate|]. intros H. apply existsb_text in H. congruence.
Qed.

End RouteFacts.

(** A tag of the nine template types stands in the message. *)
Lemma template_tag_found m :
  found (search re_template_tag m) = true <->
  exists t, In t supported_types /\ contains (L "【" ++ t ++ L "】") m = true.
Proof.
  rewrite search_found. split.
  - intros (pre & w & post & Hm & H). unfold occurs_at, re_template_tag in H.
    apply matches_seqs in H as (c1 & H1 & H).
    apply matches_seqs in H as (c2 & H2 & H3).
    apply matches_lit in H1 as (x1 & Hx1 & A1 & B1). apply cs_literal_reads in Hx1. subst x1.
    apply matches_lit in H3 as (x3 & Hx3 & A3 & B3). apply cs_literal_reads in Hx3. subst x3.
    apply matches_grp in H2. apply matches_alts in H2 as (r & Hr & H2); [|discriminate].
    apply in_map_iff in Hr as (t & <- & Ht).
    apply matches_lit in H2 as (x2 & Hx2 & A2 & B2). apply cs_literal_reads in Hx2. subst x2.
    exists t. split; [exact Ht|].
    apply contains_app. exists pre. simpl in A1, A3.
    exists post. rewrite Hm. f_equal.
    rewrite A1, A2, A3, <- !app_assoc. reflexivity.
  - intros (t & Ht & Hc). apply contains_app in Hc as (pre & post & ->).
    exists pre, (L "【" ++ t ++ L "】"), post. split; [reflexivity|].
    unfold occurs_at, re_template_tag.
    apply matches_seqs. exists (Cur (rev (L "【") ++ rev pre) (t ++ L "】" ++ post)). split.
    { apply matches_lit. exists (L "【"). split; [apply cs_literal_reads; reflexivity|].
      cbn [before after]. rewrite <- !app_assoc. auto. }
    apply matches_seqs. exists (Cur (rev t ++ rev (L "【") ++ rev pre) (L "】" ++ post)). split.
    { apply matches_grp. apply matches_alts; [discriminate|].
      exists (lit false t). split; [apply in_map; exact Ht|].
      apply matches_lit. exists t. split; [apply cs_literal_reads; reflexivity|].
      cbn [before after]. auto. }
    apply matches_lit. exists (L "】"). split; [apply cs_literal_reads; reflexivity|].
    cbn [before after]. rewrite !rev_app_distr, <- !app_assoc. auto.
Qed.

(** The router sends a parsed message to the business handler exactly
    when its type is one of the nine template types.  These are the
    types the parser supports and the types whose tag the response node
    looks for in the raw message; each of them is an action that
    exactly one role is permitted to perform, and no role is permitted
    any other action. *)
Theorem template_types_agree :
  forall (result_dict : Type) (state : AgentState result_dict) (pm : ParsedMessage)
         (m t role role' : text),
    (truthy (error state) = false -> parsed_message state = Some pm ->
       (_route_message state = L "business" <-> In (message_type pm) supported_types)) /\
    (truthy (error state) = true -> _route_message state = L "error") /\
    (found (search re_template_tag m) = true <->
       exists t', In t' supported_types /\ contains (L "【" ++ t' ++ L "】") m = true) /\
    (In t supported_types <->
       exists r, validate_role_permission r t = (true, [])) /\
    (validate_role_permission role t = (true, []) ->
     validate_role_permission role' t = (true, []) -> role = role').
Proof.
  intros result_dict state pm m t role role'.
  split; [|split; [|split; [exact (template_tag_found m)|split]]].
  - intros He Hp. exact (route_business state pm He Hp).
  - intros He. unfold _route_message. rewrite He. reflexivity.
  - split.
    + intros Ht. simpl in Ht.
      repeat (destruct Ht as [<- | Ht];
              [first [ exists (L "社媒"); vm_compute; reflexivity
                     | exists (L "合伙人"); vm_compute; reflexivity
                     | exists (L "销售"); vm_compute; reflexivity ]|]).
      destruct Ht.
    + intros (r & Hr).
      assert (Hr' : fst (validate_role_permission r t) = true) by (rewrite Hr; reflexivity).
      apply role_permitted in Hr' as (actions & Hin & Ha).
      unfold role_permissions in Hin.
      repeat (destruct Hin as [Hin | Hin];
              [inversion Hin; subst; clear Hin; simpl in Ha;
               repeat (destruct Ha as [<- | Ha]; [vm_compute; tauto|]);
               destruct Ha|]).
      destruct Hin.
  - intros H1 H2.
    assert (P1 : fst (validate_role_permission role t) = true) by (rewrite H1; reflexivity).
    assert (P2 : fst (validate_role_permission role' t) = true) by (rewrite H2; reflexivity).
    apply role_permitted in P1 as (a1 & I1 & A1).
    apply role_permitted in P2 as (a2 & I2 & A2).
    unfold role_permissions in I1, I2.
    repeat (destruct I1 as [I1 | I1]; [inversion I1; subst; clear I1|]); try destruct I1;
    repeat (destruct I2 as [I2 | I2]; [inversion I2; subst; clear I2|]); try destruct I2;
      try reflexivity;
      simpl in A1; simpl in A2;
      repeat (destruct A1 as [<- | A1]; [|]); try destruct A1;
      repeat (destruct A2 as [A2 | A2]; [vm_compute in A2; discriminate A2|]);
      try destruct A2.
Qed.
(** ** The response node *)

Lemma last_n_snoc_last {A : Type} n (l : list A) x :
  0 < n -> exists earlier, last_n n (l ++ [x]) = earlier ++ [x].
Proof.
  intros Hn. unfold last_n. rewrite length_app. simpl.
  exists (drop (length l + 1 - n) l).
  rewrite drop_app_le by lia. reflexivity.
Qed.

Section ResponseFacts.
Context {result_dict : Type}.

Lemma settle_response_answers (state : AgentState result_dict) :
  exists r, response (settle_response state) = Some r /\ r <> [] /\
            messages (settle_response state) = messages state /\
            sender (settle_response state) = sender state.
Proof.
  unfold settle_response.
  destruct (truthy (error state)).
  - destruct (found (search re_template_tag (first_message state)));
      [eexists; repeat split; discriminate|].
    destruct (contains (L "格式不正确") (default [] (error state)) ||
              contains (L "模板格式") (default [] (error state)));
      [eexists; repeat split; discriminate|].
    destruct (is_query (parsed_message state)); eexists; repeat split; discriminate.
  - destruct (response state) as [[|x r]|] eqn:E; cbn [truthy negb].
    + eexists; repeat split; discriminate.
    + exists (x :: r). rewrite E. repeat split. discriminate.
    + eexists; repeat split; discriminate.
Qed.

End ResponseFacts.

(** [_generate_response_node] always leaves an answer that is not
    empty, appends it to the messages, and, for a sender with a name
    and a memory bound that is not negative, ends the memory of the
    sender with the round of the first message and the answer.  The
    text of an error of a query is not shown: the answer is a fixed
    sentence, unless the first message carries a template tag or the
    error speaks of the message format. *)
Theorem response_node_answers :
  forall (result_dict : Type) (a : agent) (state : AgentState result_dict),
    exists r,
      response (snd (_generate_response_node a state)) = Some r /\
      r <> [] /\
      messages (snd (_generate_response_node a state)) = messages state ++ [r] /\
      (sender state <> EmptyString -> (0 <= _memory_max_turns a)%Z ->
         exists earlier,
           turns_of (fst (_generate_response_node a state)) (sender state) =
           earlier ++ [Turn (match messages state with m :: _ => m | [] => r end) r]) /\
      (truthy (error state) = true ->
       found (search re_template_tag (first_message state)) = false ->
       contains (L "格式不正确") (default [] (error state)) = false ->
       contains (L "模板格式") (default [] (error state)) = false ->
       is_query (parsed_message state) = true ->
         r = L "❌ 查询执行遇到问题，已自动处理或记录。请稍后重试。").
Proof.
  intros result_dict a state.
  destruct (settle_response_answers state) as (r & Hr & Hne & Hm & Hs).
  exists r. unfold _generate_response_node. cbn [fst snd].
  unfold with_messages. cbn [response messages sender first_message].
  rewrite Hr, Hm, Hs. change (default [] (Some r)) with r.
  repeat split; try assumption.
  - intros Hsender HN.
    assert (U : match messages state ++ [r] with m :: _ => m | [] => [] end =
                match messages state with m :: _ => m | [] => r end)
      by (destruct (messages state); reflexivity).
    unfold first_message. cbn [messages]. rewrite U.
    set (u := match messages state with m :: _ => m | [] => r end).
    destruct (Z.eq_dec (_memory_max_turns a) 0%Z) as [Z0 | Zn].
    + rewrite (append_memory_zero_bound a _ u r Z0 Hsender). eauto.
    + assert (Hpos : (0 < _memory_max_turns a)%Z) by lia.
      destruct (append_memory_positive a (sender state) u r Hpos Hsender) as [E _].
      rewrite E. apply last_n_snoc_last. lia.
  - intros He Ht Hf1 Hf2 Hq.
    unfold settle_response in Hr. rewrite He, Ht, Hf1, Hf2, Hq in Hr.
    cbn [orb with_response response] in Hr. congruence.
Qed.

(** ** Normalised values *)

Lemma assoc_value {V : Type} k (d : list (text * V)) v :
  assoc k d = Some v -> In v (map snd d).
Proof. intros H. apply assoc_some in H. apply (in_map snd) in H. exact H. Qed.

Lemma lower_upper_char c : lower_char (upper_char c) = lower_char c.
Proof. each_ascii c; reflexivity. Qed.

Lemma lower_upper s : lower (upper s) = lower s.
Proof. unfold lower, upper. rewrite map_map. apply map_ext, lower_upper_char. Qed.

(** The normalisers of the validator are idempotent.  A feedback type
    that is one of the thirteen aliases becomes one of the valid
    feedback types; a contact type never stays the alias of the QR
    code type; and the answer to a yes/no value does not depend on
    letter case or on white space around the value. *)
Theorem normalisers_settle :
  forall v : text,
    normalize_feedback_type (normalize_feedback_type v) = normalize_feedback_type v /\
    (assoc (strip v) feedback_mapping <> None ->
       In (normalize_feedback_type v) VALID_FEEDBACK_TYPES) /\
    normalize_contact_type (normalize_contact_type v) = normalize_contact_type v /\
    normalize_contact_type v <> L "微信二维码" /\
    parse_yes_no_to_int (Some (upper v)) = parse_yes_no_to_int (Some v) /\
    parse_yes_no_to_int (Some (strip v)) = parse_yes_no_to_int (Some v).
Proof.
  intros v.
  assert (Values : forall x, assoc (strip v) feedback_mapping = Some x ->
            In x VALID_FEEDBACK_TYPES /\ normalize_feedback_type x = x).
  { intros x Hx. apply assoc_value in Hx. simpl in Hx.
    repeat (destruct Hx as [<- | Hx]; [split; vm_compute; tauto|]). destruct Hx. }
  split; [|split; [|split; [|split; [|split]]]].
  - remember (normalize_feedback_type v) as n eqn:Hn.
    unfold normalize_feedback_type in Hn.
    destruct (assoc (strip v) feedback_mapping) as [x|] eqn:E; subst n.
    + apply Values. reflexivity.
    + unfold normalize_feedback_type. rewrite strip_idempotent, E. reflexivity.
  - unfold normalize_feedback_type.
    destruct (assoc (strip v) feedback_mapping) as [x|] eqn:E; [|congruence].
    intros _. apply Values. reflexivity.
  - remember (normalize_contact_type v) as n eqn:Hn.
    unfold normalize_contact_type in Hn.
    destruct (existsb (text_eqb (strip v)) [L "微信二维码"; L "微信二维码昵称"]) eqn:E; subst n.
    + vm_compute. reflexivity.
    + unfold normalize_contact_type. rewrite strip_idempotent, E. reflexivity.
  - unfold normalize_contact_type.
    destruct (existsb (text_eqb (strip v)) [L "微信二维码"; L "微信二维码昵称"]) eqn:E.
    + apply texts_differ. vm_compute. reflexivity.
    + intros H. rewrite H in E. vm_compute in E. discriminate E.
  - unfold parse_yes_no_to_int. rewrite strip_upper, lower_upper. reflexivity.
  - unfold parse_yes_no_to_int. rewrite strip_idempotent. reflexivity.
Qed.

(** ** The statements of the rule-based generator *)

Lemma alpha_by_upper c : is_alpha c = is_upper (upper_char c).
Proof. each_ascii c; reflexivity. Qed.

Lemma same_ci_alpha w k :
  same_ci w k -> forallb is_alpha k = true -> forallb is_alpha w = true.
Proof.
  unfold same_ci, upper. revert k. induction w as [|c w IH]; intros k H Hk; [reflexivity|].
  destruct k as [|d k]; [discriminate H|]. simpl in H. inversion H.
  simpl in Hk |- *. apply andb_true_iff in Hk as [Hd Hk].
  rewrite (IH k) by assumption. rewrite alpha_by_upper in Hd |- *.
  rewrite H1, Hd. reflexivity.
Qed.

Lemma same_ci_length w k : same_ci w k -> length w = length k.
Proof.
  unfold same_ci, upper. intros H.
  rewrite <- (length_map upper_char w), H, length_map. reflexivity.
Qed.

Lemma alpha_is_word c : is_alpha c = true -> is_word c = true.
Proof. unfold is_word. intros ->. reflexivity. Qed.

Lemma starts_clear_app (l t : text) : l <> [] -> (starts_clear (l ++ t) <-> starts_clear l).
Proof. destruct l; [congruence|]. intros _. reflexivity. Qed.

Lemma last_of_app {A : Type} (l1 l2 : list A) d :
  l2 <> [] -> List.last (l1 ++ l2) d = List.last l2 d.
Proof.
  intros Hne. induction l1 as [|a l1 IH]; [reflexivity|].
  simpl. rewrite IH. destruct (l1 ++ l2) eqn:E; [|reflexivity].
  apply app_eq_nil in E as [_ E]. congruence.
Qed.

(** A word of letters does not reach across a quote into a text whose
    only letter is its first character. *)
Lemma no_word_across k body q x rest :
  forallb is_alpha k = true -> 2 <= length k ->
  is_alpha q = false -> is_word x = true ->
  forallb (fun c => negb (is_alpha c)) rest = true ->
  ~ whole_word_in k (body ++ [q]) ->
  ~ whole_word_in k ((body ++ [q]) ++ x :: rest).
Proof.
  intros Hk Hlen Hq Hx Hrest Hno (pre & w & post & Hs & Hci & Hpre & Hpost).
  pose proof (same_ci_alpha _ _ Hci Hk) as Hw.
  pose proof (same_ci_length _ _ Hci) as Hwl.
  assert (NoQ : forall u v, w = u ++ q :: v -> False).
  { intros u v ->. rewrite forallb_app in Hw. simpl in Hw. rewrite Hq in Hw.
    rewrite andb_false_r in Hw. discriminate Hw. }
  assert (NoRest : forall c, In c w -> In c rest -> False).
  { intros c Hc Hr.
    apply (proj1 (forallb_forall _ _) Hw) in Hc.
    apply (proj1 (forallb_forall _ _) Hrest) in Hr. rewrite Hc in Hr. discriminate Hr. }
  assert (Second : forall c w', w = c :: w' -> exists d w'', w' = d :: w'').
  { intros c w' ->. destruct w' as [|d w'']; [simpl in Hwl; lia | eauto]. }
  symmetry in Hs. apply app_eq_app in Hs as [l [[Hp Ht] | [Hp Ht]]].
  - (* the word starts inside the second part *)
    destruct l as [|y l].
    + simpl in Ht. destruct w as [|c w']; [simpl in Hwl; lia|].
      destruct (Second c w' eq_refl) as (d & w'' & ->).
      simpl in Ht. inversion Ht; subst.
      apply (NoRest d); [right; left; reflexivity | left; reflexivity].
    + simpl in Ht. inversion Ht; subst.
      destruct w as [|c w']; [simpl in Hwl; lia|].
      apply (NoRest c); [left; reflexivity|].
      apply in_or_app. right. left. reflexivity.
  - symmetry in Ht. apply app_eq_app in Ht as [l' [[Hl Hpost'] | [Hw' Ht']]].
    + (* the word lies in the first part *)
      destruct l' as [|z l'].
      * rewrite app_nil_r in Hl. subst l.
        apply (NoQ (removelast w) []).
        assert (Hwne : w <> []) by (intros ->; simpl in Hwl; lia).
        rewrite (app_removelast_last q Hwne) at 1. f_equal. f_equal.
        assert (E : List.last (pre ++ w) q = List.last (body ++ [q]) q) by (rewrite Hp; reflexivity).
        rewrite List.last_last in E. rewrite (last_of_app pre w q Hwne) in E. exact E.
      * apply Hno. exists pre, w, (z :: l'). subst l.
        split; [rewrite Hp; reflexivity|]. split; [exact Hci|]. split; [exact Hpre|].
        rewrite Hpost' in Hpost. exact Hpost.
    + (* the word reaches the second part *)
      destruct l' as [|z l'].
      * rewrite app_nil_r in Hw'. subst w. simpl in Ht'. subst post.
        simpl in Hpost. congruence.
      * destruct l as [|y l].
        -- simpl in Hw'. subst w.
           destruct l' as [|d l'']; [simpl in Hwl; lia|].
           simpl in Ht'. injection Ht' as _ Hr.
           apply (NoRest d); [right; left; reflexivity|].
           rewrite Hr. left. reflexivity.
        -- assert (Hl : (y :: l) <> []) by discriminate.
           assert (E : List.last (pre ++ y :: l) q = List.last (body ++ [q]) q) by (rewrite Hp; reflexivity).
           rewrite List.last_last in E. rewrite last_of_app in E by exact Hl.
           apply (NoQ (removelast (y :: l)) (z :: l')).
           rewrite Hw'. rewrite (app_removelast_last q Hl) at 1.
           rewrite E, <- app_assoc. reflexivity.
Qed.
Lemma search_matched r s m :
  search r s = Some m ->
  matches r (m_from m) (m_to m) /\ after (m_from m) = matched m ++ after (m_to m).
Proof.
  intros H. apply search_from_subject in H as [Hm _]. split; [exact Hm|].
  destruct (matches_reads _ _ _ Hm) as (w & Ha & Hb).
  unfold matched, m_end, m_start, pos. rewrite Hb, Ha, length_app, length_rev.
  replace (length w + length (before (m_from m)) - length (before (m_from m)))
    with (length w) by lia.
  rewrite take_app_length. reflexivity.
Qed.

Lemma letter_p_upper x : is_char true (ch "p") x = true -> upper_char x = ch "P".
Proof.
  intros H. apply eqc_eq.
  assert (G : forall y, implb (is_char true (ch "p") y) (eqc (upper_char y) (ch "P")) = true).
  { apply forall_ascii_spec. vm_compute. reflexivity. }
  specialize (G x). rewrite H in G. exact G.
Qed.

Lemma plain_upper x :
  is_space x || is_digit x = true ->
  negb (is_alpha (upper_char x)) && negb (eqc (upper_char x) (ch "'")) = true.
Proof.
  intros H.
  assert (G : forall y, implb (is_space y || is_digit y)
                (negb (is_alpha (upper_char y)) && negb (eqc (upper_char y) (ch "'"))) = true).
  { apply forall_ascii_spec. vm_compute. reflexivity. }
  specialize (G x). rewrite H in G. exact G.
Qed.

(** The parent code the generator puts into its statement: a capital
    P, then digits and white space only. *)
Lemma parent_code_shape query m :
  search re_parent_code query = Some m ->
  exists rest,
    remove_spaces (upper (matched m)) = ch "P" :: rest /\
    forallb (fun c => negb (is_alpha c) && negb (eqc c (ch "'"))) rest = true.
Proof.
  intros H. apply search_matched in H as [Hm Ha].
  unfold re_parent_code in Hm.
  apply matches_seqs in Hm as (c1 & H1 & Hm).
  apply matches_seqs in Hm as (c2 & H2 & Hm).
  apply matches_seqs in Hm as (c3 & H3 & H4).
  apply matches_chr in H1 as (x & Hx & A1 & _).
  apply matches_star in H2 as (w2 & P2 & A2 & _).
  apply (matches_times is_digit) in H3 as (w3 & _ & P3 & A3 & _).
  apply matches_star in H4 as (w4 & P4 & A4 & _).
  rewrite A1, A2, A3, A4 in Ha.
  assert (E : matched m = x :: w2 ++ w3 ++ w4).
  { apply (app_inv_tail (after (m_to m))). rewrite <- Ha.
    simpl. rewrite <- !app_assoc. reflexivity. }
  rewrite E. cbn [upper map]. unfold remove_spaces. cbn [List.filter].
  rewrite (letter_p_upper x Hx). cbn [eqc negb]. change (eqc (ch "P") (ch " ")) with false.
  cbn [negb]. eexists. split; [reflexivity|].
  apply forallb_forall. intros c Hc. apply List.filter_In in Hc as [Hc _].
  apply in_map_iff in Hc as (y & <- & Hy). apply plain_upper.
  apply in_app_or in Hy as [Hy | Hy];
    [apply (proj1 (forallb_forall _ _) P2) in Hy; rewrite Hy; reflexivity|].
  apply in_app_or in Hy as [Hy | Hy];
    [apply (proj1 (forallb_forall _ _) P3) in Hy | apply (proj1 (forallb_forall _ _) P4) in Hy];
    rewrite Hy; apply orb_true_r.
Qed.

Lemma begins_select_kept tail :
  startswith (L "SELECT") (strip (upper (L "SELECT" ++ tail))) = true.
Proof.
  rewrite upper_app. change (upper (L "SELECT")) with (L "SELECT").
  unfold strip. change (L "SELECT" ++ upper tail) with (ch "S" :: L "ELECT" ++ upper tail).
  rewrite lstrip_keeps by reflexivity.
  rewrite startswith_rstrip; [|discriminate | reflexivity].
  apply startswith_app. eexists. reflexivity.
Qed.

Lemma keywords_are_words k :
  In k dangerous_keywords -> forallb is_alpha (L k) = true /\ 2 <= length (L k).
Proof.
  intros H. simpl in H.
  repeat (destruct H as [<- | H]; [split; [reflexivity | simpl; lia]|]). destruct H.
Qed.

Lemma parent_code_sql_safe rest :
  forallb (fun c => negb (is_alpha c) && negb (eqc c (ch "'"))) rest = true ->
  preflight (parent_code_sql (ch "P" :: rest)) = Ok tt.
Proof.
  intros Hrest. apply preflight_ok. split.
  - exact (begins_select_kept _).
  - apply search_none. rewrite dangerous_occurs. intros (k & Hk & Hw).
    destruct (keywords_are_words k Hk) as [Ka Kl].
    set (body := removelast
           (L "SELECT p.parent_code, p.source_platform, p.current_status, p.partner_id, p.salesperson_id, " ++
            L "p.intent_level, p.deal_amount, p.created_at, p.updated_at " ++
            L "FROM parents p WHERE p.parent_code = '")).
    assert (E : parent_code_sql (ch "P" :: rest) =
                (body ++ [ch "'"]) ++ ch "P" :: (rest ++ L "'")) by reflexivity.
    rewrite E in Hw. revert Hw.
    apply no_word_across; try assumption; try reflexivity.
    + rewrite forallb_app. apply andb_true_iff. split; [|reflexivity].
      apply forallb_forall. intros c Hc.
      apply (proj1 (forallb_forall _ _) Hrest) in Hc.
      apply andb_true_iff in Hc as [Hc _]. exact Hc.
    + intros Hw.
      assert (N : search dangerous_pattern (body ++ [ch "'"]) = None)
        by (vm_compute; reflexivity).
      apply search_none in N. apply N, dangerous_occurs. eauto.
Qed.

(** Every statement the rule-based generator returns passes the safety
    check of [execute_sql]: it begins with SELECT and holds no write or
    DDL keyword.  The only part of the question that reaches a
    statement is a parent code, as a capital P followed by digits and
    white space, between quotes and without a quote of its own. *)
Theorem rule_based_sql_is_safe :
  forall query sql : text,
    _rule_based_sql query = Ok sql ->
    preflight sql = Ok tt /\
    (contains (L "'P") sql = true ->
       exists rest,
         sql = parent_code_sql (ch "P" :: rest) /\
         forallb (fun c => negb (is_alpha c) && negb (eqc c (ch "'"))) rest = true).
Proof.
  intros query sql. unfold _rule_based_sql.
  repeat match goal with
         | |- context [if ?b then Ok ?s else _] =>
             destruct b;
             [intros H; injection H as <-;
              split; [vm_compute; reflexivity | intros C; vm_compute in C; discriminate C]|]
         end.
  destruct (if contains (L "查询") (lower query)
            then search re_parent_code query else None) as [m|] eqn:Em.
  - assert (Hs : search re_parent_code query = Some m)
      by (destruct (contains (L "查询") (lower query)); [exact Em | discriminate Em]).
    destruct (parent_code_shape query m Hs) as (rest & Hc & Hrest).
    intros H. injection H as <-. rewrite Hc.
    change (L "SELECT p.parent_code, p.source_platform, p.current_status, p.partner_id, p.salesperson_id, " ++
            L "p.intent_level, p.deal_amount, p.created_at, p.updated_at " ++
            L "FROM parents p WHERE p.parent_code = '" ++ (ch "P" :: rest) ++ L "'")
      with (parent_code_sql (ch "P" :: rest)).
    split; [apply parent_code_sql_safe; exact Hrest | eauto].
  - repeat match goal with
           | |- context [if ?b then Ok ?s else _] =>
               destruct b;
               [intros H; injection H as <-;
                split; [vm_compute; reflexivity | intros C; vm_compute in C; discriminate C]|]
           end.
    discriminate.
Qed.

Lemma rule_based_sql_is_safe_witness :
  _rule_based_sql (L "查询 p202511057549") = Ok (parent_code_sql (L "P202511057549")) /\
  preflight (parent_code_sql (L "P202511057549")) = Ok tt.
Proof.
  assert (E : _rule_based_sql (L "查询 p202511057549") =
              Ok (parent_code_sql (L "P202511057549"))) by (vm_compute; reflexivity).
  split; [exact E|].
  exact (proj1 (rule_based_sql_is_safe (L "查询 p202511057549") _ E)).
Defined.

(** ** Queries the rewriter leaves alone *)

(** A pattern that reads a keyword occurs only in a text that holds the
    keyword in some letter case. *)
Lemma seqs_need_keyword rs1 w rs2 s :
  occurs (seqs (rs1 ++ lit true w :: rs2)) s -> contains (upper w) (upper s) = true.
Proof.
  intros Ho. apply occurs_cursors in Ho as (c & c' & Hs & H).
  apply matches_seqs_app in H as (c1 & H1 & H2).
  apply matches_seqs in H2 as (c2 & H2 & H3).
  apply matches_keyword in H2 as (x & Hx & Ha & Hb).
  rewrite <- Hs, <- (matches_subject _ _ _ H1). unfold subject.
  rewrite Ha, !upper_app. unfold same_ci in Hx. rewrite Hx.
  apply contains_app. exists (upper (rev (before c1))), (upper (after c2)). reflexivity.
Qed.

Lemma absent_keyword rs1 w rs2 s :
  contains (upper w) (upper s) = false -> search (seqs (rs1 ++ lit true w :: rs2)) s = None.
Proof.
  intros H. apply search_none. intros Ho. apply seqs_need_keyword in Ho. congruence.
Qed.

Lemma contains_strip k s : contains k (upper s) = false -> contains k (upper (strip s)) = false.
Proof.
  intros H. destruct (contains k (upper (strip s))) eqn:E; [|reflexivity].
  apply contains_app in E as (pre & post & E).
  destruct (strip_spec s) as (lead & trail & Hs & _ & _).
  assert (C : contains k (upper s) = true).
  { apply contains_app. exists (upper lead ++ pre), (post ++ upper trail).
    rewrite Hs at 1. rewrite !upper_app, E, <- !app_assoc. reflexivity. }
  congruence.
Qed.

Lemma reorder_without_limit s :
  contains (L "LIMIT") (upper s) = false -> _reorder_top_level_order_limit s = s.
Proof.
  intros H. unfold _reorder_top_level_order_limit. rewrite (limit_absent s H).
  destruct (clause_index s (L "ORDER BY")); reflexivity.
Qed.

Lemma in_rewrite_without_parents s :
  contains (L "PARENTS") (upper s) = false -> _rewrite_in_with_limit_to_join s = s.
Proof.
  intros H. unfold _rewrite_in_with_limit_to_join.
  assert (E : search re_from_parents_alias s = None)
    by exact (absent_keyword [WordB; kw "FROM"; ws1; opt (kw "lead_management.")]
                (L "parents") [ws1; Grp 1 word1; WordB] s H).
  rewrite E. reflexivity.
Qed.

Lemma join_fix_without_parents issues s :
  contains (L "PARENTS") (upper s) = false -> fix_wrong_join issues s = s.
Proof.
  intros H. unfold fix_wrong_join.
  assert (E : search re_from_parents s = None)
    by exact (absent_keyword [WordB; kw "FROM"; ws1] (L "parents") [ws1; Grp 1 word1] s H).
  rewrite E. reflexivity.
Qed.

Lemma verified_removal_without_filter s :
  contains (L ".IS_VERIFIED") (upper s) = false -> _remove_unwarranted_is_verified s = s.
Proof.
  intros H. unfold _remove_unwarranted_is_verified.
  assert (E1 : sub re_and_verified [] s = s).
  { apply sub_absent.
    exact (absent_keyword [ws1; kw "AND"; ws1; word1] (L ".is_verified")
             [ws0; sym "="; ws0; sym "1"; WordB] s H). }
  rewrite E1.
  assert (E2 : sub re_where_verified_and (L " WHERE ") s = s).
  { apply sub_absent.
    exact (absent_keyword [WordB; kw "WHERE"; ws1; word1] (L ".is_verified")
             [ws0; sym "="; ws0; sym "1"; ws1; kw "AND"; ws1] s H). }
  rewrite E2.
  apply sub_absent.
  exact (absent_keyword [WordB; kw "WHERE"; ws1; word1] (L ".is_verified")
           [ws0; sym "="; ws0; sym "1"; WordB] s H).
Qed.

Lemma distinct_fix_without_distinct s :
  contains (L "DISTINCT") (upper s) = false -> _fix_distinct_orderby_not_in_select s = s.
Proof.
  intros H. apply contains_strip in H. unfold _fix_distinct_orderby_not_in_select.
  cbv zeta.
  assert (E : search re_select_distinct (strip s) = None)
    by exact (absent_keyword [Bos; ws0; kw "SELECT"; ws1] (L "DISTINCT") [WordB] (strip s) H).
  rewrite E. reflexivity.
Qed.



(** The detector raises [not_select] on exactly the queries that the
    safety check of [execute_sql] refuses for not being a SELECT. *)
Theorem detector_agrees_on_select :
  forall sql natural_query : text,
    has_issue not_select (_static_sql_issues sql natural_query) = true <->
    preflight sql = Raise only_select.
Proof.
  intros sql nq.
  assert (E : has_issue not_select (_static_sql_issues sql nq) =
              negb (startswith (L "SELECT") (strip (upper sql)))).
  { unfold _static_sql_issues. cbv zeta. rewrite strip_upper.
    rewrite !has_issue_flag, has_issue_flag_last. cbn [issue_eqb].
    rewrite !andb_false_r, !orb_false_r, andb_true_r. reflexivity. }
  rewrite E. unfold preflight. cbv zeta.
  destruct (startswith (L "SELECT") (strip (upper sql))); cbn [negb].
  - split; [discriminate|].
    destruct (search dangerous_pattern sql) as [m|]; [|discriminate].
    intros H. exfalso. injection H as H.
    assert (C : contains (L ":") only_select = false) by (vm_compute; reflexivity).
    rewrite <- H in C.
    assert (C' : contains (L ":") (dangerous_prefix ++ upper (group 1 m)) = true).
    { apply contains_app. exists (removelast (removelast dangerous_prefix)).
      exists (L " " ++ upper (group 1 m)). reflexivity. }
    congruence.
  - split; reflexivity.
Qed.

(** ** The text of a query result *)

Section FormatFacts.
Context {temporal : Type} (isoformat : temporal -> text) (now : text).

(** The payload of [execute_sql] is the success payload of one of the
    statements sent, or the generic failure. *)
Lemma execute_sql_payload (db : @database temporal) sql tr p :
  execute_sql isoformat now db sql = (tr, p) ->
  success_of isoformat db tr p \/ p = format_error_response now generic_failure.
Proof.
  intros H. unfold execute_sql in H. destruct (preflight sql) as [[]|e].
  - destruct (run_query isoformat now db [] sql) as [tr0 [p0|e]] eqn:E.
    + inversion H; subst. left. rewrite <- (app_nil_r tr).
      exact (success_of_run isoformat now db [] sql _ _ [] E).
    + exact (recover_payload isoformat now db sql e tr0 tr p H).
  - exact (recover_payload isoformat now db sql e [] tr p H).
Qed.

Context (str_value : @value temporal -> text) (str_row : @dict temporal -> text).

Lemma many_rows_head total (data : list (@dict temporal)) :
  startswith (L "📊 查询结果") (many_rows str_value total data) = true.
Proof.
  apply startswith_app. unfold many_rows.
  eexists. change (L "📊 查询结果（共 ") with (L "📊 查询结果" ++ L "（共 ").
  rewrite <- app_assoc. reflexivity.
Qed.

(** A payload whose [total] is the number of its rows is always given a
    text. *)
Lemma format_counted flag q (data : list (@dict temporal)) ts :
  exists t,
    format_query_response str_value str_row
      (query_result flag q (length data) data ts) = Ok t /\
    (flag = true -> startswith (L "📊 查询结果") t = true) /\
    (flag = true -> data = [] -> t = L "📊 查询结果：暂无数据").
Proof.
  unfold format_query_response. cbn [payload_success].
  destruct flag; cbn [negb].
  2:{ eexists. split; [reflexivity|]. split; intros; discriminate. }
  destruct data as [|row rest].
  { cbn. eexists. split; [reflexivity|]. split; reflexivity. }
  assert (P : forall t0 : text,
             t0 = many_rows str_value (length (row :: rest)) (row :: rest) ->
             exists t, @Ok text t0 = Ok t /\
               (true = true -> startswith (L "📊 查询结果") t = true) /\
               (true = true -> row :: rest = [] -> t = L "📊 查询结果：暂无数据")).
  { intros t0 ->. eexists. split; [reflexivity|].
    split; [intros _; apply many_rows_head | intros _ ?; discriminate]. }
  assert (Q : forall x : text,
             exists t, @Ok text (L "📊 查询结果：" ++ x) = Ok t /\
               (true = true -> startswith (L "📊 查询结果") t = true) /\
               (true = true -> row :: rest = [] -> t = L "📊 查询结果：暂无数据")).
  { intros x. eexists. split; [reflexivity|].
    split; [intros _ | intros _ ?; discriminate].
    apply startswith_app. eexists.
    change (L "📊 查询结果：") with (L "📊 查询结果" ++ L "：").
    rewrite <- app_assoc. reflexivity. }
  change (length (row :: rest) =? 0) with false. cbv iota.
  destruct rest as [|row' rest].
  - change (length [row] =? 1) with true. cbv iota.
    destruct row as [|[key value] [|kv more]].
    + destruct (contains (L "count") (lower (str_row []))); [|apply P; reflexivity].
      cbn [count_value]. apply P; reflexivity.
    + apply Q.
    + destruct (contains (L "count") (lower (str_row ((key, value) :: kv :: more))));
        [|apply P; reflexivity].
      destruct (count_value ((key, value) :: kv :: more)); [apply Q | apply P; reflexivity].
  - change (length (row :: row' :: rest) =? 1) with false. cbv iota.
    apply P; reflexivity.
Qed.

End FormatFacts.

(** The text of a result.  [format_query_response] raises on exactly one
    shape of payload, a success that announces one row and holds none
    (the [IndexError] of [data[0]]); on every payload [execute_sql]
    returns it gives a text: the failure mark followed by the generic
    failure message when the execution failed, a text that begins with
    the result mark when it succeeded, and the no-data message when the
    query returned no row. *)
Theorem executed_payload_is_formatted :
  forall (temporal : Type) (isoformat : temporal -> text) (now : text)
         (str_value : @value temporal -> text) (str_row : @dict temporal -> text),
    (forall (res : @payload temporal) e,
        format_query_response str_value str_row res = Raise e <->
        e = list_index_error /\ exists q ts, res = query_result true q 1 [] ts) /\
    (forall (db : @database temporal) (sql : text),
        let p := snd (execute_sql isoformat now db sql) in
        exists t,
          format_query_response str_value str_row p = Ok t /\
          (payload_success p = false -> t = L "❌ 查询失败：" ++ generic_failure) /\
          (payload_success p = true -> startswith (L "📊 查询结果") t = true) /\
          (forall q ts, p = query_result true q 0 [] ts -> t = L "📊 查询结果：暂无数据")).
Proof.
  intros temporal isoformat now str_value str_row. split.
  - intros res e. split.
    + unfold format_query_response.
      destruct res as [flag q total data ts | flag err ts]; cbn [payload_success];
        destruct flag; cbn [negb]; try discriminate.
      destruct total as [|[|n]]; [discriminate| |discriminate].
      change (1 =? 0) with false. change (1 =? 1) with true. cbv iota.
      destruct data as [|row rest].
      * intros H. inversion H. split; [reflexivity|]. exists q, ts. reflexivity.
      * destruct row as [|[key value] [|kv more]]; try discriminate.
        -- destruct (contains (L "count") (lower (str_row []))); discriminate.
        -- destruct (contains (L "count") (lower (str_row ((key, value) :: kv :: more))));
             [|discriminate].
           destruct (count_value ((key, value) :: kv :: more)); discriminate.
    + intros (-> & q & ts & ->). reflexivity.
  - intros db sql p.
    destruct (execute_sql isoformat now db sql) as [tr p0] eqn:E.
    subst p. cbn [snd].
    destruct (execute_sql_payload isoformat now db sql tr p0 E) as [G | ->].
    + destruct G as (query & data & ts & n & rs & -> & _).
      destruct (format_counted str_value str_row true query data ts) as (t & Ht & Hs & Hn).
      exists t. split; [exact Ht|]. split; [discriminate|].
      split; [intros _; apply Hs; reflexivity|].
      intros q0 ts0 H. inversion H as [[Hq Hl Hd Hts]]. apply Hn; [reflexivity|].
      exact Hd.
    + eexists. split; [reflexivity|]. split; [reflexivity|].
      split; [discriminate|]. intros q0 ts0 H. discriminate H.
Qed.


(** ** Mentions of the robot *)

Lemma upper_split s a b :
  upper s = a ++ b -> exists a' b', s = a' ++ b' /\ upper a' = a /\ upper b' = b.
Proof.
  unfold upper. intros H. apply List.map_eq_app in H as (a' & b' & -> & <- & <-).
  exists a', b'. auto.
Qed.

(** A literal under [re.IGNORECASE] is found where the upper-cased
    text holds the upper-cased literal. *)
Lemma keyword_found w s :
  found (search (lit true w) s) = contains (upper w) (upper s).
Proof.
  apply eq_true_iff_eq. rewrite search_found. split.
  - intros H. exact (seqs_need_keyword [] w [] s H).
  - intros H. apply contains_app in H as (pre' & post' & H).
    apply upper_split in H as (pre & rest & -> & Hpre & H).
    apply upper_split in H as (x & post & -> & Hx & Hpost).
    exists pre, x, post. split; [reflexivity|].
    unfold occurs_at. apply matches_keyword. exists x. cbn [before after].
    split; [exact Hx|]. split; reflexivity.
Qed.

Lemma name_not_found name s :
  found (search (lit true name) s) = false ->
  sub (Seq (lit true name) (Star Greedy is_space)) [] s = s.
Proof.
  intros H. apply sub_absent. rewrite keyword_found in H.
  exact (absent_keyword [] name [Star Greedy is_space] s H).
Qed.

(** A message mentions the robot exactly when it holds one of the five
    names, in any letter case; the agent and the application agree on
    it.  On a message that does not mention the robot,
    [clean_robot_mention] is [clean_text]; on one that does, the
    cleaned message can still mention it, each name being removed in
    one pass. *)
Theorem robot_mention_by_name :
  forall message : text,
    (_is_robot_mentioned message = true <->
       exists name, In name robot_names /\
                    contains (upper name) (upper message) = true) /\
    is_robot_mentioned message = _is_robot_mentioned message /\
    (is_robot_mentioned message = false ->
       clean_robot_mention message = clean_text message) /\
    (exists m, is_robot_mentioned m = true /\
               is_robot_mentioned (clean_robot_mention m) = true).
Proof.
  intros message. split; [|split; [reflexivity|split]].
  - unfold _is_robot_mentioned. rewrite existsb_exists.
    split; intros (name & Hin & H); exists name; (split; [exact Hin|]).
    + rewrite <- keyword_found. exact H.
    + rewrite keyword_found. exact H.
  - unfold is_robot_mentioned, robot_names. cbn [existsb].
    intros H. repeat (apply orb_false_iff in H as [? H]).
    unfold clean_robot_mention, robot_patterns, robot_names. cbn [map fold_left].
    repeat match goal with
           | Hn : found (search (lit true ?name) message) = false |- _ =>
               rewrite (name_not_found name message Hn); clear Hn
           end.
    reflexivity.
  - exists (L "@机@机器人器人"). split; vm_compute; reflexivity.
Qed.
